(** * merkledb: trie views over a Merkle radix trie

    A shallow embedding of [x/merkledb] (the node representation, the
    [trieView] overlay and the path compression of [statelessView]) and the
    properties of its specification that were checked against it. *)

From Stdlib Require Import Strings.Byte.
From stdpp Require Import gmap list fin_maps sorting.


(** ** Bytes, keys and tokens *)

(** A Go [[]byte]. *)
Definition bytes := list byte.

Global Instance byte_eq_dec : EqDecision byte := Byte.byte_eq_dec.

(** [bytes.Compare]: lexicographic order on the unsigned byte values. *)
Fixpoint bytes_Compare (a b : bytes) : comparison :=
  match a, b with
  | [], [] => Eq
  | [], _ :: _ => Lt
  | _ :: _, [] => Gt
  | x :: a', y :: b' =>
      match N.compare (Byte.to_N x) (Byte.to_N y) with
      | Eq => bytes_Compare a' b'
      | c => c
      end
  end.

(** Modelled from the spec: the [Key] type (its file is not part of the
    sources at hand).  A key is an immutable sequence of tokens of the
    trie's token size.  The source measures offsets and lengths in bits,
    always a multiple of [tokenSize]; here they are counted in tokens, so
    that [k.length + t.tokenSize] of the source reads [length k + 1]. *)
Definition token := N.
Definition Key := list token.

Definition emptyKey : Key := [].

(** [k.Token(i)]: the token at offset [i].  The source panics out of range;
    the calls modelled below are within range. *)
Definition Token (k : Key) (i : nat) : token := nth i k 0%N.

(** [k.Take(n)]: the first [n] tokens. *)
Definition Take (k : Key) (n : nat) : Key := take n k.

(** [k.Skip(n)]: the key without its first [n] tokens. *)
Definition Skip (k : Key) (n : nat) : Key := drop n k.

(** [k.Extend(t, suffix)]: [k] followed by the token [t] and [suffix]. *)
Definition Extend (k : Key) (t : token) (suffix : Key) : Key := k ++ t :: suffix.

(** [k.iteratedHasPrefix(prefix, offset)]: [prefix] is a prefix of [k]
    from [offset] on, compared token by token. *)
Fixpoint hasPrefixb (pre k : Key) : bool :=
  match pre, k with
  | [], _ => true
  | _ :: _, [] => false
  | x :: pre', y :: k' => if N.eqb x y then hasPrefixb pre' k' else false
  end.

Definition iteratedHasPrefix (k prefix : Key) (offset : nat) : bool :=
  hasPrefixb prefix (drop offset k).

(** ** node.go: the node *)

Definition HashLength : nat := 32.

(** An [ids.ID]: the 32 bytes of a hash. *)
Definition ID := bytes.
Definition ids_Empty : ID := replicate HashLength x00.

(** [maybe.Maybe[T]] *)
Abbreviation Maybe := option (only parsing).

Record child := mkChild {
  compressedKey : Key;
  c_id : ID;
  c_hasValue : bool;
}.

Record node := mkNode {
  value : Maybe bytes;
  children : gmap token child;
}.

Definition newNode : node := {| value := None; children := ∅ |}.

Definition hasValue (n : node) : bool := bool_decide (value n ≠ None).

Definition setValue (val : Maybe bytes) (n : node) : node :=
  {| value := val; children := children n |}.

Definition setChildEntry (index : token) (childEntry : child) (n : node) : node :=
  {| value := value n; children := <[index := childEntry]> (children n) |}.

(** [delete(n.children, index)] *)
Definition deleteChildEntry (index : token) (n : node) : node :=
  {| value := value n; children := delete index (children n) |}.

Section Hashing.
(** [hashing.ComputeHash256]: SHA-256, an external primitive. *)
Variable ComputeHash256 : bytes -> bytes.

Definition getValueDigest (val : Maybe bytes) : Maybe bytes :=
  match val with
  | None => val
  | Some v =>
      if length v <? HashLength then val else Some (ComputeHash256 v)
  end.

Definition node_getValueDigest (n : node) : Maybe bytes :=
  getValueDigest (value n).
End Hashing.

(** ** Errors and results *)

(** The error values of the view, [database.ErrNotFound] and
    [ErrInvalidMaxLength]; [Errorf_but_was e n] is
    [fmt.Errorf("%w but was %d", e, n)].  The last two are no error values of
    the program: [GoPanic] stands for a run-time panic (a nil [*node]
    dereferenced), [OutOfFuel] for a recursion of the model cut short. *)
Inductive error :=
  | ErrCommitted
  | ErrInvalid
  | ErrPartialByteLengthWithValue
  | ErrGetPathToFailure
  | ErrStartAfterEnd
  | ErrNoValidRoot
  | ErrParentNotDatabase
  | ErrNodesAlreadyCalculated
  | ErrInvalidMaxLength
  | ErrNotFound
  | Errorf_but_was (e : error) (n : Z)
  | GoPanic
  | OutOfFuel.

Global Instance error_eq_dec : EqDecision error.
Proof. solve_decision. Defined.

(** [errors.Is] *)
Fixpoint errors_Is (e target : error) : bool :=
  if decide (e = target) then true
  else match e with
       | Errorf_but_was e' _ => errors_Is e' target
       | _ => false
       end.

(** A Go result [(T, error)]. *)
Inductive result (A : Type) :=
  | Ok (a : A)
  | Err (e : error).
Arguments Ok {A} a.
Arguments Err {A} e.

(** ** The change summary and the view *)

Record change (A : Type) := mkChange {
  before : A;
  after : A;
}.
Arguments mkChange {A} before after.
Arguments before {A} c.
Arguments after {A} c.

(** [changeSummary]; a nil [*node] is [None]. *)
Record changeSummary := mkChanges {
  values : gmap Key (change (Maybe bytes));
  nodes : gmap Key (change (option node));
  rootID : ID;
}.

Definition newChangeSummary : changeSummary :=
  {| values := ∅; nodes := ∅; rootID := ids_Empty |}.

(** The part of the [TrieView] interface a view uses of its parent.  The
    parent is the database or another view; it does not change while the
    view works.  An ancestor may however invalidate the view while a call
    into the parent runs: next to its result a call tells whether that
    happened. *)
Record TrieView := mkTrieView {
  tv_getValue : Key -> result (Maybe bytes) * bool;
  tv_getEditableNode : Key -> bool -> result node * bool;
}.

(** [trieView].  The locks, [db], [childViews] and [committed] play no part
    in what follows; [calculateNodesOnce] holds whether the once has fired. *)
Record trieView := mkView {
  nodesAlreadyCalculated : bool;
  calculateNodesOnce : bool;
  invalidated : bool;
  parentTrie : TrieView;
  changes : changeSummary;
  root : node;
}.

Definition set_invalidated (b : bool) (t : trieView) : trieView :=
  mkView (nodesAlreadyCalculated t) (calculateNodesOnce t) b
         (parentTrie t) (changes t) (root t).

Definition set_nodesAlreadyCalculated (b : bool) (t : trieView) : trieView :=
  mkView b (calculateNodesOnce t) (invalidated t)
         (parentTrie t) (changes t) (root t).

Definition set_calculateNodesOnce (b : bool) (t : trieView) : trieView :=
  mkView (nodesAlreadyCalculated t) b (invalidated t)
         (parentTrie t) (changes t) (root t).

Definition set_changes (c : changeSummary) (t : trieView) : trieView :=
  mkView (nodesAlreadyCalculated t) (calculateNodesOnce t) (invalidated t)
         (parentTrie t) c (root t).

Definition set_root (n : node) (t : trieView) : trieView :=
  mkView (nodesAlreadyCalculated t) (calculateNodesOnce t) (invalidated t)
         (parentTrie t) (changes t) n.

Definition set_values (v : gmap Key (change (Maybe bytes))) (t : trieView) : trieView :=
  set_changes (mkChanges v (nodes (changes t)) (rootID (changes t))) t.

Definition set_nodes (n : gmap Key (change (option node))) (t : trieView) : trieView :=
  set_changes (mkChanges (values (changes t)) n (rootID (changes t))) t.

Definition set_rootID (i : ID) (t : trieView) : trieView :=
  set_changes (mkChanges (values (changes t)) (nodes (changes t)) i) t.

(** ** Methods: state passing with errors

    A method of a view takes the view and returns its result and the view
    as it left it; what it wrote before failing stays written. *)
Definition StateM (S A : Type) : Type := S -> result A * S.

Definition ret {S A} (a : A) : StateM S A := fun t => (Ok a, t).
Definition fail {S A} (e : error) : StateM S A := fun t => (Err e, t).
Definition bind {S A B} (m : StateM S A) (k : A -> StateM S B) : StateM S B :=
  fun t => match m t with
           | (Ok a, t') => k a t'
           | (Err e, t') => (Err e, t')
           end.
Definition get {S} : StateM S S := fun t => (Ok t, t).
Definition modify {S} (f : S -> S) : StateM S unit := fun t => (Ok tt, f t).

Notation "x <- c ;; k" := (bind c (fun x => k))
  (at level 100, c at next level, right associativity).
Notation "c ;; k" := (bind c (fun _ => k))
  (at level 100, right associativity).

(** Methods of [*trieView]. *)
Abbreviation M := (StateM trieView).

(** [t.isInvalid()] *)
Definition isInvalid : M bool := fun t => (Ok (invalidated t), t).

(** A call into [t.getParentTrie()]: its result, and the view invalidated
    if an ancestor changed meanwhile. *)
Definition callParent {A} (f : TrieView -> result A * bool) : M A :=
  fun t => let '(r, raced) := f (parentTrie t) in
           (r, set_invalidated (invalidated t || raced) t).

Definition parent_getValue (key : Key) : M (Maybe bytes) :=
  callParent (fun p => tv_getValue p key).

Definition parent_getEditableNode (key : Key) (hadValue : bool) : M node :=
  callParent (fun p => tv_getEditableNode p key hadValue).

(** [trieView.getValue] *)
Definition getValue (key : Key) : M (Maybe bytes) :=
  inv <- isInvalid ;;
  if inv then fail ErrInvalid else
  t <- get ;;
  match values (changes t) !! key with
  | Some change => ret (after change)
  | None =>
      (* no local copy of the key: grab it from the parent trie *)
      value <- parent_getValue key ;;
      (* ensure no ancestor changes occurred during execution *)
      inv <- isInvalid ;;
      if inv then fail ErrInvalid else ret value
  end.

(** [trieView.recordValueChange] *)
Definition recordValueChange (key : Key) (value : Maybe bytes) : M unit :=
  t <- get ;;
  if nodesAlreadyCalculated t then fail ErrNodesAlreadyCalculated else
  match values (changes t) !! key with
  | Some existing =>
      modify (set_values (<[key := mkChange (before existing) value]> (values (changes t))))
  | None =>
      before <- parent_getValue key ;;
      modify (fun t => set_values (<[key := mkChange before value]> (values (changes t))) t)
  end.

(** [trieView.recordKeyChange] *)
Definition recordKeyChange (key : Key) (after : option node) (newNode : bool) : M unit :=
  t <- get ;;
  if nodesAlreadyCalculated t then fail ErrNodesAlreadyCalculated else
  match nodes (changes t) !! key with
  | Some existing =>
      modify (set_nodes (<[key := mkChange (before existing) after]> (nodes (changes t))))
  | None =>
      if newNode then
        modify (set_nodes (<[key := mkChange None after]> (nodes (changes t))))
      else
        val <- parent_getValue key ;;
        fun t =>
          match parent_getEditableNode key (bool_decide (val ≠ None)) t with
          | (Ok before, t') =>
              (Ok tt, set_nodes (<[key := mkChange (Some before) after]> (nodes (changes t'))) t')
          | (Err e, t') =>
              if decide (e = ErrNotFound)
              then (Ok tt, set_nodes (<[key := mkChange None after]> (nodes (changes t'))) t')
              else (Err e, t')
          end
  end.

Definition recordNewNode (key : Key) (after : node) : M unit :=
  recordKeyChange key (Some after) true.

Definition recordNodeChange (key : Key) (after : node) : M unit :=
  recordKeyChange key (Some after) false.

(** [trieView.recordNodeDeleted] *)
Definition recordNodeDeleted (key : Key) (after : node) : M unit :=
  (* don't delete the root. *)
  if decide (length key = 0) then recordKeyChange key (Some after) false
  else recordKeyChange key None false.

(** [trieView.getNode] *)
Definition getNode (key : Key) (hasValue : bool) : M node :=
  t <- get ;;
  match nodes (changes t) !! key with
  | Some nodeChange =>
      match after nodeChange with
      | None => fail ErrNotFound
      | Some n => ret n
      end
  | None => parent_getEditableNode key hasValue
  end.

(** ** Nodes are shared by pointer

    A [*node] the view writes to is the root [t.root], or the [after] of the
    entry of [t.changes.nodes] under the node's key: [visitPathToKey] hands
    every node to [recordNodeChange] before the caller touches it, [getNode]
    returns the [after] pointer of an entry, and a node is recorded under its
    own key only; [t.root] is the pointer recorded under the empty key.  A
    write through the pointer is therefore a write to the entry (and to the
    root for the empty key).  An entry whose [after] is nil holds no pointer
    and is left alone. *)
Definition storeNode (key : Key) (n : node) : M unit :=
  modify (fun t =>
    let t1 := if decide (key = emptyKey) then set_root n t else t in
    match nodes (changes t1) !! key with
    | Some c =>
        match after c with
        | Some _ => set_nodes (<[key := mkChange (before c) (Some n)]> (nodes (changes t1))) t1
        | None => t1
        end
    | None => t1
    end).

(** ** Walking to a key *)

Section Visit.
(** The variables the callback closes over (the [closestKey],
    [closestNode], ... of the callers) are threaded as [acc]. *)
Context {L : Type}.
Variable key : Key.
Variable visitNode : Key -> node -> L -> M L.

(** The loop of [visitPathToKey]: every round makes [currentKey] longer,
    so [length key] rounds are enough ([visitLoop_fuel]). *)
Fixpoint visitLoop (fuel : nat) (currentKey : Key) (currentNode : node) (acc : L) : M L :=
  (* while the entire path hasn't been matched *)
  if length currentKey <? length key then
    match fuel with
    | O => ret acc
    | S fuel' =>
        match children currentNode !! Token key (length currentKey) with
        | None => ret acc
        | Some nextChildEntry =>
            if negb (iteratedHasPrefix key (compressedKey nextChildEntry) (length currentKey + 1))
            then ret acc
            else
              (* grab the next node along the path *)
              let currentKey' :=
                Take key (length currentKey + 1 + length (compressedKey nextChildEntry)) in
              currentNode' <- getNode currentKey' (c_hasValue nextChildEntry) ;;
              acc' <- visitNode currentKey' currentNode' acc ;;
              visitLoop fuel' currentKey' currentNode' acc'
        end
    end
  else ret acc.

(** [trieView.visitPathToKey] *)
Definition visitPathToKey (acc : L) : M L :=
  t <- get ;;
  (* all node paths start at the root *)
  let currentNode := root t in
  let currentKey := emptyKey in
  acc' <- visitNode currentKey currentNode acc ;;
  visitLoop (length key) currentKey currentNode acc'.
End Visit.

(** ** Path compression and removal *)

(** [trieView.compressNodePath]; a nil [parent] is [None]. *)
Definition compressNodePath (parent : option node) (parentKey : Key)
    (node_ : node) (nodeKey : Key) : M unit :=
  t <- get ;;
  if nodesAlreadyCalculated t then fail ErrNodesAlreadyCalculated else
  val <- getValue nodeKey ;;
  (* don't collapse into this node if it's the root, doesn't have 1 child, or has a value *)
  match parent, map_to_list (children node_), val with
  | Some parent, [(index, entry)], None =>
      recordNodeDeleted nodeKey node_ ;;
      (* there is only one child: the loop over the children runs once *)
      let childKey := Extend nodeKey index (compressedKey entry) in
      let childEntry := entry in
      let parent' :=
        setChildEntry (Token childKey (length parentKey))
          {| compressedKey := Skip childKey (length parentKey + 1);
             c_id := c_id childEntry;
             c_hasValue := c_hasValue childEntry |} parent in
      storeNode parentKey parent' ;;
      recordNodeChange parentKey parent'
  | _, _, _ => ret tt
  end.

(** The variables of [remove] that its walk sets. *)
Record removeVars := mkRemoveVars {
  grandParentKey : Key;
  parentKey : Key;
  nodeToDeleteKey : Key;
  grandParent : option node;
  parent : option node;
  nodeToDelete : option node;
}.

Definition removeVars0 : removeVars :=
  mkRemoveVars emptyKey emptyKey emptyKey None None None.

Definition remove_visit (key : Key) (n : node) (v : removeVars) : M removeVars :=
  recordNodeChange key n ;;
  ret (mkRemoveVars (parentKey v) (nodeToDeleteKey v) key
                    (parent v) (nodeToDelete v) (Some n)).

(** [trieView.remove] *)
Definition remove (key : Key) : M unit :=
  t <- get ;;
  if nodesAlreadyCalculated t then fail ErrNodesAlreadyCalculated else
  recordValueChange key None ;;
  t <- get ;;
  match values (changes t) !! key with
  | None => ret tt
  | Some val =>
      if bool_decide (before val = None) || bool_decide (after val ≠ None) then ret tt else
      (* mark all ancestor for change, grab parent and grandparent nodes *)
      v <- visitPathToKey key remove_visit removeVars0 ;;
      match nodeToDelete v with
      | None => ret tt (* the walk always visits the root *)
      | Some nodeToDelete =>
          let nodeToDelete := setValue None nodeToDelete in
          storeNode (nodeToDeleteKey v) nodeToDelete ;;
          if negb (bool_decide (size (children nodeToDelete) = 0)) then
            (* merge this node and its child into a single node if possible *)
            compressNodePath (parent v) (parentKey v) nodeToDelete (nodeToDeleteKey v)
          else
            (* the removed node has no children: it can be removed from the trie *)
            recordNodeDeleted (nodeToDeleteKey v) nodeToDelete ;;
            match parent v with
            | Some parent =>
                let parent :=
                  deleteChildEntry (Token (nodeToDeleteKey v) (length (parentKey v))) parent in
                storeNode (parentKey v) parent ;;
                (* merge the parent node and its child into a single node if possible *)
                compressNodePath (grandParent v) (grandParentKey v) parent (parentKey v)
            | None => ret tt
            end
      end
  end.

(** ** Insertion *)

(** The loop of [getLengthOfCommonPrefix]; [length first] rounds are
    enough, as [commonIndex] stays below [first.length]. *)
Fixpoint commonPrefixLoop (fuel : nat) (first second : Key) (secondOffset commonIndex : nat) : nat :=
  match fuel with
  | O => commonIndex
  | S fuel' =>
      if (commonIndex <? length first) && (commonIndex + secondOffset <? length second)
         && N.eqb (Token first commonIndex) (Token second (commonIndex + secondOffset))
      then commonPrefixLoop fuel' first second secondOffset (commonIndex + 1)
      else commonIndex
  end.

Definition getLengthOfCommonPrefix (first second : Key) (secondOffset : nat) : nat :=
  commonPrefixLoop (length first) first second secondOffset 0.

Definition insert_visit (key : Key) (n : node) (_ : Key * node) : M (Key * node) :=
  recordNodeChange key n ;; ret (key, n).

(** The part of [insert] that follows the walk: [closestKey] and
    [closestNode] are what the walk has left in the variables. *)
Definition insertAt (key : Key) (value : Maybe bytes) (closestKey : Key) (closestNode : node)
    : M node :=
  (* a node with that exact key already exists so update its value *)
  if decide (closestKey = key) then
    let closestNode := setValue value closestNode in
    storeNode closestKey closestNode ;;
    ret closestNode
  else
  match children closestNode !! Token key (length closestKey) with
  | None =>
      (* there are no existing nodes along the key: create a new node *)
      let newNode := setValue value newNode in
      let closestNode :=
        setChildEntry (Token key (length closestKey))
          {| compressedKey := Skip key (length closestKey + 1);
             c_id := ids_Empty; c_hasValue := false |} closestNode in
      storeNode closestKey closestNode ;;
      recordNewNode key newNode ;;
      ret newNode
  | Some existingChildEntry =>
      let commonPrefixLength :=
        getLengthOfCommonPrefix (compressedKey existingChildEntry) key (length closestKey + 1) in
      if length (compressedKey existingChildEntry) <=? commonPrefixLength then
        fail ErrGetPathToFailure
      else
      let branchNode := newNode in
      let branchKey := Take key (length closestKey + 1 + commonPrefixLength) in
      let closestNode :=
        setChildEntry (Token branchKey (length closestKey))
          {| compressedKey := Skip branchKey (length closestKey + 1);
             c_id := ids_Empty; c_hasValue := false |} closestNode in
      storeNode closestKey closestNode ;;
      (* add the existing child onto the branch node *)
      let addExisting (branchNode : node) :=
        setChildEntry (Token (compressedKey existingChildEntry) commonPrefixLength)
          {| compressedKey := Skip (compressedKey existingChildEntry) (commonPrefixLength + 1);
             c_id := c_id existingChildEntry;
             c_hasValue := c_hasValue existingChildEntry |} branchNode in
      if decide (length key = length branchKey) then
        (* the branch node has exactly the key to be inserted as its key *)
        let branchNode := addExisting (setValue value branchNode) in
        recordNewNode branchKey branchNode ;;
        ret branchNode
      else
        (* the key to be inserted is a child of the branch node *)
        let newNode := setValue value newNode in
        let branchNode :=
          setChildEntry (Token key (length branchKey))
            {| compressedKey := Skip key (length branchKey + 1);
               c_id := ids_Empty; c_hasValue := false |} branchNode in
        recordNewNode key newNode ;;
        let branchNode := addExisting branchNode in
        recordNewNode branchKey branchNode ;;
        ret newNode
  end.

(** [trieView.insert] *)
Definition insert (key : Key) (value : Maybe bytes) : M node :=
  t <- get ;;
  if nodesAlreadyCalculated t then fail ErrNodesAlreadyCalculated else
  recordValueChange key value ;;
  closest <- visitPathToKey key insert_visit (emptyKey, newNode) ;;
  insertAt key value closest.1 closest.2.

(** ** Proofs *)

Record ProofNode := mkProofNode {
  pn_Key : Key;
  pn_Children : gmap token ID;
  pn_ValueOrHash : Maybe bytes;
}.

Record Proof := mkProof {
  pf_Key : Key;
  pf_Value : Maybe bytes;
  pf_Path : list ProofNode;
}.

Record KeyValue := mkKeyValue {
  kv_Key : bytes;
  kv_Value : bytes;
}.

Record RangeProof := mkRangeProof {
  StartProof : list ProofNode;
  EndProof : list ProofNode;
  KeyValues : list KeyValue;
}.

(** Monadic left fold: a Go [for ... range] whose body may fail. *)
Fixpoint foldM {S A B} (f : B -> A -> StateM S B) (l : list A) (b : B) : StateM S B :=
  match l with
  | [] => ret b
  | a :: l' => b' <- f b a ;; foldM f l' b'
  end.

Section View.
(** External to the view: the hash, the codec's hash input, the packing
    of bytes into tokens and the view's iterator. *)
Variable ComputeHash256 : bytes -> bytes.
Variable encodeHashValues : Key -> node -> Maybe bytes -> bytes.
Variable ToKey : bytes -> Key.

(** Modelled from the spec: [NewIteratorWithStart] (the iterator is not
    part of the sources at hand), "an in-order iterator from [start]
    (inclusive)".  It is given by the pairs successive calls of [Next]
    deliver, and the error [Error] reports once they are used up. *)
Variable NewIteratorWithStart : trieView -> bytes -> list KeyValue * option error.

(** [node.asProofNode] *)
Definition asProofNode (n : node) (key : Key) (value : Maybe bytes) : ProofNode :=
  {| pn_Key := key;
     pn_Children := c_id <$> children n;
     pn_ValueOrHash := getValueDigest ComputeHash256 value |}.

(** [node.calculateID] *)
Definition calculateID (n : node) (key : Key) (value : Maybe bytes) : ID :=
  ComputeHash256 (encodeHashValues key n value).

Record nodeInfo := mkNodeInfo {
  ni_key : Key;
  ni_id : ID;
  ni_hasValue : bool;
}.

(** [trieView.calculateNodeIDsHelper].  The children are taken one after
    the other: the goroutines of the source write to different nodes.  A
    child's key is longer than its parent's, [fuel] bounds the depth. *)
Fixpoint calculateNodeIDsHelper (fuel : nat) (key : Key) (n : node) (val : Maybe bytes) : M ID :=
  match fuel with
  | O => fail OutOfFuel
  | S fuel' =>
      updatedChildren <-
        foldM (fun (updatedChildren : list nodeInfo) '(childIndex, child) =>
          let childKey := Extend key childIndex (compressedKey child) in
          t <- get ;;
          match nodes (changes t) !! childKey with
          | None => ret updatedChildren (* this child wasn't changed *)
          | Some childNodeChange =>
              getValue childKey ;;
              match after childNodeChange with
              | None => fail GoPanic
              | Some childNode =>
                  id <- calculateNodeIDsHelper fuel' childKey childNode (value childNode) ;;
                  ret (updatedChildren ++
                       [mkNodeInfo childKey id (bool_decide (value childNode ≠ None))])
              end
          end) (map_to_list (children n)) [] ;;
      let n :=
        foldl (fun (n : node) updatedChild =>
          let index := Token (ni_key updatedChild) (length key) in
          setChildEntry index
            {| compressedKey := from_option compressedKey emptyKey (children n !! index);
               c_id := ni_id updatedChild;
               c_hasValue := ni_hasValue updatedChild |} n) n updatedChildren in
      storeNode key n ;;
      (* the IDs of [n]'s descendants are up to date *)
      ret (calculateID n key (value n))
  end.

(** [t.changes.rootID, err = ...]: the ID is assigned, the empty ID on
    an error. *)
Definition assignRootID (m : M ID) : M unit :=
  fun t => match m t with
           | (Ok id, t') => (Ok tt, set_rootID id t')
           | (Err e, t') => (Err e, set_rootID ids_Empty t')
           end.

(** [trieView.calculateNodeIDs].  Go ranges over [t.changes.values] in an
    order of its choosing: [order] lists the keys as this run meets them. *)
Definition calculateNodeIDs (order : list Key) : M unit :=
  t <- get ;;
  if calculateNodesOnce t then ret tt else
  modify (set_calculateNodesOnce true) ;;
  if invalidated t then fail ErrInvalid else
  fun t =>
    let body : M unit :=
      (* add all the changed key/values to the nodes of the trie *)
      foldM (fun (_ : unit) key =>
        t <- get ;;
        match values (changes t) !! key with
        | None => ret tt
        | Some change =>
            match after change with
            | None => remove key
            | Some _ => insert key (after change) ;; ret tt
            end
        end) order tt ;;
      getValue emptyKey ;;
      t <- get ;;
      assignRootID
        (calculateNodeIDsHelper (S (size (nodes (changes t)))) emptyKey (root t) (value (root t))) ;;
      (* ensure no ancestor changes occurred during execution *)
      inv <- isInvalid ;;
      if inv then fail ErrInvalid else ret tt in
    (* defer t.nodesAlreadyCalculated.Set(true) *)
    let '(r, t') := body t in (r, set_nodesAlreadyCalculated true t').

(** The variables the walk of [getProof] sets. *)
Definition getProof_visit (key : Key) (n : node) (acc : Key * node * list ProofNode)
    : M (Key * node * list ProofNode) :=
  getValue key ;;
  ret (key, n, acc.2 ++ [asProofNode n key (value n)]).

(** [trieView.getProof] *)
Definition getProof (key : bytes) : M Proof :=
  let proofKey := ToKey key in
  val <- getValue proofKey ;;
  acc <- visitPathToKey proofKey getProof_visit (emptyKey, newNode, []) ;;
  let '(closestKey, closestNode, path) := acc in
  let proof := {| pf_Key := proofKey; pf_Value := val; pf_Path := path |} in
  if decide (closestKey = proofKey) then ret proof else
  (* there is no node with the given key: if there is a child at the index
     where the node would be, include that child in the proof *)
  let nextIndex := Token proofKey (length closestKey) in
  match children closestNode !! nextIndex with
  | None => ret proof
  | Some child =>
      let childKey := Extend closestKey nextIndex (compressedKey child) in
      childNode <- getNode childKey (c_hasValue child) ;;
      getValue childKey ;;
      let proof :=
        {| pf_Key := proofKey; pf_Value := val;
           pf_Path := path ++ [asProofNode childNode childKey (value childNode)] |} in
      inv <- isInvalid ;;
      if inv then fail ErrInvalid else ret proof
  end.

(** Modelled from the spec: [rootKey], the bytes of the root's key. *)
Definition rootKey : bytes := [].

(** The loop of [GetRangeProof] over the iterator: the pairs collected,
    and the iterator's error if [Next] ran into it. *)
Fixpoint collectKeyValues (items : list KeyValue) (itErr : option error)
    (end_ : Maybe bytes) (maxLength : Z) (acc : list KeyValue) : list KeyValue * option error :=
  match items with
  | [] => (acc, itErr)
  | kv :: items' =>
      if bool_decide (Z.of_nat (length acc) < maxLength)%Z
         && match end_ with
            | None => true
            | Some e => bool_decide (bytes_Compare (kv_Key kv) e ≠ Gt)
            end
      then collectKeyValues items' itErr end_ maxLength (acc ++ [kv])
      else (acc, None)
  end.

(** The number of leading proof nodes two paths share by key. *)
Fixpoint commonNodes (startProof endProof : list ProofNode) : nat :=
  match startProof, endProof with
  | s :: startProof', e :: endProof' =>
      if decide (pn_Key s = pn_Key e) then S (commonNodes startProof' endProof') else 0
  | _, _ => 0
  end.

(** [trieView.GetRangeProof] *)
Definition GetRangeProof (order : list Key) (start end_ : Maybe bytes) (maxLength : Z)
    : M RangeProof :=
  if match start, end_ with
     | Some s, Some e => bool_decide (bytes_Compare s e = Gt)
     | _, _ => false
     end
  then fail ErrStartAfterEnd else
  if bool_decide (maxLength <= 0)%Z
  then fail (Errorf_but_was ErrInvalidMaxLength maxLength) else
  calculateNodeIDs order ;;
  t <- get ;;
  let '(items, itErr) := NewIteratorWithStart t (default [] start) in
  let '(keyValues, itErr) := collectKeyValues items itErr end_ maxLength [] in
  match itErr with
  | Some e => fail e
  | None =>
      (* the end proof is for the last key-value pair in the proof *)
      endProof <-
        match last keyValues, end_ with
        | Some greatest, _ => p <- getProof (kv_Key greatest) ;; ret (pf_Path p)
        | None, Some e => p <- getProof e ;; ret (pf_Path p)
        | None, None => ret []
        end ;;
      startProof <-
        match start with
        | Some s =>
            p <- getProof s ;;
            (* strip out any common nodes to reduce proof size *)
            ret (drop (commonNodes (pf_Path p) endProof) (pf_Path p))
        | None => ret []
        end ;;
      endProof <-
        (if bool_decide (length startProof = 0) && bool_decide (length endProof = 0)
            && bool_decide (length keyValues = 0)
         then (* the range is empty: return the root proof *)
           p <- getProof rootKey ;; ret (pf_Path p)
         else ret endProof) ;;
      inv <- isInvalid ;;
      if inv then fail ErrInvalid else
      ret {| StartProof := startProof; EndProof := endProof; KeyValues := keyValues |}
  end.
End View.

(** ** Creating a view *)

(** [database.BatchOp] and [ViewChanges]; the entries of [MapOps] in the
    order Go ranges over them.  [ConsumeBytes] only decides whether the
    bytes are copied. *)
Record BatchOp := mkBatchOp {
  bo_Key : bytes;
  bo_Value : bytes;
  bo_Delete : bool;
}.

Record ViewChanges := mkViewChanges {
  BatchOps : list BatchOp;
  MapOps : list (bytes * Maybe bytes);
}.

(** [newTrieView]; [toKey] packs bytes into tokens. *)
Definition newTrieView (toKey : bytes -> Key) (parentTrie : TrieView) (changes : ViewChanges)
    : result trieView :=
  match (tv_getEditableNode parentTrie emptyKey false).1 with
  | Err e => if decide (e = ErrNotFound) then Err ErrNoValidRoot else Err e
  | Ok root =>
      let newView :=
        {| nodesAlreadyCalculated := false; calculateNodesOnce := false;
           invalidated := false; parentTrie := parentTrie;
           changes := newChangeSummary; root := root |} in
      let record : M unit :=
        foldM (fun (_ : unit) op =>
                 let newVal := if bo_Delete op then None else Some (bo_Value op) in
                 recordValueChange (toKey (bo_Key op)) newVal) (BatchOps changes) tt ;;
        foldM (fun (_ : unit) '(key, val) =>
                 recordValueChange (toKey key) val) (MapOps changes) tt in
      match record newView with
      | (Ok _, newView) => Ok newView
      | (Err e, _) => Err e
      end
  end.

(** ** stateless.go: the path compression of the stateless view *)

Module Stateless.

(** Modelled from the spec: the [Node] of the stateless view with its
    child entries and the methods [hasValue], [addChild] and
    [getSingleChildPath] (their file is not part of the sources at hand).
    A node knows its key and its ID; a child entry holds the compressed
    path and the child's ID; [addChild] installs the entry for a child
    under the first token of the child's key past the node's own key. *)
Record pathChild := mkPathChild {
  compressedPath : Key;
  pc_id : ID;
}.

Record Node := mkNode {
  n_key : Key;
  n_id : ID;
  n_value : Maybe bytes;
  n_children : gmap token pathChild;
}.

Definition hasValue (n : Node) : bool := bool_decide (n_value n ≠ None).

Definition addChild (child : Node) (n : Node) : Node :=
  {| n_key := n_key n; n_id := n_id n; n_value := n_value n;
     n_children :=
       <[Token (n_key child) (length (n_key n)) :=
           {| compressedPath := Skip (n_key child) (length (n_key n) + 1);
              pc_id := n_id child |}]> (n_children n) |}.

Definition getSingleChildPath (n : Node) : Key :=
  match map_to_list (n_children n) with
  | (index, entry) :: _ => Extend (n_key n) index (compressedPath entry)
  | [] => []
  end.

Definition RootPath : Key := [].

(** [statelessView]: [getEditableNode] of [getParentTrie()], the node
    changes, the root and [needsRecalculation]; the value changes play no
    part in the path compression. *)
Record statelessView := mkView {
  parent_getEditableNode : Key -> result Node;
  nodes : gmap Key (change (option Node));
  root : Node;
  needsRecalculation : bool;
}.

Definition set_nodes (m : gmap Key (change (option Node))) (t : statelessView) :=
  mkView (parent_getEditableNode t) m (root t) (needsRecalculation t).
Definition set_root (n : Node) (t : statelessView) :=
  mkView (parent_getEditableNode t) (nodes t) n (needsRecalculation t).
Definition set_needsRecalculation (b : bool) (t : statelessView) :=
  mkView (parent_getEditableNode t) (nodes t) (root t) b.

Abbreviation M := (StateM statelessView).

(** A write through a [*Node]: see [storeNode] above. *)
Definition storeNode (n : Node) : M unit :=
  modify (fun t =>
    let t1 := if decide (n_key n = RootPath) then set_root n t else t in
    match nodes t1 !! n_key n with
    | Some c =>
        match after c with
        | Some _ => set_nodes (<[n_key n := mkChange (before c) (Some n)]> (nodes t1)) t1
        | None => t1
        end
    | None => t1
    end).

(** [statelessView.recordKeyChange] *)
Definition recordKeyChange (key : Key) (after : option Node) : M unit :=
  modify (set_needsRecalculation true) ;;
  t <- get ;;
  match nodes t !! key with
  | Some existing => modify (set_nodes (<[key := mkChange (before existing) after]> (nodes t)))
  | None =>
      if decide (key = RootPath) then
        modify (set_nodes (<[key := mkChange (Some (root t)) after]> (nodes t)))
      else
        match parent_getEditableNode t key with
        | Ok before => modify (set_nodes (<[key := mkChange (Some before) after]> (nodes t)))
        | Err e =>
            if decide (e = ErrNotFound)
            then modify (set_nodes (<[key := mkChange None after]> (nodes t)))
            else fail e
        end
  end.

Definition recordNodeChange (after : Node) : M unit :=
  recordKeyChange (n_key after) (Some after).

(** [statelessView.recordNodeDeleted] *)
Definition recordNodeDeleted (after : Node) : M unit :=
  (* don't delete the root. *)
  if decide (length (n_key after) = 0) then recordKeyChange (n_key after) (Some after)
  else recordKeyChange (n_key after) None.

(** [statelessView.getNodeWithID] *)
Definition getNodeWithID (id : ID) (key : Key) : M Node :=
  t <- get ;;
  match nodes t !! key with
  | Some nodeChange =>
      match after nodeChange with
      | None => fail ErrNotFound
      | Some n => ret n
      end
  | None =>
      parentTrieNode <-
        (if decide (key = RootPath) then ret (root t)
         else fun t => (parent_getEditableNode t key, t)) ;;
      (* only need to initialize the id if it's from the parent trie *)
      if decide (id ≠ ids_Empty)
      then ret {| n_key := n_key parentTrieNode; n_id := id;
                  n_value := n_value parentTrieNode;
                  n_children := n_children parentTrieNode |}
      else ret parentTrieNode
  end.

(** [statelessView.getNodeFromParent] *)
Definition getNodeFromParent (parent : Node) (key : Key) : M Node :=
  match n_children parent !! Token key (length (n_key parent)) with
  | Some child => getNodeWithID (pc_id child) key
  | None => fail ErrNotFound
  end.

(** The loop of [compressNodePath]: delete all empty nodes with a single
    child under [node]; [fuel] bounds the rounds. *)
Fixpoint compressLoop (fuel : nat) (node_ : Node) : M Node :=
  if bool_decide (size (n_children node_) = 1) && negb (hasValue node_) then
    match fuel with
    | O => fail OutOfFuel
    | S fuel' =>
        recordNodeDeleted node_ ;;
        nextNode <- getNodeFromParent node_ (getSingleChildPath node_) ;;
        compressLoop fuel' nextNode
    end
  else ret node_.

(** [statelessView.compressNodePath] *)
Definition compressNodePath (fuel : nat) (parent node_ : Node) : M unit :=
  (* don't collapse into this node if it doesn't have 1 child, or has a value *)
  if negb (bool_decide (size (n_children node_) = 1)) || hasValue node_ then ret tt else
  node_ <- compressLoop fuel node_ ;;
  (* [node] is the first node with multiple children: combine it with [parent] *)
  let parent := addChild node_ parent in
  storeNode parent ;;
  recordNodeChange parent.

End Stateless.


(** * Specifications and test data *)

(** [start > end] with both present. *)
Definition startAfterEnd (start end_ : Maybe bytes) : Prop :=
  exists s e, start = Some s /\ end_ = Some e /\ bytes_Compare s e = Gt.

(** ** Tries to run the code on *)

(** A committed trie as the parent of a view: it answers from a map of its
    nodes and no ancestor interferes. *)
Definition dbTrie (m : gmap Key node) : TrieView :=
  {| tv_getValue k := (Ok (m !! k ≫= value), false);
     tv_getEditableNode k _ :=
       (match m !! k with Some n => Ok n | None => Err ErrNotFound end, false) |}.

(** A parent that fails every call with [e] while an ancestor invalidates
    the view. *)
Definition racingTrie (e : error) : TrieView :=
  {| tv_getValue _ := (Err e, true);
     tv_getEditableNode _ _ := (Err e, true) |}.

(** A fresh view on [parent] with the root [n]. *)
Definition freshView (parent : TrieView) (n : node) : trieView :=
  {| nodesAlreadyCalculated := false; calculateNodesOnce := false;
     invalidated := false; parentTrie := parent;
     changes := newChangeSummary; root := n |}.

Definition leaf (v : bytes) : node := {| value := Some v; children := ∅ |}.
Definition entry (ck : Key) (hv : bool) : child :=
  {| compressedKey := ck; c_id := ids_Empty; c_hasValue := hv |}.


(** ** Statements about methods *)

(** From a view that satisfies [P], the method [m] ends with a result and
    a view that satisfy [Q] (it always ends: a method is a function). *)
Definition hoare {S A} (P : S -> Prop) (m : StateM S A) (Q : result A -> S -> Prop) : Prop :=
  forall t, P t -> Q (m t).1 (m t).2.

(** The parent trie does not itself fail with [ErrGetPathToFailure]: only
    [insert] makes that error. *)
Definition parentNeverGetPathToFailure (p : TrieView) : Prop :=
  (forall k, (tv_getValue p k).1 <> Err ErrGetPathToFailure) /\
  (forall k b, (tv_getEditableNode p k b).1 <> Err ErrGetPathToFailure).

(** The length of the longest common prefix of two keys, in the words of
    the specification. *)
Fixpoint commonPrefixLen (a b : Key) : nat :=
  match a, b with
  | x :: a', y :: b' => if N.eqb x y then S (commonPrefixLen a' b') else 0
  | _, _ => 0
  end.

(** Where the walk to [key] stops: at a node whose key is a prefix of
    [key] and from which the loop of [visitPathToKey] does not go on. *)
Definition walkStopped (key closestKey : Key) (closestNode : node) : Prop :=
  closestKey = take (length closestKey) key /\
  (length key <= length closestKey \/
   children closestNode !! Token key (length closestKey) = None \/
   exists e, children closestNode !! Token key (length closestKey) = Some e /\
             iteratedHasPrefix key (compressedKey e) (length closestKey + 1) = false).

(** The branch of [insert] that fails with [ErrGetPathToFailure]: the walk
    has stopped short of [key] at [closestKey], there is a child at the first
    differing token, and its compressed key is no longer than its common
    prefix with the rest of [key]. *)
Definition getPathToFailureCase (key closestKey : Key) (closestNode : node) : Prop :=
  closestKey <> key /\
  exists e, children closestNode !! Token key (length closestKey) = Some e /\
            length (compressedKey e)
            <= commonPrefixLen (compressedKey e) (Skip key (length closestKey + 1)).

(** A sequence of insertions and removals applied to a view, whether each
    of them succeeds or fails. *)
Inductive op :=
  | opInsert (key : Key) (value : bytes)
  | opRemove (key : Key).

Definition applyOp (o : op) : M unit :=
  match o with
  | opInsert key value => insert key (Some value) ;; ret tt
  | opRemove key => remove key
  end.

Definition applyOps (ops : list op) (t : trieView) : trieView :=
  foldl (fun t o => (applyOp o t).2) t ops.

(** The change set does not map the root key to a nil node. *)
Definition rootNeverNil (t : trieView) : Prop :=
  forall c, nodes (changes t) !! emptyKey = Some c -> after c <> None.

(** A method keeps the parent and does not fail with
    [ErrGetPathToFailure], the parent not doing so. *)
Definition okParent (t : trieView) : Prop :=
  parentNeverGetPathToFailure (parentTrie t).

Definition gpfSafe {A} (m : M A) : Prop :=
  hoare okParent m (fun r t => okParent t /\ r <> Err ErrGetPathToFailure).

(** The trie with the keys [a], [ab], [abc] and [abd] (tokens of eight
    bits: [a] is 1, [b] is 2, [c] is 3, [d] is 4), each with a value. *)
Definition exampleRoot : node :=
  {| value := None; children := {[ 1%N := entry [] true ]} |}.

Definition exampleTrie : gmap Key node :=
  list_to_map
    [ ([], exampleRoot);
      ([1%N], {| value := Some [x0a]; children := {[ 2%N := entry [] true ]} |});
      ([1%N; 2%N],
       {| value := Some [x0b];
          children := <[3%N := entry [] true]> {[ 4%N := entry [] true ]} |});
      ([1%N; 2%N; 3%N], leaf [x0c]);
      ([1%N; 2%N; 4%N], leaf [x0d]) ].

(** One token per byte. *)
Definition byteTokens (b : bytes) : Key := Byte.to_N <$> b.

(** The view that deletes [abc] and [ab] from [exampleTrie]. *)
Definition deleteTwo : ViewChanges :=
  {| BatchOps := [mkBatchOp [x01; x02; x03] [] true; mkBatchOp [x01; x02] [] true];
     MapOps := [] |}.

(** Every node of a trie but the root has a value or does not have
    exactly one child; for a view, the nodes its change set holds. *)
Definition compressed (n : node) : Prop :=
  size (children n) <> 1 \/ hasValue n = true.

Global Instance compressed_dec n : Decision (compressed n).
Proof. unfold compressed. apply _. Defined.

(** An entry of the change set is fine: it is the root's, or it holds no
    node, or a compressed one. *)
Definition compressedEntry (key : Key) (c : change (option node)) : Prop :=
  key <> emptyKey -> match after c with Some n => compressed n | None => True end.

Global Instance compressedEntry_dec key c : Decision (compressedEntry key c).
Proof. unfold compressedEntry. destruct (after c); apply _. Defined.

Definition compressionInvariant (t : trieView) : Prop :=
  map_Forall compressedEntry (nodes (changes t)).

Global Instance compressionInvariant_dec t : Decision (compressionInvariant t).
Proof. unfold compressionInvariant. apply _. Defined.

(** The node the change set of a view holds under [key]. *)
Definition nodeAt (t : trieView) (key : Key) : option node :=
  nodes (changes t) !! key ≫= after.

(** The method [m] keeps the invariant [I], whether it succeeds or fails. *)
Definition preserves {S A} (I : S -> Prop) (m : StateM S A) : Prop :=
  hoare I m (fun _ t => I t).

(** [t'] is [t], or [t] invalidated. *)
Definition invalidatedFrom (t t' : trieView) : Prop :=
  exists b, t' = set_invalidated (invalidated t || b) t.

(** The order of the keys of an iterator: strictly ascending. *)
Definition keyLt (a b : KeyValue) : Prop :=
  bytes_Compare (kv_Key a) (kv_Key b) = Lt.

(** A key is within the bounds asked for. *)
Definition fromStart (start : Maybe bytes) (kv : KeyValue) : Prop :=
  forall s, start = Some s -> bytes_Compare s (kv_Key kv) <> Gt.

Definition upToEnd (end_ : Maybe bytes) (kv : KeyValue) : Prop :=
  forall e, end_ = Some e -> bytes_Compare (kv_Key kv) e <> Gt.

(** The trie with the keys [a], [b] and [c] (one token each) and an
    iterator over its pairs. *)
Definition abcRoot : node :=
  {| value := None;
     children := <[1%N := entry [] true]> (<[2%N := entry [] true]> {[ 3%N := entry [] true ]}) |}.

Definition abcTrie : gmap Key node :=
  list_to_map [ ([], abcRoot); ([1%N], leaf [x31]); ([2%N], leaf [x32]); ([3%N], leaf [x33]) ].

Definition abcPairs : list KeyValue :=
  [ mkKeyValue [x01] [x31]; mkKeyValue [x02] [x32]; mkKeyValue [x03] [x33] ].

Definition abcIterator (_ : trieView) (start : bytes) : list KeyValue * option error :=
  (filter (fun kv => bytes_Compare start (kv_Key kv) <> Gt) abcPairs, None).

(** The child entry path compression installs in the node with the key
    [parentKey] for the descendant with the key [childKey]: the token it is
    put under and its compressed key. *)
Definition compressedEdge (parentKey childKey : Key) : token * Key :=
  (Token childKey (length parentKey), Skip childKey (length parentKey + 1)).










Definition branchRoot : node :=
  {| value := None; children := {[ 1%N := entry [2%N] false ]} |}.
Definition branchAB : node :=
  {| value := None; children := {[ 4%N := entry [] true ]} |}.

Definition branchTrie : gmap Key node :=
  list_to_map [ ([], branchRoot); ([1; 2]%N, branchAB); ([1; 2; 4]%N, leaf [x0d]) ].

(** The nodes of a view along [key], from the root down to the node with
    the key [ck]: each is held by the change set (the root is [t.root]) and
    each is reached from the one before through the child entry under the
    next token of [key], as [visitPathToKey] goes. *)
Inductive pathTo (t : trieView) (key : Key) : Key -> node -> Prop :=
  | pathTo_root :
      nodeAt t emptyKey = Some (root t) ->
      pathTo t key emptyKey (root t)
  | pathTo_step ck cn e cn' :
      pathTo t key ck cn ->
      length ck < length key ->
      children cn !! Token key (length ck) = Some e ->
      iteratedHasPrefix key (compressedKey e) (length ck + 1) = true ->
      nodeAt t (Take key (length ck + 1 + length (compressedKey e))) = Some cn' ->
      pathTo t key (Take key (length ck + 1 + length (compressedKey e))) cn'.

(** * More of the view: copies, public reads, the root ID *)

(** [node.clone]: a copy of the node; the value is shared, the map of the
    children is copied. *)
Definition clone (n : node) : node :=
  {| value := value n; children := children n |}.

(** [trieView.getEditableNode] *)
Definition getEditableNode (key : Key) (hadValue : bool) : M node :=
  inv <- isInvalid ;;
  if inv then fail ErrInvalid else
  (* grab the node in question *)
  n <- getNode key hadValue ;;
  (* ensure no ancestor changes occurred during execution *)
  inv <- isInvalid ;;
  if inv then fail ErrInvalid else
  (* return a clone of the node, so it can be edited without affecting this trie *)
  ret (clone n).

(** [trieView.getValueCopy]; [slices.Clone] copies the bytes. *)
Definition getValueCopy (key : Key) : M (Maybe bytes) :=
  val <- getValue key ;;
  ret val.

Section PublicReads.
Variable ComputeHash256 : bytes -> bytes.
Variable encodeHashValues : Key -> node -> Maybe bytes -> bytes.
Variable ToKey : bytes -> Key.

(** [trieView.GetValue] *)
Definition GetValue (key : bytes) : M bytes :=
  val <- getValueCopy (ToKey key) ;;
  match val with
  | None => fail ErrNotFound
  | Some v => ret v
  end.

(** [trieView.GetValues]: the two slices it returns, a nil slice as [[]]
    and a nil error as [None].  The loop takes the keys from left to right
    and goes on after an error. *)
Fixpoint GetValues (keys : list bytes) (t : trieView)
    : (list bytes * list (option error)) * trieView :=
  match keys with
  | [] => (([], []), t)
  | key :: keys' =>
      let '(r, t1) := getValueCopy (ToKey key) t in
      let '((results, valueErrors), t2) := GetValues keys' t1 in
      match r with
      | Err err => (([] :: results, Some err :: valueErrors), t2)
      | Ok None => (([] :: results, Some ErrNotFound :: valueErrors), t2)
      | Ok (Some v) => ((v :: results, None :: valueErrors), t2)
      end
  end.

(** [trieView.GetMerkleRoot] *)
Definition GetMerkleRoot (order : list Key) : M ID :=
  calculateNodeIDs ComputeHash256 encodeHashValues order ;;
  t <- get ;;
  ret (rootID (changes t)).

(** [trieView.GetProof] *)
Definition GetProof (order : list Key) (key : bytes) : M Proof :=
  calculateNodeIDs ComputeHash256 encodeHashValues order ;;
  getProof ComputeHash256 ToKey key.
End PublicReads.

(** The body of the loop of [newHistoricalTrieView]: the batch operation
    that replays the value change of [key]; [keyBytes] is [Key.Bytes], and
    the [Value()] of Nothing is the nil slice. *)
Definition replayOp (keyBytes : Key -> bytes) (changes : changeSummary) (key : Key)
    : option BatchOp :=
  match values changes !! key with
  | Some valueChange =>
      Some {| bo_Key := keyBytes key;
              bo_Value := default [] (after valueChange);
              bo_Delete := bool_decide (after valueChange = None) |}
  | None => None
  end.

(** [newHistoricalTrieView]: a view on the database [db] that replays the
    value changes of [changes]; [order] lists the keys of [changes.values]
    as Go ranges over them. *)
Definition newHistoricalTrieView (toKey : bytes -> Key) (keyBytes : Key -> bytes)
    (db : TrieView) (order : list Key) (changes : changeSummary) : result trieView :=
  let changeOps := omap (replayOp keyBytes changes) order in
  newTrieView toKey db {| BatchOps := changeOps; MapOps := [] |}.

(** * More specifications *)

(** The writes a view is created with, in the order [newTrieView] records
    them: the batch operations, then the entries of the map. *)
Definition viewWrites (changes : ViewChanges) : list (bytes * Maybe bytes) :=
  ((fun op => (bo_Key op, if bo_Delete op then None else Some (bo_Value op)))
     <$> BatchOps changes) ++ MapOps changes.

(** What the last write to the key [k] leaves as its value, if there is a
    write to [k] at all. *)
Definition lastWriteFrom (toKey : bytes -> Key) (k : Key) (init : option (Maybe bytes))
    (writes : list (bytes * Maybe bytes)) : option (Maybe bytes) :=
  foldl (fun acc w => if decide (toKey w.1 = k) then Some w.2 else acc) init writes.

Definition lastWrite (toKey : bytes -> Key) (writes : list (bytes * Maybe bytes)) (k : Key)
    : option (Maybe bytes) :=
  lastWriteFrom toKey k None writes.

(** One value change recorded after the other, as the loops of
    [newTrieView] do. *)
Definition recordAll (toKey : bytes -> Key) (writes : list (bytes * Maybe bytes)) : M unit :=
  foldM (fun (_ : unit) w => recordValueChange (toKey w.1) w.2) writes tt.

(** [t'] is [t] but for the fields the walk of a read does not write:
    nothing is left but [invalidated]. *)
Definition sameButInvalidated (t t' : trieView) : Prop :=
  changes t' = changes t /\ root t' = root t /\ parentTrie t' = parentTrie t /\
  nodesAlreadyCalculated t' = nodesAlreadyCalculated t /\
  calculateNodesOnce t' = calculateNodesOnce t /\
  (invalidated t = true -> invalidated t' = true).

(** [pre] is a prefix of [k]. *)
Definition isPrefix (pre k : Key) : Prop := pre = take (length pre) k.

(** The keys of a path grow: every node lies deeper than the one before. *)
Definition deeper (a b : ProofNode) : Prop := length (pn_Key a) < length (pn_Key b).

(** What the walk of [getProof] keeps: the path ends with the node the
    walk is at, every node of it lies on the way to [key] and no deeper than
    the walk is. *)
Definition proofWalk (key ck : Key) (path : list ProofNode) : Prop :=
  isPrefix ck key /\
  (exists q, last path = Some q /\ pn_Key q = ck) /\
  Forall (fun pn => isPrefix (pn_Key pn) key /\ length (pn_Key pn) <= length ck) path /\
  StronglySorted deeper path.


(** The value a change summary leaves for the key [k] when the keys of
    [order] are replayed: the [after] of its value change, or [init] when
    [k] is not replayed. *)
Definition replayedValue (cs : changeSummary) (order : list Key) (k : Key)
    (init : option (Maybe bytes)) : option (Maybe bytes) :=
  match (if decide (k ∈ order) then values cs !! k else None) with
  | Some c => Some (after c)
  | None => init
  end.
(** * Properties *)

Ltac unfold_monad :=
  unfold bind, ret, fail, get, modify, isInvalid, callParent in *.

Lemma set_invalidated_id t : set_invalidated (invalidated t) t = t.
Proof. by destruct t. Qed.

(** ** The digest of a value *)

(** C5: the digest of a value is the value itself when it is absent or
    shorter than 32 bytes, and the hash of the value when it has 32 bytes or
    more; a value of exactly 32 bytes is hashed.  The digest is what
    [asProofNode] puts into [ValueOrHash]. *)
Theorem getValueDigest_raw_below_32_else_hash :
  forall (ComputeHash256 : bytes -> bytes) (val : Maybe bytes),
    HashLength = 32 /\
    (val = None -> getValueDigest ComputeHash256 val = None) /\
    (forall v, val = Some v -> length v < 32 ->
       getValueDigest ComputeHash256 val = Some v) /\
    (forall v, val = Some v -> 32 <= length v ->
       getValueDigest ComputeHash256 val = Some (ComputeHash256 v)) /\
    (forall v, val = Some v -> length v = 32 ->
       getValueDigest ComputeHash256 val = Some (ComputeHash256 v)) /\
    (forall n key,
       pn_ValueOrHash (asProofNode ComputeHash256 n key val)
       = getValueDigest ComputeHash256 val).
Proof.
  intros H val. split; [reflexivity|].
  split; [by intros ->|].
  assert (Hge : forall v, val = Some v -> 32 <= length v ->
                getValueDigest H val = Some (H v)).
  { intros v -> Hlen. unfold getValueDigest, HashLength.
    destruct (Nat.ltb_spec (length v) 32); [lia | done]. }
  repeat split.
  - intros v -> Hlen. unfold getValueDigest, HashLength.
    destruct (Nat.ltb_spec (length v) 32); [done | lia].
  - exact Hge.
  - intros v Hv Hlen. apply Hge; [done | lia].
Qed.

Lemma getValueDigest_raw_below_32_else_hash_witness :
  getValueDigest (fun _ => replicate 32 xff) (Some (replicate 31 x01))
    = Some (replicate 31 x01) /\
  getValueDigest (fun _ => replicate 32 xff) (Some (replicate 32 x01))
    = Some (replicate 32 xff).
Proof.
  pose proof (getValueDigest_raw_below_32_else_hash
                (fun _ => replicate 32 xff) (Some (replicate 31 x01)))
    as (_ & _ & Hlt & _).
  pose proof (getValueDigest_raw_below_32_else_hash
                (fun _ => replicate 32 xff) (Some (replicate 32 x01)))
    as (_ & _ & _ & _ & Heq & _).
  split.
  - apply (Hlt (replicate 31 x01)); [reflexivity | vm_compute; lia].
  - apply (Heq (replicate 32 x01)); reflexivity.
Defined.

(** ** Reading a value *)

(** C2, as the specification has it, fails: when the parent's [getValue]
    fails while the view is being invalidated, [getValue] returns the
    parent's error, not [ErrInvalid]. *)
Lemma getValue_parent_error_wins :
  let t := freshView (racingTrie ErrNotFound) newNode in
  let key : Key := [1%N] in
  invalidated t = false /\
  values (changes t) !! key = None /\
  invalidated (parent_getValue key t).2 = true /\
  (getValue key t).1 = Err ErrNotFound /\
  (getValue key t).1 <> Err ErrInvalid.
Proof. repeat split. discriminate. Qed.

(** C2 (amended): an invalidated view fails with [ErrInvalid]; otherwise a
    key with a value change yields the change's [after], the parent not
    being asked; otherwise the parent is asked: its error is returned as it
    is, and its value is returned unless the view was invalidated during
    the call, in which case [getValue] fails with [ErrInvalid]. *)
Theorem getValue_read_path :
  forall (key : Key) (t : trieView),
    (invalidated t = true -> getValue key t = (Err ErrInvalid, t)) /\
    (invalidated t = false ->
       forall c, values (changes t) !! key = Some c ->
         getValue key t = (Ok (after c), t)) /\
    (invalidated t = false -> values (changes t) !! key = None ->
       forall r raced, tv_getValue (parentTrie t) key = (r, raced) ->
         getValue key t =
           (match r with
            | Err e => Err e
            | Ok v => if raced then Err ErrInvalid else Ok v
            end, set_invalidated raced t)).
Proof.
  intros key t. unfold getValue, parent_getValue. unfold_monad.
  repeat split.
  - by intros ->.
  - intros -> c Hc. simpl. by rewrite Hc.
  - intros Hinv Hnone r raced Hp. rewrite Hinv. simpl. rewrite Hnone, Hp.
    rewrite Hinv. simpl. destruct r; [|done]. simpl. by destruct raced.
Qed.

Lemma getValue_read_path_witness :
  let t := freshView (dbTrie {[ [1%N] := leaf [x0a] ]}) newNode in
  getValue [1%N] t = (Ok (Some [x0a]), t) /\
  getValue [1%N] (set_invalidated true t) = (Err ErrInvalid, set_invalidated true t).
Proof.
  intros t.
  destruct (getValue_read_path [1%N] t) as (_ & _ & Hparent).
  destruct (getValue_read_path [1%N] (set_invalidated true t)) as (Hinv & _).
  split.
  - rewrite (Hparent eq_refl eq_refl (Ok (Some [x0a])) false eq_refl). reflexivity.
  - apply Hinv. reflexivity.
Defined.

(** ** Range proofs: the checks at entry *)

Lemma GetRangeProof_StartAfterEnd H enc ToKey iter order start end_ maxLength t :
  startAfterEnd start end_ ->
  GetRangeProof H enc ToKey iter order start end_ maxLength t = (Err ErrStartAfterEnd, t).
Proof.
  intros (s & e & -> & -> & Hgt). unfold GetRangeProof.
  by rewrite bool_decide_eq_true_2.
Qed.

Lemma GetRangeProof_InvalidMaxLength H enc ToKey iter order start end_ maxLength t :
  ~ startAfterEnd start end_ -> (maxLength <= 0)%Z ->
  GetRangeProof H enc ToKey iter order start end_ maxLength t
  = (Err (Errorf_but_was ErrInvalidMaxLength maxLength), t).
Proof.
  intros Hok Hmax. unfold GetRangeProof.
  assert (match start, end_ with
          | Some s, Some e => bool_decide (bytes_Compare s e = Gt)
          | _, _ => false
          end = false) as ->.
  { destruct start as [s|], end_ as [e|]; try done.
    apply bool_decide_eq_false_2. intros Hgt. apply Hok. by exists s, e. }
  by rewrite bool_decide_eq_true_2.
Qed.

(** C3, as the specification has it, fails: with [start > end] and
    [maxLength <= 0] at once the call fails with [ErrStartAfterEnd], which
    is not [ErrInvalidMaxLength]. *)
Lemma GetRangeProof_StartAfterEnd_first :
  let t := freshView (dbTrie ∅) newNode in
  let r := GetRangeProof (fun b => b) (fun _ _ _ => []) (fun b => Byte.to_N <$> b)
             (fun _ _ => ([], None)) [] (Some [x01]) (Some [x00]) 0%Z t in
  bytes_Compare [x01] [x00] = Gt /\ (0 <= 0)%Z /\
  r = (Err ErrStartAfterEnd, t) /\
  errors_Is ErrStartAfterEnd ErrInvalidMaxLength = false.
Proof. repeat split; done. Qed.

(** C3 (amended): [GetRangeProof] fails with [ErrStartAfterEnd] whenever
    [start] and [end] are present and [start > end]; when that is not the
    case it fails with [ErrInvalidMaxLength] whenever [maxLength <= 0].
    Both failures come before the node IDs are calculated and before any
    proof is built: the view is returned as it was. *)
Theorem GetRangeProof_rejects_at_entry :
  forall ComputeHash256 encodeHashValues ToKey NewIteratorWithStart
         (order : list Key) (start end_ : Maybe bytes) (maxLength : Z) (t : trieView),
    let r := GetRangeProof ComputeHash256 encodeHashValues ToKey NewIteratorWithStart
               order start end_ maxLength t in
    (startAfterEnd start end_ -> r = (Err ErrStartAfterEnd, t)) /\
    (~ startAfterEnd start end_ -> (maxLength <= 0)%Z ->
       exists e, r = (Err e, t) /\ errors_Is e ErrInvalidMaxLength = true).
Proof.
  intros H enc ToKey iter order start end_ maxLength t r. subst r. split.
  - apply GetRangeProof_StartAfterEnd.
  - intros Hok Hmax. eexists. split.
    + by apply GetRangeProof_InvalidMaxLength.
    + reflexivity.
Qed.

Lemma GetRangeProof_rejects_at_entry_witness :
  let t := freshView (dbTrie ∅) newNode in
  let run := GetRangeProof (fun b => b) (fun _ _ _ => []) (fun b => Byte.to_N <$> b)
               (fun _ _ => ([], None)) [] in
  run (Some [x02]) (Some [x01]) 5%Z t = (Err ErrStartAfterEnd, t) /\
  exists e, run (Some [x01]) (Some [x02]) 0%Z t = (Err e, t)
            /\ errors_Is e ErrInvalidMaxLength = true.
Proof.
  intros t run. subst run.
  pose proof (GetRangeProof_rejects_at_entry (fun b => b) (fun _ _ _ => [])
                (fun b => Byte.to_N <$> b) (fun _ _ => ([], None)) []) as Hsp.
  split.
  - apply (Hsp (Some [x02]) (Some [x01]) 5%Z t).
    exists [x02], [x01]. repeat split.
  - apply (Hsp (Some [x01]) (Some [x02]) 0%Z t).
    + intros (s & e & Hs & He & Hgt). injection Hs as <-. injection He as <-.
      discriminate Hgt.
    + lia.
Defined.

(** ** No change after the node IDs were calculated *)

Lemma recordValueChange_NodesAlreadyCalculated key val t :
  nodesAlreadyCalculated t = true ->
  recordValueChange key val t = (Err ErrNodesAlreadyCalculated, t).
Proof. intros Hc. unfold recordValueChange. unfold_monad. by rewrite Hc. Qed.

Lemma insert_NodesAlreadyCalculated key val t :
  nodesAlreadyCalculated t = true ->
  insert key val t = (Err ErrNodesAlreadyCalculated, t).
Proof. intros Hc. unfold insert. unfold_monad. by rewrite Hc. Qed.

Lemma remove_NodesAlreadyCalculated key t :
  nodesAlreadyCalculated t = true ->
  remove key t = (Err ErrNodesAlreadyCalculated, t).
Proof. intros Hc. unfold remove. unfold_monad. by rewrite Hc. Qed.

Lemma calculateNodeIDs_sets_nodesAlreadyCalculated H enc order t :
  calculateNodesOnce t = false -> invalidated t = false ->
  nodesAlreadyCalculated (calculateNodeIDs H enc order t).2 = true.
Proof.
  intros Honce Hinv. unfold calculateNodeIDs.
  unfold bind at 1. unfold get at 1. rewrite Honce.
  unfold bind at 1. unfold modify at 1. rewrite Hinv.
  match goal with |- context [let '(r, t') := ?b ?s in _] => destruct (b s) end.
  reflexivity.
Qed.

(** C6: on a view whose node IDs have been calculated, [insert], [remove]
    and [recordValueChange] fail with [ErrNodesAlreadyCalculated] and leave
    the view, its change set included, as it was.  A view enters that state
    when [calculateNodeIDs] runs on it for the first time while it is valid. *)
Theorem no_mutation_after_nodes_calculated :
  forall (t : trieView),
    (nodesAlreadyCalculated t = true ->
     forall key val,
       insert key val t = (Err ErrNodesAlreadyCalculated, t) /\
       remove key t = (Err ErrNodesAlreadyCalculated, t) /\
       recordValueChange key val t = (Err ErrNodesAlreadyCalculated, t) /\
       changes (insert key val t).2 = changes t /\
       changes (remove key t).2 = changes t /\
       changes (recordValueChange key val t).2 = changes t) /\
    (forall ComputeHash256 encodeHashValues order,
       calculateNodesOnce t = false -> invalidated t = false ->
       nodesAlreadyCalculated
         (calculateNodeIDs ComputeHash256 encodeHashValues order t).2 = true).
Proof.
  intros t. split.
  - intros Hc key val.
    rewrite insert_NodesAlreadyCalculated, remove_NodesAlreadyCalculated,
      recordValueChange_NodesAlreadyCalculated by done. done.
  - intros. by apply calculateNodeIDs_sets_nodesAlreadyCalculated.
Qed.

Lemma no_mutation_after_nodes_calculated_witness :
  let t := (calculateNodeIDs (fun b => b) (fun _ _ _ => []) []
              (freshView (dbTrie {[ [] := newNode ]}) newNode)).2 in
  insert [1%N] (Some [x0a]) t = (Err ErrNodesAlreadyCalculated, t) /\
  remove [1%N] t = (Err ErrNodesAlreadyCalculated, t) /\
  recordValueChange [1%N] None t = (Err ErrNodesAlreadyCalculated, t).
Proof.
  intros t.
  assert (Hc : nodesAlreadyCalculated t = true) by (vm_compute; reflexivity).
  destruct (no_mutation_after_nodes_calculated t) as [Hrej _].
  destruct (Hrej Hc [1%N] (Some [x0a])) as (Hi & Hr & _).
  destruct (Hrej Hc [1%N] None) as (_ & _ & Hv & _).
  auto.
Defined.

(** ** Reasoning about methods *)

Lemma bind_Ok_inv {S A B} (m : StateM S A) (k : A -> StateM S B) t b t' :
  bind m k t = (Ok b, t') ->
  exists a t1, m t = (Ok a, t1) /\ k a t1 = (Ok b, t').
Proof.
  unfold bind. destruct (m t) as [[a|e] t1]; [|discriminate]. eauto.
Qed.

Lemma bind_Err_inv {S A B} (m : StateM S A) (k : A -> StateM S B) t e t' :
  bind m k t = (Err e, t') ->
  m t = (Err e, t') \/ exists a t1, m t = (Ok a, t1) /\ k a t1 = (Err e, t').
Proof.
  unfold bind. destruct (m t) as [[a|e0] t1]; intros H; [right; eauto | left; by injection H as -> ->].
Qed.

Lemma hoare_bind {S A B} (P : S -> Prop) (m : StateM S A) (k : A -> StateM S B)
    (R : result A -> S -> Prop) (Q : result B -> S -> Prop) :
  hoare P m R ->
  (forall e t, R (Err e) t -> Q (Err e) t) ->
  (forall a, hoare (R (Ok a)) (k a) Q) ->
  hoare P (bind m k) Q.
Proof.
  intros Hm He Hk t HP. specialize (Hm t HP). unfold bind.
  destruct (m t) as [[a|e] t1]; simpl in *; [by apply Hk | by apply He].
Qed.

Lemma hoare_conseq {S A} (P P' : S -> Prop) (m : StateM S A) (Q Q' : result A -> S -> Prop) :
  hoare P' m Q' -> (forall t, P t -> P' t) -> (forall r t, Q' r t -> Q r t) ->
  hoare P m Q.
Proof. intros Hm HP HQ t Ht. apply HQ, Hm, HP, Ht. Qed.

(** ** Keys *)

Lemma Token_drop (k : Key) (i : nat) :
  i < length k -> drop i k = Token k i :: drop (S i) k.
Proof.
  intros Hi. unfold Token. destruct (lookup_lt_is_Some_2 k i Hi) as [x Hx].
  rewrite (nth_lookup_Some _ _ _ _ Hx). by apply drop_S.
Qed.

Lemma commonPrefixLoop_spec fuel first second off ci :
  length first - ci <= fuel ->
  commonPrefixLoop fuel first second off ci
  = ci + commonPrefixLen (drop ci first) (drop (ci + off) second).
Proof.
  revert ci. induction fuel as [|fuel IH]; intros ci Hfuel; simpl.
  - rewrite drop_ge by lia. simpl. lia.
  - destruct (Nat.ltb_spec ci (length first)) as [Hlt|Hge]; simpl.
    2: { rewrite drop_ge by lia. simpl. lia. }
    rewrite (Token_drop first ci Hlt).
    destruct (Nat.ltb_spec (ci + off) (length second)) as [Hlt2|Hge2]; simpl.
    2: { rewrite (drop_ge second) by lia. simpl. lia. }
    rewrite (Token_drop second (ci + off) Hlt2). simpl.
    destruct (N.eqb _ _); [|lia].
    rewrite IH by lia. replace (ci + 1 + off) with (S (ci + off)) by lia.
    replace (ci + 1) with (S ci) by lia. lia.
Qed.

Lemma getLengthOfCommonPrefix_spec first second off :
  getLengthOfCommonPrefix first second off
  = commonPrefixLen first (Skip second off).
Proof.
  unfold getLengthOfCommonPrefix, Skip.
  rewrite commonPrefixLoop_spec by lia. by rewrite drop_0.
Qed.

Lemma commonPrefixLen_le a b : commonPrefixLen a b <= length a.
Proof.
  revert b. induction a as [|x a IH]; intros [|y b]; simpl; try lia.
  destruct (N.eqb x y); [specialize (IH b)|]; lia.
Qed.

(** A compressed key that is not a prefix of the rest of the key is longer
    than what it shares with it. *)
Lemma commonPrefixLen_not_prefix pre k :
  hasPrefixb pre k = false -> commonPrefixLen pre k < length pre.
Proof.
  revert k. induction pre as [|x pre IH]; intros [|y k]; simpl; try done; try lia.
  destruct (N.eqb x y); [|lia]. intros H. specialize (IH k H). lia.
Qed.

(** ** [ErrGetPathToFailure] has one source *)

Lemma gpfSafe_ret {A} (a : A) : gpfSafe (ret a).
Proof. intros t Ht. done. Qed.

Lemma gpfSafe_fail {A} e : e <> ErrGetPathToFailure -> gpfSafe (@fail _ A e).
Proof. intros He t Ht. split; [done|]. simpl. congruence. Qed.

Lemma gpfSafe_get : gpfSafe get.
Proof. intros t Ht. done. Qed.

Lemma gpfSafe_isInvalid : gpfSafe isInvalid.
Proof. intros t Ht. done. Qed.

Lemma gpfSafe_modify f :
  (forall t, parentTrie (f t) = parentTrie t) -> gpfSafe (modify f).
Proof. intros Hf t Ht. split; [|done]. unfold okParent. simpl. by rewrite Hf. Qed.

Lemma gpfSafe_bind {A B} (m : M A) (k : A -> M B) :
  gpfSafe m -> (forall a, gpfSafe (k a)) -> gpfSafe (bind m k).
Proof.
  intros Hm Hk. eapply hoare_bind; [exact Hm | |].
  - intros e t [Ht He]. split; [done|]. congruence.
  - intros a. eapply hoare_conseq; [apply (Hk a) | |]; simpl; [tauto | done].
Qed.

Lemma gpfSafe_parent_getValue key : gpfSafe (parent_getValue key).
Proof.
  intros t Ht. pose proof Ht as [Hv He]. unfold parent_getValue, callParent.
  specialize (Hv key). destruct (tv_getValue (parentTrie t) key) as [r raced].
  simpl in *. split; [exact Ht | done].
Qed.

Lemma gpfSafe_parent_getEditableNode key b : gpfSafe (parent_getEditableNode key b).
Proof.
  intros t Ht. pose proof Ht as [Hv He]. unfold parent_getEditableNode, callParent.
  specialize (He key b). destruct (tv_getEditableNode (parentTrie t) key b) as [r raced].
  simpl in *. split; [exact Ht | done].
Qed.

Ltac gpf_safe :=
  repeat first
    [ apply gpfSafe_ret
    | apply gpfSafe_get
    | apply gpfSafe_isInvalid
    | apply gpfSafe_parent_getValue
    | apply gpfSafe_parent_getEditableNode
    | (apply gpfSafe_fail; discriminate)
    | (apply gpfSafe_modify; reflexivity)
    | (apply gpfSafe_bind; [|intros ?])
    | match goal with
      | |- gpfSafe (if ?b then _ else _) => destruct b
      | |- gpfSafe (match ?x with _ => _ end) => destruct x
      | |- gpfSafe (let '(_, _) := ?x in _) => destruct x
      end ].

Lemma gpfSafe_getValue key : gpfSafe (getValue key).
Proof. unfold getValue. gpf_safe. Qed.

Lemma gpfSafe_recordValueChange key val : gpfSafe (recordValueChange key val).
Proof. unfold recordValueChange. gpf_safe. Qed.

Lemma gpfSafe_recordKeyChange key aft newNode : gpfSafe (recordKeyChange key aft newNode).
Proof.
  unfold recordKeyChange. gpf_safe.
  intros t Ht.
  pose proof (gpfSafe_parent_getEditableNode key (bool_decide (a0 ≠ None)) t Ht) as [Hp Hr].
  destruct (parent_getEditableNode key (bool_decide (a0 ≠ None)) t) as [[before|e] t'];
    simpl in *; [done|].
  destruct (decide (e = ErrNotFound)); simpl; [done|]. split; [done|]. congruence.
Qed.

Lemma gpfSafe_recordNodeChange key n : gpfSafe (recordNodeChange key n).
Proof. apply gpfSafe_recordKeyChange. Qed.

Lemma gpfSafe_recordNewNode key n : gpfSafe (recordNewNode key n).
Proof. apply gpfSafe_recordKeyChange. Qed.

Lemma gpfSafe_recordNodeDeleted key n : gpfSafe (recordNodeDeleted key n).
Proof. unfold recordNodeDeleted. destruct (decide _); apply gpfSafe_recordKeyChange. Qed.

Lemma gpfSafe_getNode key hv : gpfSafe (getNode key hv).
Proof. unfold getNode. gpf_safe. Qed.

Lemma gpfSafe_storeNode key n : gpfSafe (storeNode key n).
Proof.
  unfold storeNode. apply gpfSafe_modify. intros t.
  destruct (decide _); simpl; repeat case_match; reflexivity.
Qed.

Lemma gpfSafe_visitLoop {L} key (visitNode : Key -> node -> L -> M L) :
  (forall k n acc, gpfSafe (visitNode k n acc)) ->
  forall fuel ck cn acc, gpfSafe (visitLoop key visitNode fuel ck cn acc).
Proof.
  intros Hv fuel. induction fuel as [|fuel IH]; intros ck cn acc; simpl.
  - destruct (_ <? _); apply gpfSafe_ret.
  - destruct (_ <? _); [|apply gpfSafe_ret].
    destruct (_ !! _); [|apply gpfSafe_ret].
    destruct (negb _); [apply gpfSafe_ret|].
    apply gpfSafe_bind; [apply gpfSafe_getNode|intros n'].
    apply gpfSafe_bind; [apply Hv|intros acc']. apply IH.
Qed.

Lemma gpfSafe_visitPathToKey {L} key (visitNode : Key -> node -> L -> M L) acc :
  (forall k n acc, gpfSafe (visitNode k n acc)) ->
  gpfSafe (visitPathToKey key visitNode acc).
Proof.
  intros Hv. unfold visitPathToKey.
  apply gpfSafe_bind; [apply gpfSafe_get|intros t].
  apply gpfSafe_bind; [apply Hv|intros acc']. by apply gpfSafe_visitLoop.
Qed.

Lemma gpfSafe_insert_visit k n acc : gpfSafe (insert_visit k n acc).
Proof.
  unfold insert_visit. apply gpfSafe_bind; [apply gpfSafe_recordNodeChange|].
  intros _. apply gpfSafe_ret.
Qed.

(** ** The walk has rounds enough *)

(** [length key] rounds are enough for the loop of [visitPathToKey]: with
    more rounds it does the same. *)
Lemma visitLoop_fuel {L} key (visitNode : Key -> node -> L -> M L) fuel fuel' ck cn acc t :
  length key - length ck <= fuel -> length key - length ck <= fuel' ->
  visitLoop key visitNode fuel ck cn acc t = visitLoop key visitNode fuel' ck cn acc t.
Proof.
  revert fuel' ck cn acc t.
  induction fuel as [|fuel IH]; intros fuel' ck cn acc t Hf Hf'.
  - destruct fuel'; simpl; [done|].
    destruct (Nat.ltb_spec (length ck) (length key)); [lia | done].
  - destruct fuel' as [|fuel']; simpl.
    { destruct (Nat.ltb_spec (length ck) (length key)); [lia | done]. }
    destruct (Nat.ltb_spec (length ck) (length key)) as [Hlt|]; [|done].
    destruct (children cn !! Token key (length ck)) as [e|]; [|done].
    destruct (negb _); [done|].
    unfold bind. destruct (getNode _ _ t) as [[n'|err] t1]; [|done].
    destruct (visitNode _ n' acc t1) as [[acc'|err] t2]; [|done].
    unfold Take.
    assert (length ck < length (take (length ck + 1 + length (compressedKey e)) key))
      by (rewrite length_take; lia).
    apply IH; lia.
Qed.

(** ** Where the walk of [insert] stops *)

Lemma insert_visit_Ok k n acc t acc' t' :
  insert_visit k n acc t = (Ok acc', t') -> acc' = (k, n).
Proof.
  unfold insert_visit. intros H.
  apply bind_Ok_inv in H as (_ & t1 & _ & H). by injection H as <- _.
Qed.

Lemma length_Take_grows (key : Key) (n m : nat) :
  n < length key -> n < m -> n < length (Take key m).
Proof. unfold Take. rewrite length_take. lia. Qed.

Lemma Take_is_prefix (key : Key) (m : nat) :
  Take key m = take (length (Take key m)) key.
Proof.
  unfold Take. rewrite length_take.
  destruct (Nat.le_ge_cases m (length key)).
  - by rewrite Nat.min_l.
  - rewrite Nat.min_r by done. by rewrite !take_ge by lia.
Qed.

(** The loop of [visitPathToKey] does not run out of rounds: it ends at a
    node from which it cannot go on. *)
Lemma visitLoop_insert_stops key fuel ck cn t r t' :
  length key - length ck <= fuel ->
  ck = take (length ck) key ->
  visitLoop key insert_visit fuel ck cn (ck, cn) t = (Ok r, t') ->
  walkStopped key r.1 r.2.
Proof.
  revert ck cn t. induction fuel as [|fuel IH]; intros ck cn t Hfuel Hpre; simpl.
  - destruct (Nat.ltb_spec (length ck) (length key)); [lia|].
    intros [= <- _]. split; [done | by left].
  - destruct (Nat.ltb_spec (length ck) (length key)) as [Hlt|Hge].
    2: { intros [= <- _]. split; [done | by left]. }
    destruct (children cn !! Token key (length ck)) as [e|] eqn:He.
    2: { intros [= <- _]. split; [done | right; by left]. }
    destruct (iteratedHasPrefix key (compressedKey e) (length ck + 1)) eqn:Hpfx; simpl.
    2: { intros [= <- _]. split; [done | right; right; eauto]. }
    intros H.
    apply bind_Ok_inv in H as (n' & t1 & _ & H).
    apply bind_Ok_inv in H as (acc' & t2 & Hvisit & H).
    apply insert_visit_Ok in Hvisit as ->.
    eapply IH; [| apply Take_is_prefix | exact H].
    pose proof (length_Take_grows key (length ck)
                  (length ck + 1 + length (compressedKey e)) Hlt). lia.
Qed.

Lemma visitPathToKey_insert_stops key acc t r t' :
  visitPathToKey key insert_visit acc t = (Ok r, t') ->
  walkStopped key r.1 r.2.
Proof.
  unfold visitPathToKey. intros H.
  apply bind_Ok_inv in H as (t0 & t1 & Hget & H). injection Hget as <- <-.
  apply bind_Ok_inv in H as (acc' & t2 & Hvisit & H).
  apply insert_visit_Ok in Hvisit as ->.
  eapply visitLoop_insert_stops; [| | exact H]; simpl; [lia | done].
Qed.

(** A walk that has stopped is not in the failing case. *)
Lemma walkStopped_not_getPathToFailureCase key ck cn :
  walkStopped key ck cn -> ~ getPathToFailureCase key ck cn.
Proof.
  intros [Hpre Hstop] [Hne (e & He & Hlen)].
  destruct Hstop as [Hlong | [Hnone | (e' & He' & Hpfx)]].
  - apply Hne. rewrite Hpre. by rewrite take_ge.
  - congruence.
  - assert (e' = e) as -> by congruence.
    apply commonPrefixLen_not_prefix in Hpfx. unfold Skip in Hlen. lia.
Qed.

Lemma recordKeyChange_new_result key aft t :
  (recordKeyChange key aft true t).1 = Ok tt \/
  (recordKeyChange key aft true t).1 = Err ErrNodesAlreadyCalculated.
Proof.
  unfold recordKeyChange. unfold_monad.
  destruct (nodesAlreadyCalculated t); [by right|].
  destruct (nodes (changes t) !! key); by left.
Qed.

(** [insertAt] fails with [ErrGetPathToFailure] in the failing case and
    only there. *)
Lemma insertAt_GetPathToFailure_iff key val ck cn t :
  (insertAt key val ck cn t).1 = Err ErrGetPathToFailure
  <-> getPathToFailureCase key ck cn.
Proof.
  unfold insertAt, getPathToFailureCase.
  destruct (decide (ck = key)) as [->|Hne].
  { split; [discriminate | by intros [? _]]. }
  destruct (children cn !! Token key (length ck)) as [e|] eqn:He.
  2: { split.
       - unfold bind at 1. unfold storeNode at 1, modify.
         unfold recordNewNode. unfold bind.
         match goal with |- context [recordKeyChange ?k ?a true ?s] =>
           destruct (recordKeyChange_new_result k a s) as [Hr|Hr];
           destruct (recordKeyChange k a true s) as [[[]|e'] s'] end;
           simpl in *; try discriminate; congruence.
       - by intros [_ (? & ? & _)]. }
  rewrite getLengthOfCommonPrefix_spec.
  destruct (Nat.leb_spec (length (compressedKey e))
              (commonPrefixLen (compressedKey e) (Skip key (length ck + 1)))) as [Hle|Hgt].
  { split; [eauto | done]. }
  split.
  - intros H. exfalso. revert H.
    unfold bind at 1. unfold storeNode at 1, modify.
    destruct (decide _).
    + unfold recordNewNode. unfold bind.
      match goal with |- context [recordKeyChange ?k ?a true ?s] =>
        destruct (recordKeyChange_new_result k a s) as [Hr|Hr];
        destruct (recordKeyChange k a true s) as [[[]|e'] s'] end;
        simpl in *; try discriminate; congruence.
    + unfold recordNewNode. unfold bind at 1.
      match goal with |- context [recordKeyChange ?k ?a true ?s] =>
        destruct (recordKeyChange_new_result k a s) as [Hr|Hr];
        destruct (recordKeyChange k a true s) as [[[]|e'] s'] end;
        simpl in *; try discriminate; try congruence.
      unfold bind.
      match goal with |- context [recordKeyChange ?k ?a true ?s] =>
        destruct (recordKeyChange_new_result k a s) as [Hr'|Hr'];
        destruct (recordKeyChange k a true s) as [[[]|e''] s''] end;
        simpl in *; try discriminate; congruence.
  - intros [_ (e' & He' & Hlen)]. assert (e' = e) as -> by congruence. lia.
Qed.

(** C9: past the walk, [insert] fails with [ErrGetPathToFailure] exactly
    when there is a child at the first differing token of the closest node
    whose compressed key is no longer than its longest common prefix with
    [key.Skip(|closestKey| + 1)]; the walk of [visitPathToKey] ends only at
    a node where that is not the case, so that [insert] does not fail with
    [ErrGetPathToFailure] on any view (the parent not failing with it). *)
Theorem insert_never_GetPathToFailure :
  forall (key : Key) (val : Maybe bytes) (t : trieView),
    (forall closestKey closestNode,
       (insertAt key val closestKey closestNode t).1 = Err ErrGetPathToFailure
       <-> getPathToFailureCase key closestKey closestNode) /\
    (forall acc closest t',
       visitPathToKey key insert_visit acc t = (Ok closest, t') ->
       walkStopped key closest.1 closest.2 /\
       ~ getPathToFailureCase key closest.1 closest.2) /\
    (parentNeverGetPathToFailure (parentTrie t) ->
     (insert key val t).1 <> Err ErrGetPathToFailure).
Proof.
  intros key val t. split; [|split].
  - intros ck cn. apply insertAt_GetPathToFailure_iff.
  - intros acc closest t' H. apply visitPathToKey_insert_stops in H.
    split; [done | by apply walkStopped_not_getPathToFailureCase].
  - intros Hp. unfold insert. unfold bind at 1. unfold get at 1.
    destruct (nodesAlreadyCalculated t); [discriminate|].
    unfold bind at 1.
    pose proof (gpfSafe_recordValueChange key val t Hp) as [Hp1 Hr1].
    destruct (recordValueChange key val t) as [[[]|e1] t1]; simpl in *;
      [|intros [= ->]; done].
    unfold bind at 1.
    pose proof (gpfSafe_visitPathToKey key insert_visit (emptyKey, newNode)
                  gpfSafe_insert_visit t1 Hp1) as [Hp2 Hr2].
    destruct (visitPathToKey key insert_visit (emptyKey, newNode) t1)
      as [[closest|e2] t2] eqn:Hwalk; simpl in *; [|intros [= ->]; done].
    apply visitPathToKey_insert_stops in Hwalk.
    rewrite insertAt_GetPathToFailure_iff.
    by apply walkStopped_not_getPathToFailureCase.
Qed.

Lemma insert_never_GetPathToFailure_witness :
  let t := freshView (dbTrie exampleTrie) exampleRoot in
  (insert [1; 2; 5]%N (Some [x01]) t).1 <> Err ErrGetPathToFailure.
Proof.
  intros t. apply (insert_never_GetPathToFailure [1; 2; 5]%N (Some [x01]) t).
  split; intros k; simpl; [discriminate|].
  intros _. destruct (exampleTrie !! k); discriminate.
Defined.

(** ** Invariants of a view *)

Section Preserves.
Context {S : Type} (I : S -> Prop).

Lemma preserves_ret {A} (a : A) : preserves I (ret a).
Proof. intros t Ht. done. Qed.

Lemma preserves_fail {A} e : preserves I (@fail S A e).
Proof. intros t Ht. done. Qed.

Lemma preserves_get : preserves I get.
Proof. intros t Ht. done. Qed.

Lemma preserves_modify f : (forall t, I t -> I (f t)) -> preserves I (modify f).
Proof. intros Hf t Ht. by apply Hf. Qed.

Lemma preserves_bind {A B} (m : StateM S A) (k : A -> StateM S B) :
  preserves I m -> (forall a, preserves I (k a)) -> preserves I (bind m k).
Proof.
  intros Hm Hk. eapply hoare_bind; [exact Hm | done |].
  intros a. apply Hk.
Qed.

Lemma preserves_foldM {A B} (f : B -> A -> StateM S B) l b :
  (forall b a, preserves I (f b a)) -> preserves I (foldM f l b).
Proof.
  intros Hf. revert b. induction l as [|a l IH]; intros b; simpl.
  - apply preserves_ret.
  - apply preserves_bind; [apply Hf | intros b'; apply IH].
Qed.
End Preserves.

Lemma preserves_isInvalid (I : trieView -> Prop) : preserves I isInvalid.
Proof. intros t Ht. done. Qed.

Lemma preserves_visitLoop {L} (I : trieView -> Prop) key
    (visitNode : Key -> node -> L -> M L) :
  (forall k hv, preserves I (getNode k hv)) ->
  (forall k n acc, preserves I (visitNode k n acc)) ->
  forall fuel ck cn acc, preserves I (visitLoop key visitNode fuel ck cn acc).
Proof.
  intros Hg Hv fuel. induction fuel as [|fuel IH]; intros ck cn acc; simpl.
  - destruct (_ <? _); apply preserves_ret.
  - destruct (_ <? _); [|apply preserves_ret].
    destruct (_ !! _); [|apply preserves_ret].
    destruct (negb _); [apply preserves_ret|].
    apply preserves_bind; [apply Hg|intros n'].
    apply preserves_bind; [apply Hv|intros acc']. apply IH.
Qed.

Lemma preserves_visitPathToKey {L} (I : trieView -> Prop) key
    (visitNode : Key -> node -> L -> M L) acc :
  (forall k hv, preserves I (getNode k hv)) ->
  (forall k n acc, preserves I (visitNode k n acc)) ->
  preserves I (visitPathToKey key visitNode acc).
Proof.
  intros Hg Hv. unfold visitPathToKey.
  apply preserves_bind; [apply preserves_get|intros t].
  apply preserves_bind; [apply Hv|intros acc']. by apply preserves_visitLoop.
Qed.

(** An invariant that is kept when the view is invalidated is kept by the
    methods that only read. *)
Section ReadInvariant.
Variable I : trieView -> Prop.
Hypothesis I_invalidated :
  forall t b, I t -> I (set_invalidated (invalidated t || b) t).

Lemma preserves_callParent {A} (f : TrieView -> result A * bool) :
  preserves I (callParent f).
Proof.
  intros t Ht. unfold callParent. destruct (f (parentTrie t)) as [r raced].
  simpl. by apply I_invalidated.
Qed.

Lemma preserves_getValue key : preserves I (getValue key).
Proof.
  unfold getValue.
  apply preserves_bind; [apply preserves_isInvalid|intros inv].
  destruct inv; [apply preserves_fail|].
  apply preserves_bind; [apply preserves_get|intros t].
  destruct (_ !! _); [apply preserves_ret|].
  apply preserves_bind; [apply preserves_callParent|intros v].
  apply preserves_bind; [apply preserves_isInvalid|intros inv].
  destruct inv; [apply preserves_fail|apply preserves_ret].
Qed.

Lemma preserves_getNode key hv : preserves I (getNode key hv).
Proof.
  unfold getNode.
  apply preserves_bind; [apply preserves_get|intros t].
  destruct (_ !! _) as [c|]; [|apply preserves_callParent].
  destruct (after c); [apply preserves_ret|apply preserves_fail].
Qed.

Lemma preserves_getProof H ToKey key : preserves I (getProof H ToKey key).
Proof.
  unfold getProof.
  apply preserves_bind; [apply preserves_getValue|intros val].
  apply preserves_bind.
  { apply preserves_visitPathToKey; [apply preserves_getNode|].
    intros k n acc. unfold getProof_visit.
    apply preserves_bind; [apply preserves_getValue|intros _]. apply preserves_ret. }
  intros [[ck cn] path]. destruct (decide _); [apply preserves_ret|].
  destruct (_ !! _) as [c|]; [|apply preserves_ret].
  apply preserves_bind; [apply preserves_getNode|intros childNode].
  apply preserves_bind; [apply preserves_getValue|intros _].
  apply preserves_bind; [apply preserves_isInvalid|intros inv].
  destruct inv; [apply preserves_fail|apply preserves_ret].
Qed.
End ReadInvariant.

(** An invariant that only looks at the node changes and is kept by the
    writes of the view is kept by its methods. *)
Section NodeChangesInvariant.
Variable I : trieView -> Prop.
(** What an entry written under [key] must be like. *)
Variable okEntry : Key -> option node -> Prop.

Hypothesis I_invalidated :
  forall t b, I t -> I (set_invalidated (invalidated t || b) t).
Hypothesis I_values : forall t v, I t -> I (set_values v t).
Hypothesis I_root : forall t n, I t -> I (set_root n t).
Hypothesis I_nodes :
  forall t key c, I t -> okEntry key (after c) ->
    I (set_nodes (<[key := c]> (nodes (changes t))) t).
Hypothesis okEntry_Some : forall key n, okEntry key (Some n).
Hypothesis okEntry_None : forall key, length key <> 0 -> okEntry key None.

Local Abbreviation preserves_callParent := (preserves_callParent I I_invalidated).
Local Abbreviation preserves_getValue := (preserves_getValue I I_invalidated).
Local Abbreviation preserves_getNode := (preserves_getNode I I_invalidated).

Lemma preserves_recordValueChange key val : preserves I (recordValueChange key val).
Proof.
  unfold recordValueChange.
  apply preserves_bind; [apply preserves_get|intros t].
  destruct (nodesAlreadyCalculated t); [apply preserves_fail|].
  destruct (_ !! _).
  - apply preserves_modify. intros t' Ht'. by apply I_values.
  - apply preserves_bind; [apply preserves_callParent|intros v].
    apply preserves_modify. intros t' Ht'. by apply I_values.
Qed.

Lemma preserves_recordKeyChange key aft newNode :
  okEntry key aft -> preserves I (recordKeyChange key aft newNode).
Proof.
  intros Hok t Ht. unfold recordKeyChange. unfold bind at 1. unfold get at 1.
  destruct (nodesAlreadyCalculated t); [done|].
  destruct (nodes (changes t) !! key) as [existing|] eqn:Hex.
  { unfold modify. simpl. by apply I_nodes. }
  destruct newNode.
  { unfold modify. simpl. by apply I_nodes. }
  unfold bind.
  pose proof (preserves_callParent (fun p => tv_getValue p key) t Ht) as Hv.
  fold (parent_getValue key) in Hv.
  destruct (parent_getValue key t) as [[val|e] t1]; simpl in *; [|done].
  pose proof (preserves_callParent
                (fun p => tv_getEditableNode p key (bool_decide (val ≠ None))) t1 Hv) as Hn.
  fold (parent_getEditableNode key (bool_decide (val ≠ None))) in Hn.
  destruct (parent_getEditableNode key (bool_decide (val ≠ None)) t1) as [[bef|e] t2];
    simpl in *.
  - by apply I_nodes.
  - destruct (decide (e = ErrNotFound)); simpl; [by apply I_nodes | done].
Qed.

Lemma preserves_recordNodeChange key n : preserves I (recordNodeChange key n).
Proof. by apply preserves_recordKeyChange. Qed.

Lemma preserves_recordNewNode key n : preserves I (recordNewNode key n).
Proof. by apply preserves_recordKeyChange. Qed.

Lemma preserves_recordNodeDeleted key n : preserves I (recordNodeDeleted key n).
Proof.
  unfold recordNodeDeleted. destruct (decide _); apply preserves_recordKeyChange; auto.
Qed.

Lemma preserves_storeNode key n : preserves I (storeNode key n).
Proof.
  unfold storeNode. apply preserves_modify. intros t Ht. cbv beta zeta.
  set (t1 := if decide (key = emptyKey) then set_root n t else t).
  assert (Ht1 : I t1) by (subst t1; destruct (decide _); auto).
  clearbody t1. destruct (nodes (changes t1) !! key) as [c|]; [|done].
  destruct (after c); [|done]. apply I_nodes; [done | apply okEntry_Some].
Qed.

Lemma preserves_compressNodePath parent parentKey node_ nodeKey :
  preserves I (compressNodePath parent parentKey node_ nodeKey).
Proof.
  unfold compressNodePath.
  apply preserves_bind; [apply preserves_get|intros t].
  destruct (nodesAlreadyCalculated t); [apply preserves_fail|].
  apply preserves_bind; [apply preserves_getValue|intros val].
  destruct parent as [p|]; [|apply preserves_ret].
  destruct (map_to_list (children node_)) as [|[index e] [|]]; try apply preserves_ret.
  destruct val; [apply preserves_ret|].
  apply preserves_bind; [apply preserves_recordNodeDeleted|intros _].
  apply preserves_bind; [apply preserves_storeNode|intros _].
  apply preserves_recordNodeChange.
Qed.

Lemma preserves_remove key : preserves I (remove key).
Proof.
  unfold remove.
  apply preserves_bind; [apply preserves_get|intros t].
  destruct (nodesAlreadyCalculated t); [apply preserves_fail|].
  apply preserves_bind; [apply preserves_recordValueChange|intros _].
  apply preserves_bind; [apply preserves_get|intros t'].
  destruct (_ !! _) as [val|]; [|apply preserves_ret].
  destruct (_ || _); [apply preserves_ret|].
  apply preserves_bind.
  { apply preserves_visitPathToKey; [apply preserves_getNode|].
    intros k n acc. unfold remove_visit.
    apply preserves_bind; [apply preserves_recordNodeChange|intros _].
    apply preserves_ret. }
  intros v. destruct (nodeToDelete v) as [nd|]; [|apply preserves_ret].
  apply preserves_bind; [apply preserves_storeNode|intros _].
  destruct (negb _); [apply preserves_compressNodePath|].
  apply preserves_bind; [apply preserves_recordNodeDeleted|intros _].
  destruct (parent v); [|apply preserves_ret].
  apply preserves_bind; [apply preserves_storeNode|intros _].
  apply preserves_compressNodePath.
Qed.

Lemma preserves_insertAt key val ck cn : preserves I (insertAt key val ck cn).
Proof.
  unfold insertAt. destruct (decide (ck = key)).
  { apply preserves_bind; [apply preserves_storeNode|intros _]. apply preserves_ret. }
  destruct (_ !! _) as [e|].
  2: { apply preserves_bind; [apply preserves_storeNode|intros _].
       apply preserves_bind; [apply preserves_recordNewNode|intros _].
       apply preserves_ret. }
  destruct (_ <=? _); [apply preserves_fail|].
  apply preserves_bind; [apply preserves_storeNode|intros _].
  destruct (decide _).
  - apply preserves_bind; [apply preserves_recordNewNode|intros _]. apply preserves_ret.
  - apply preserves_bind; [apply preserves_recordNewNode|intros _].
    apply preserves_bind; [apply preserves_recordNewNode|intros _]. apply preserves_ret.
Qed.

Lemma preserves_insert key val : preserves I (insert key val).
Proof.
  unfold insert.
  apply preserves_bind; [apply preserves_get|intros t].
  destruct (nodesAlreadyCalculated t); [apply preserves_fail|].
  apply preserves_bind; [apply preserves_recordValueChange|intros _].
  apply preserves_bind; [|intros closest; apply preserves_insertAt].
  apply preserves_visitPathToKey; [apply preserves_getNode|].
  intros k n acc. unfold insert_visit.
  apply preserves_bind; [apply preserves_recordNodeChange|intros _].
  apply preserves_ret.
Qed.

Lemma preserves_applyOps ops t : I t -> I (applyOps ops t).
Proof.
  revert t. induction ops as [|o ops IH]; intros t Ht; [done|].
  simpl. apply IH. destruct o as [key val|key]; simpl.
  - apply (preserves_bind I (insert key (Some val)) (fun _ => ret tt));
      [apply preserves_insert | intros; apply preserves_ret | done].
  - by apply preserves_remove.
Qed.
End NodeChangesInvariant.

(** ** The root stays *)

Lemma rootNeverNil_set_nodes t key c :
  rootNeverNil t -> (key = emptyKey -> after c <> None) ->
  rootNeverNil (set_nodes (<[key := c]> (nodes (changes t))) t).
Proof.
  intros Ht Hok c'. simpl. destruct (decide (key = emptyKey)) as [->|Hne].
  - rewrite lookup_insert_eq. intros [= <-]. by apply Hok.
  - rewrite lookup_insert_ne by done. apply Ht.
Qed.

Lemma rootNeverNil_applyOps ops t : rootNeverNil t -> rootNeverNil (applyOps ops t).
Proof.
  apply (preserves_applyOps rootNeverNil (fun key aft => key = emptyKey -> aft <> None)).
  - intros t' b Ht'. exact Ht'.
  - intros t' v Ht'. exact Ht'.
  - intros t' n Ht'. exact Ht'.
  - intros t' key c Ht' Hok. by apply rootNeverNil_set_nodes.
  - done.
  - intros key Hlen ->. done.
Qed.

(** C10: [recordNodeDeleted] for the root key records the node as changed,
    in the view and in the stateless view alike; whatever insertions and
    removals are applied to a view, succeeding or failing, its change set
    does not come to map the root key to a nil node, and a fresh view has
    no such entry to begin with. *)
Theorem root_is_never_deleted :
  forall (ops : list op) (t : trieView),
    (forall n, recordNodeDeleted emptyKey n = recordNodeChange emptyKey n) /\
    (forall n : Stateless.Node,
       Stateless.n_key n = Stateless.RootPath ->
       Stateless.recordNodeDeleted n = Stateless.recordNodeChange n) /\
    (forall parent n, rootNeverNil (freshView parent n)) /\
    (rootNeverNil t ->
     forall c, nodes (changes (applyOps ops t)) !! emptyKey = Some c ->
               exists n, after c = Some n).
Proof.
  intros ops t. repeat split.
  - intros n H. unfold Stateless.recordNodeDeleted, Stateless.recordNodeChange.
    by rewrite H.
  - intros parent n c. simpl. by rewrite lookup_empty.
  - intros Ht c Hc. apply (rootNeverNil_applyOps ops) in Ht.
    specialize (Ht c Hc). destruct (after c); [eauto | done].
Qed.

Lemma root_is_never_deleted_witness :
  let t := freshView (dbTrie exampleTrie) exampleRoot in
  let ops := [opRemove [1; 2; 3]%N; opRemove [1; 2; 4]%N; opRemove [1; 2]%N;
              opRemove [1%N]] in
  rootNeverNil t /\
  exists c n, nodes (changes (applyOps ops t)) !! emptyKey = Some c /\ after c = Some n.
Proof.
  intros t ops.
  destruct (root_is_never_deleted ops t) as (_ & _ & Hfresh & Hkeep).
  assert (Ht : rootNeverNil t) by apply Hfresh.
  split; [exact Ht|].
  destruct (nodes (changes (applyOps ops t)) !! emptyKey) as [c|] eqn:Hc;
    [|by vm_compute in Hc].
  destruct (Hkeep Ht c eq_refl) as [n Hn]. exists c, n. split; [reflexivity | exact Hn].
Defined.

(** ** Range proofs: what is returned *)

Lemma invalidatedFrom_refl t : invalidatedFrom t t.
Proof. exists false. by rewrite orb_false_r, set_invalidated_id. Qed.

Lemma invalidatedFrom_step t t' b :
  invalidatedFrom t t' -> invalidatedFrom t (set_invalidated (invalidated t' || b) t').
Proof.
  intros [b' ->]. exists (b' || b). simpl. by rewrite orb_assoc.
Qed.

Lemma invalidatedFrom_valid t t' :
  invalidatedFrom t t' -> invalidated t' = false -> t' = t.
Proof.
  intros [b ->]. simpl. intros H. rewrite H.
  apply orb_false_iff in H as [H _]. rewrite <- H. apply set_invalidated_id.
Qed.

Lemma invalidatedFrom_trans t1 t2 t3 :
  invalidatedFrom t1 t2 -> invalidatedFrom t2 t3 -> invalidatedFrom t1 t3.
Proof.
  intros [b ->] [b' ->]. exists (b || b'). simpl. by rewrite orb_assoc.
Qed.

(** [getProof] only reads: it leaves the view as it is, or invalidated. *)
Lemma getProof_invalidatedFrom H ToKey key t :
  invalidatedFrom t (getProof H ToKey key t).2.
Proof.
  apply (preserves_getProof (invalidatedFrom t)).
  - intros t' b. apply invalidatedFrom_step.
  - apply invalidatedFrom_refl.
Qed.

(** The walk of [getProof] only adds to the path, and the root is on it. *)
Lemma visitLoop_getProof_path H key fuel ck cn acc t r t' :
  visitLoop key (getProof_visit H) fuel ck cn acc t = (Ok r, t') ->
  length acc.2 <= length r.2.
Proof.
  revert ck cn acc t. induction fuel as [|fuel IH]; intros ck cn acc t; simpl.
  - destruct (_ <? _); by intros [= <- _].
  - destruct (_ <? _); [|by intros [= <- _]].
    destruct (_ !! _); [|by intros [= <- _]].
    destruct (negb _); [by intros [= <- _]|].
    intros Hb. apply bind_Ok_inv in Hb as (n' & t1 & _ & Hb).
    apply bind_Ok_inv in Hb as (acc' & t2 & Hv & Hb).
    apply IH in Hb. unfold getProof_visit in Hv.
    apply bind_Ok_inv in Hv as (_ & t3 & _ & Hv). injection Hv as <- _.
    simpl in Hb. rewrite length_app in Hb. simpl in Hb. lia.
Qed.

Lemma getProof_path_nonempty H ToKey key t p t' :
  getProof H ToKey key t = (Ok p, t') -> pf_Path p <> [].
Proof.
  unfold getProof. intros Hb.
  apply bind_Ok_inv in Hb as (val & t1 & _ & Hb).
  apply bind_Ok_inv in Hb as ([[ck cn] path] & t2 & Hwalk & Hb).
  assert (Hlen : 1 <= length path).
  { unfold visitPathToKey in Hwalk.
    apply bind_Ok_inv in Hwalk as (t0 & t3 & _ & Hwalk).
    apply bind_Ok_inv in Hwalk as (acc' & t4 & Hv & Hwalk).
    apply visitLoop_getProof_path in Hwalk. simpl in Hwalk.
    unfold getProof_visit in Hv.
    apply bind_Ok_inv in Hv as (_ & t5 & _ & Hv). injection Hv as <- _.
    simpl in Hwalk. lia. }
  assert (Hne : path <> []) by (destruct path; simpl in Hlen; [lia | done]).
  destruct (decide _); [by injection Hb as <- _|].
  destruct (_ !! _); [|by injection Hb as <- _].
  apply bind_Ok_inv in Hb as (cnode & t3 & _ & Hb).
  apply bind_Ok_inv in Hb as (_ & t4 & _ & Hb).
  apply bind_Ok_inv in Hb as (inv & t5 & _ & Hb).
  destruct inv; [discriminate|]. injection Hb as <- _. simpl.
  by destruct path.
Qed.

(** The pairs collected from the iterator: they come first among the pairs
    of the iterator, are no more than [maxLength] and do not exceed [end]. *)
Lemma collectKeyValues_spec items itErr end_ maxLength acc kvs e :
  collectKeyValues items itErr end_ maxLength acc = (kvs, e) ->
  exists taken,
    kvs = acc ++ taken /\ taken `prefix_of` items /\
    (taken = [] \/ (Z.of_nat (length kvs) <= maxLength)%Z) /\
    Forall (upToEnd end_) taken.
Proof.
  revert acc. induction items as [|kv items IH]; intros acc; simpl.
  - intros [= <- _]. exists []. rewrite app_nil_r.
    split; [done|]. split; [done|]. split; [by left | constructor].
  - destruct (bool_decide (Z.of_nat (length acc) < maxLength)%Z) eqn:Hlen; simpl.
    2: { intros [= <- _]. exists []. rewrite app_nil_r.
         split; [done|]. split; [apply prefix_nil|]. split; [by left | constructor]. }
    destruct (match end_ with
              | Some e0 => bool_decide (bytes_Compare (kv_Key kv) e0 ≠ Gt)
              | None => true
              end) eqn:Hend.
    2: { intros [= <- _]. exists []. rewrite app_nil_r.
         split; [done|]. split; [apply prefix_nil|]. split; [by left | constructor]. }
    intros Hrec. apply IH in Hrec as (taken & -> & Hpre & Hmax & Hall).
    exists (kv :: taken). split; [by rewrite <- app_assoc|].
    split; [by apply prefix_cons|]. split.
    + right. apply bool_decide_eq_true in Hlen.
      destruct Hmax as [->|Hmax]; rewrite ?length_app in *; simpl in *; lia.
    + constructor; [|done]. intros e0 ->. by apply bool_decide_eq_true in Hend.
Qed.

Section RangeProofContents.
Variable ComputeHash256 : bytes -> bytes.
Variable encodeHashValues : Key -> node -> Maybe bytes -> bytes.
Variable ToKey : bytes -> Key.
Variable NewIteratorWithStart : trieView -> bytes -> list KeyValue * option error.

(** What the specification says of the iterator: in order, from [start]. *)
Hypothesis iterator_in_order :
  forall t start, StronglySorted keyLt (NewIteratorWithStart t start).1.
Hypothesis iterator_from_start :
  forall t start,
    Forall (fun kv => bytes_Compare start (kv_Key kv) <> Gt)
           (NewIteratorWithStart t start).1.

Local Abbreviation getProof' := (getProof ComputeHash256 ToKey).

(** A proof that was built while the view stayed valid. *)
Lemma getProof_valid key t p t' :
  getProof' key t = (Ok p, t') -> invalidated t' = false ->
  t' = t /\ getProof' key t = (Ok p, t) /\ pf_Path p <> [].
Proof.
  intros Hp Hv. pose proof (getProof_invalidatedFrom ComputeHash256 ToKey key t) as Hfrom.
  rewrite Hp in Hfrom. simpl in Hfrom.
  apply invalidatedFrom_valid in Hfrom; [|done]. subst t'.
  repeat split; [done|]. by eapply getProof_path_nonempty.
Qed.

Lemma getProof_invalidated_stays key t r t' :
  getProof' key t = (r, t') -> invalidated t = true -> invalidated t' = true.
Proof.
  intros Hp Hv. pose proof (getProof_invalidatedFrom ComputeHash256 ToKey key t) as [b Hb].
  rewrite Hp in Hb. simpl in Hb. subst t'. simpl. by rewrite Hv.
Qed.

(** C4: a range proof that is returned holds at most [maxLength] pairs,
    the first pairs of the iterator from [start], in ascending order of
    their keys, none below [start] and none above [end]; its end proof is
    the path of the proof for the greatest key among them, or for [end]
    when there is no pair and [end] is given; with no pair, no [start]
    and no [end] (the case in which the pairs and both proofs are empty)
    the end proof is the path of the proof for the root key. *)
Theorem GetRangeProof_contents :
  forall (order : list Key) (start end_ : Maybe bytes) (maxLength : Z)
         (t : trieView) (rp : RangeProof) (t' : trieView),
    GetRangeProof ComputeHash256 encodeHashValues ToKey NewIteratorWithStart
      order start end_ maxLength t = (Ok rp, t') ->
    (0 < maxLength)%Z /\ ~ startAfterEnd start end_ /\
    (Z.of_nat (length (KeyValues rp)) <= maxLength)%Z /\
    KeyValues rp `prefix_of` (NewIteratorWithStart t' (default [] start)).1 /\
    StronglySorted keyLt (KeyValues rp) /\
    Forall (fromStart start) (KeyValues rp) /\
    Forall (upToEnd end_) (KeyValues rp) /\
    (forall greatest, last (KeyValues rp) = Some greatest ->
       Forall (fun kv => kv = greatest \/ keyLt kv greatest) (KeyValues rp) /\
       exists p, getProof' (kv_Key greatest) t' = (Ok p, t') /\ EndProof rp = pf_Path p) /\
    (KeyValues rp = [] -> forall e, end_ = Some e ->
       exists p, getProof' e t' = (Ok p, t') /\ EndProof rp = pf_Path p) /\
    (KeyValues rp = [] -> end_ = None -> forall s, start = Some s ->
       EndProof rp = [] /\ StartProof rp <> []) /\
    (KeyValues rp = [] -> end_ = None -> start = None ->
       StartProof rp = [] /\
       exists p, getProof' rootKey t' = (Ok p, t') /\ EndProof rp = pf_Path p).
Proof.
  intros order start end_ maxLength t rp t'. unfold GetRangeProof.
  destruct (match start, end_ with
            | Some s, Some e => bool_decide (bytes_Compare s e = Gt)
            | _, _ => false
            end) eqn:Hse; [discriminate|].
  destruct (bool_decide (maxLength <= 0)%Z) eqn:Hmax; [discriminate|].
  apply bool_decide_eq_false in Hmax.
  intros Hrun.
  apply bind_Ok_inv in Hrun as (_ & t1 & _ & Hrun).
  apply bind_Ok_inv in Hrun as (t1' & t1'' & Hget & Hrun).
  injection Hget as <- <-.
  pose proof (iterator_in_order t1 (default [] start)) as Hsorted.
  pose proof (iterator_from_start t1 (default [] start)) as Hfrom.
  destruct (NewIteratorWithStart t1 (default [] start)) as [items itErr] eqn:Hit.
  simpl in Hsorted, Hfrom.
  destruct (collectKeyValues items itErr end_ maxLength []) as [kvs itErr'] eqn:Hcoll.
  apply collectKeyValues_spec in Hcoll as (taken & Hkvs & Hpre & Hlen & Hend).
  simpl in Hkvs. subst taken.
  destruct itErr' as [e|]; [discriminate|].
  apply bind_Ok_inv in Hrun as (endProof & s1 & Hendp & Hrun).
  apply bind_Ok_inv in Hrun as (startProof & s2 & Hstartp & Hrun).
  apply bind_Ok_inv in Hrun as (endProof' & s3 & Hrootp & Hrun).
  apply bind_Ok_inv in Hrun as (inv & s4 & Hinv & Hrun).
  injection Hinv as <- <-.
  destruct (invalidated s3) eqn:Hv3; [discriminate|].
  injection Hrun as <- <-. simpl.
  (* the view was valid throughout, so nothing changed after [t1] *)
  assert (Hv2 : invalidated s2 = false).
  { destruct (bool_decide (length startProof = 0) && bool_decide (length endProof = 0)
              && bool_decide (length kvs = 0)).
    - apply bind_Ok_inv in Hrootp as (p & s & Hp & Hr). injection Hr as _ <-.
      destruct (invalidated s2) eqn:Hv2; [|done].
      by rewrite (getProof_invalidated_stays _ _ _ _ Hp Hv2) in Hv3.
    - by injection Hrootp as _ <-. }
  assert (Hv1 : invalidated s1 = false).
  { destruct start as [s|].
    - apply bind_Ok_inv in Hstartp as (p & s' & Hp & Hr). injection Hr as _ <-.
      destruct (invalidated s1) eqn:Hv1; [|done].
      by rewrite (getProof_invalidated_stays _ _ _ _ Hp Hv1) in Hv2.
    - by injection Hstartp as _ <-. }
  (* the end proof *)
  assert (Hend1 : s1 = t1 /\
            match last kvs, end_ with
            | Some greatest, _ =>
                exists p, getProof' (kv_Key greatest) t1 = (Ok p, t1)
                          /\ endProof = pf_Path p /\ endProof <> []
            | None, Some e =>
                exists p, getProof' e t1 = (Ok p, t1)
                          /\ endProof = pf_Path p /\ endProof <> []
            | None, None => endProof = []
            end).
  { destruct (last kvs) as [greatest|]; [|destruct end_ as [e|]].
    - apply bind_Ok_inv in Hendp as (p & s & Hp & Hr). injection Hr as <- <-.
      apply getProof_valid in Hp as (-> & Hp & Hne); [|done]. eauto.
    - apply bind_Ok_inv in Hendp as (p & s & Hp & Hr). injection Hr as <- <-.
      apply getProof_valid in Hp as (-> & Hp & Hne); [|done]. eauto.
    - by injection Hendp as <- <-. }
  destruct Hend1 as [-> Hendproof].
  (* the start proof *)
  assert (Hstart2 : s2 = t1 /\
            match start with
            | Some s => endProof = [] -> startProof <> []
            | None => startProof = []
            end).
  { destruct start as [s|].
    - apply bind_Ok_inv in Hstartp as (p & s' & Hp & Hr). injection Hr as <- <-.
      apply getProof_valid in Hp as (-> & Hp & Hne); [|done].
      split; [done|]. intros ->. by destruct (pf_Path p).
    - by injection Hstartp as <- <-. }
  destruct Hstart2 as [-> Hstartproof].
  (* the root proof, if the range is empty *)
  assert (Hroot3 : s3 = t1 /\
            if bool_decide (length startProof = 0) && bool_decide (length endProof = 0)
               && bool_decide (length kvs = 0)
            then exists p, getProof' rootKey t1 = (Ok p, t1) /\ endProof' = pf_Path p
            else endProof' = endProof).
  { destruct (bool_decide (length startProof = 0) && bool_decide (length endProof = 0)
              && bool_decide (length kvs = 0)).
    - apply bind_Ok_inv in Hrootp as (p & s & Hp & Hr). injection Hr as <- <-.
      apply getProof_valid in Hp as (-> & Hp & Hne); [|done]. eauto.
    - by injection Hrootp as <- <-. }
  destruct Hroot3 as [-> Hrootproof].
  rewrite Hit. simpl.
  split; [lia|]. split.
  { intros (s & e & -> & -> & Hgt). by rewrite bool_decide_eq_true_2 in Hse. }
  split.
  { destruct Hlen as [->|Hlen]; [simpl; lia | done]. }
  split; [done|].
  destruct Hpre as [rest ->].
  split; [by apply StronglySorted_app_1_l in Hsorted|].
  split.
  { apply Forall_app in Hfrom as [Hfrom _].
    eapply Forall_impl; [exact Hfrom|]. intros kv Hkv s ->. exact Hkv. }
  split; [done|].
  split.
  { intros greatest Hlast. rewrite Hlast in Hendproof. split.
    { apply last_Some in Hlast as [front ->].
      apply StronglySorted_app_1_l in Hsorted.
      apply Forall_forall. intros kv [Hkv|Hkv%list_elem_of_singleton]%elem_of_app.
      - right. eapply StronglySorted_app_1_elem_of; [exact Hsorted|done|].
        by apply list_elem_of_singleton.
      - by left. }
    destruct Hendproof as (p & Hp & -> & Hne). exists p. split; [done|].
    assert (length (pf_Path p) <> 0) by (by destruct (pf_Path p)).
    rewrite (bool_decide_eq_false_2 (length (pf_Path p) = 0)) in Hrootproof by done.
    by rewrite andb_false_r in Hrootproof. }
  split.
  { intros -> e ->. simpl in Hendproof.
    destruct Hendproof as (p & Hp & -> & Hne). exists p. split; [done|].
    assert (length (pf_Path p) <> 0) by (by destruct (pf_Path p)).
    rewrite (bool_decide_eq_false_2 (length (pf_Path p) = 0)) in Hrootproof by done.
    by rewrite andb_false_r in Hrootproof. }
  split.
  { intros -> -> s ->. simpl in Hendproof. subst endProof.
    specialize (Hstartproof eq_refl).
    assert (length startProof <> 0) by (by destruct startProof).
    rewrite (bool_decide_eq_false_2 (length startProof = 0)) in Hrootproof by done.
    simpl in Hrootproof. by subst. }
  intros -> -> ->. simpl in Hendproof. subst endProof startProof.
  simpl in Hrootproof. done.
Qed.
End RangeProofContents.

Lemma StronglySorted_filter {A} (R : relation A) (P : A -> Prop)
    `{forall x, Decision (P x)} (l : list A) :
  StronglySorted R l -> StronglySorted R (filter P l).
Proof.
  induction 1 as [|x l Hl IH Hx]; [constructor|].
  rewrite filter_cons. destruct (decide (P x)); [|done].
  constructor; [done|]. apply Forall_forall. intros y Hy.
  apply list_elem_of_filter in Hy as [_ Hy]. by eapply Forall_forall in Hx.
Qed.

Lemma abcIterator_in_order t start : StronglySorted keyLt (abcIterator t start).1.
Proof.
  apply StronglySorted_filter. unfold abcPairs.
  repeat (constructor; [|repeat constructor]). constructor.
Qed.

Lemma abcIterator_from_start t start :
  Forall (fun kv => bytes_Compare start (kv_Key kv) <> Gt) (abcIterator t start).1.
Proof.
  apply Forall_forall. intros kv Hkv. by apply list_elem_of_filter in Hkv as [Hkv _].
Qed.

Lemma GetRangeProof_contents_witness :
  let t := freshView (dbTrie abcTrie) abcRoot in
  let r := GetRangeProof (fun b => b) (fun _ _ _ => []) byteTokens abcIterator
             [] (Some [x01]) (Some [x03]) 2%Z t in
  exists rp,
    r.1 = Ok rp /\
    kv_Key <$> KeyValues rp = [[x01]; [x02]] /\
    (Z.of_nat (length (KeyValues rp)) <= 2)%Z /\
    StronglySorted keyLt (KeyValues rp) /\
    exists p, getProof (fun b => b) byteTokens [x02] r.2 = (Ok p, r.2)
              /\ EndProof rp = pf_Path p.
Proof.
  intros t r.
  destruct r as [[rp|e] t'] eqn:Hr; [|by vm_compute in Hr].
  pose proof (GetRangeProof_contents (fun b => b) (fun _ _ _ => []) byteTokens abcIterator
                abcIterator_in_order abcIterator_from_start
                [] (Some [x01]) (Some [x03]) 2%Z t rp t' Hr)
    as (_ & _ & Hlen & _ & Hsorted & _ & _ & Hend & _).
  assert (Hkeys : KeyValues rp = [mkKeyValue [x01] [x31]; mkKeyValue [x02] [x32]]).
  { vm_compute in Hr. by injection Hr as <- _. }
  exists rp. simpl. rewrite Hkeys in *.
  split; [done|]. split; [done|]. split; [done|]. split; [done|].
  apply (Hend (mkKeyValue [x02] [x32])). reflexivity.
Defined.

(** ** Path compression: the view and the stateless view *)

Lemma recordKeyChange_Ok key aft newNode t t' :
  recordKeyChange key aft newNode t = (Ok tt, t') ->
  (exists c, nodes (changes t') !! key = Some c /\ after c = aft) /\
  (forall k, k <> key -> nodes (changes t') !! k = nodes (changes t) !! k).
Proof.
  unfold recordKeyChange. unfold bind at 1. unfold get at 1.
  destruct (nodesAlreadyCalculated t); [discriminate|].
  assert (Hins : forall (t0 : trieView) c, after c = aft ->
    (exists c', nodes (changes (set_nodes (<[key := c]> (nodes (changes t0))) t0)) !! key
                = Some c' /\ after c' = aft) /\
    (forall k, k <> key ->
       nodes (changes (set_nodes (<[key := c]> (nodes (changes t0))) t0)) !! k
       = nodes (changes t0) !! k)).
  { intros t0 c Hc. simpl. split.
    - exists c. by rewrite lookup_insert_eq.
    - intros k Hk. by rewrite lookup_insert_ne. }
  destruct (nodes (changes t) !! key) as [existing|] eqn:Hex.
  { intros [= <-]. by apply Hins. }
  destruct newNode.
  { intros [= <-]. by apply Hins. }
  unfold bind, parent_getValue, parent_getEditableNode, callParent.
  destruct (tv_getValue (parentTrie t) key) as [[val|e] raced]; [|discriminate].
  simpl.
  destruct (tv_getEditableNode (parentTrie t) key (bool_decide (val ≠ None)))
    as [[bef|e] raced']; simpl.
  - intros [= <-]. exact (Hins _ (mkChange _ aft) eq_refl).
  - destruct (decide (e = ErrNotFound)); [|discriminate]. intros [= <-].
    exact (Hins _ (mkChange _ aft) eq_refl).
Qed.

Lemma recordKeyChange_other key aft newNode t k :
  k <> key ->
  nodes (changes (recordKeyChange key aft newNode t).2) !! k = nodes (changes t) !! k.
Proof.
  intros Hk. unfold recordKeyChange. unfold bind at 1. unfold get at 1.
  destruct (nodesAlreadyCalculated t); [done|].
  destruct (nodes (changes t) !! key) as [existing|] eqn:Hex.
  { simpl. by rewrite lookup_insert_ne. }
  destruct newNode.
  { simpl. by rewrite lookup_insert_ne. }
  unfold bind, parent_getValue, parent_getEditableNode, callParent.
  destruct (tv_getValue (parentTrie t) key) as [[val|e] raced]; [|done].
  simpl.
  destruct (tv_getEditableNode (parentTrie t) key (bool_decide (val ≠ None)))
    as [[bef|e] raced']; simpl.
  - by rewrite lookup_insert_ne.
  - destruct (decide (e = ErrNotFound)); simpl; [by rewrite lookup_insert_ne | done].
Qed.

Lemma storeNode_other key n t k :
  k <> key ->
  nodes (changes (storeNode key n t).2) !! k = nodes (changes t) !! k.
Proof.
  intros Hk. unfold storeNode, modify. cbv beta zeta. simpl.
  set (t1 := if decide (key = emptyKey) then set_root n t else t).
  assert (Hn : nodes (changes t1) = nodes (changes t)) by (subst t1; by destruct (decide _)).
  clearbody t1. destruct (nodes (changes t1) !! key) as [c|]; [|by rewrite Hn].
  destruct (after c); [|by rewrite Hn]. simpl. rewrite lookup_insert_ne by done.
  by rewrite Hn.
Qed.

Lemma getValue_nodes key t :
  nodes (changes (getValue key t).2) = nodes (changes t).
Proof.
  unfold getValue, parent_getValue. unfold_monad. destruct (invalidated t); [done|].
  simpl. destruct (values (changes t) !! key); [done|].
  destruct (tv_getValue (parentTrie t) key) as [[v|e] raced]; simpl; [|done].
  by destruct (invalidated t || raced).
Qed.

(** The path compression of the view is one local step: it writes the
    entries of the node and of its parent and no other. *)
Lemma compressNodePath_local parent parentKey node_ nodeKey t k :
  k <> nodeKey -> k <> parentKey ->
  nodes (changes (compressNodePath parent parentKey node_ nodeKey t).2) !! k
  = nodes (changes t) !! k.
Proof.
  intros Hn Hp.
  set (I := fun t' : trieView => nodes (changes t') !! k = nodes (changes t) !! k).
  assert (Hrec : forall key aft nn, k <> key -> preserves I (recordKeyChange key aft nn)).
  { intros key aft nn Hk t' Ht'. unfold I in *. by rewrite recordKeyChange_other. }
  assert (Hpres : preserves I (compressNodePath parent parentKey node_ nodeKey)).
  { unfold compressNodePath.
    apply preserves_bind; [apply preserves_get|intros t0].
    destruct (nodesAlreadyCalculated t0); [apply preserves_fail|].
    apply preserves_bind; [by apply preserves_getValue|intros val].
    destruct parent as [p|]; [|apply preserves_ret].
    destruct (map_to_list (children node_)) as [|[index e] [|]]; try apply preserves_ret.
    destruct val; [apply preserves_ret|].
    apply preserves_bind.
    { unfold recordNodeDeleted. destruct (decide _); by apply Hrec. }
    intros _. apply preserves_bind; [|intros _; by apply Hrec].
    intros t' Ht'. unfold I in *. by rewrite storeNode_other. }
  by apply Hpres.
Qed.

(** What the step does when it compresses. *)
Lemma compressNodePath_step parent parentKey node_ nodeKey index e t t1 t' :
  nodesAlreadyCalculated t = false ->
  getValue nodeKey t = (Ok None, t1) ->
  map_to_list (children node_) = [(index, e)] ->
  compressNodePath (Some parent) parentKey node_ nodeKey t = (Ok tt, t') ->
  let edge := compressedEdge parentKey (Extend nodeKey index (compressedKey e)) in
  (exists parent',
     nodeAt t' parentKey = Some parent' /\
     children parent'
     = <[edge.1 := {| compressedKey := edge.2; c_id := c_id e;
                      c_hasValue := c_hasValue e |}]> (children parent)) /\
  (length nodeKey <> 0 -> nodeKey <> parentKey ->
   (after <$> nodes (changes t') !! nodeKey) = Some None).
Proof.
  intros Hflag Hval Hone. unfold compressNodePath.
  unfold bind at 1. unfold get at 1. rewrite Hflag.
  unfold bind at 1. rewrite Hval, Hone.
  intros Hrun.
  apply bind_Ok_inv in Hrun as ([] & t2 & Hdel & Hrun).
  apply bind_Ok_inv in Hrun as ([] & t3 & Hst & Hrun).
  apply recordKeyChange_Ok in Hrun as [(c & Hc & Hafter) Hother].
  cbv zeta. split.
  - eexists. split.
    + unfold nodeAt. rewrite Hc. simpl. exact Hafter.
    + reflexivity.
  - intros Hlen Hne. rewrite Hother by done.
    match type of Hst with storeNode ?a ?b t2 = _ =>
      assert (Ht3 : t3 = (storeNode a b t2).2) by (by rewrite Hst) end.
    rewrite Ht3, storeNode_other by done.
    unfold recordNodeDeleted in Hdel. destruct (decide _); [done|].
    apply recordKeyChange_Ok in Hdel as [(c' & Hc' & Hafter') _].
    rewrite Hc'. simpl. by rewrite Hafter'.
Qed.








(** ** Inserting twice *)

Lemma set_nodes_id t : set_nodes (nodes (changes t)) t = t.
Proof. by destruct t as [? ? ? ? [] ?]. Qed.

Lemma set_values_id t : set_values (values (changes t)) t = t.
Proof. by destruct t as [? ? ? ? [] ?]. Qed.

Lemma set_root_id t : set_root (root t) t = t.
Proof. by destruct t. Qed.

Lemma nodeAt_Some t k n :
  nodeAt t k = Some n <-> exists c, nodes (changes t) !! k = Some c /\ after c = Some n.
Proof.
  unfold nodeAt. destruct (nodes (changes t) !! k) as [c|]; simpl.
  - split; [eauto | by intros (c' & [= <-] & ?)].
  - split; [done | by intros (c' & ? & ?)].
Qed.

Lemma recordValueChange_same key val t c :
  nodesAlreadyCalculated t = false ->
  values (changes t) !! key = Some c -> after c = val ->
  recordValueChange key val t = (Ok tt, t).
Proof.
  intros Hflag Hc Hval. unfold recordValueChange. unfold_monad. rewrite Hflag, Hc.
  f_equal. rewrite <- Hval. destruct c as [b a]. simpl.
  rewrite insert_id by done. apply set_values_id.
Qed.

Lemma recordNodeChange_same key n t :
  nodesAlreadyCalculated t = false -> nodeAt t key = Some n ->
  recordNodeChange key n t = (Ok tt, t).
Proof.
  intros Hflag (c & Hc & Hn)%nodeAt_Some.
  unfold recordNodeChange, recordKeyChange. unfold_monad. rewrite Hflag, Hc.
  f_equal. rewrite <- Hn. destruct c as [b a]. simpl.
  rewrite insert_id by done. apply set_nodes_id.
Qed.

Lemma storeNode_same key n t :
  nodeAt t key = Some n -> (key = emptyKey -> root t = n) ->
  storeNode key n t = (Ok tt, t).
Proof.
  intros (c & Hc & Hn)%nodeAt_Some Hroot. unfold storeNode, modify. f_equal.
  cbv zeta.
  assert ((if decide (key = emptyKey) then set_root n t else t) = t) as ->.
  { destruct (decide _) as [Hk|]; [|done]. rewrite <- (Hroot Hk). apply set_root_id. }
  rewrite Hc, Hn. rewrite <- Hn. destruct c as [b a]. simpl.
  rewrite insert_id by done. apply set_nodes_id.
Qed.

Lemma getNode_recorded key hv n t :
  nodeAt t key = Some n -> getNode key hv t = (Ok n, t).
Proof.
  intros (c & Hc & Hn)%nodeAt_Some. unfold getNode. unfold_monad. by rewrite Hc, Hn.
Qed.

Lemma hasPrefixb_refl (k : Key) : hasPrefixb k k = true.
Proof. induction k as [|x k IH]; simpl; [done|]. by rewrite N.eqb_refl. Qed.

Lemma hasPrefixb_take (k : Key) n : hasPrefixb (take n k) k = true.
Proof.
  revert n. induction k as [|x k IH]; intros [|n]; simpl; try done.
  by rewrite N.eqb_refl.
Qed.

Lemma pathTo_nodeAt t key ck cn :
  pathTo t key ck cn ->
  nodeAt t ck = Some cn /\ (ck = emptyKey -> cn = root t) /\
  nodeAt t emptyKey = Some (root t) /\ ck = take (length ck) key.
Proof.
  induction 1 as [Hr|ck cn e cn' Hp IH Hlt He Hpre Hn].
  - done.
  - destruct IH as (_ & _ & Hr & _). repeat split; [done| |done|apply Take_is_prefix].
    intros Hnil. apply (f_equal length) in Hnil. unfold Take in Hnil.
    rewrite length_take in Hnil. simpl in Hnil. lia.
Qed.

(** A path is still there when the nodes along it are. *)
Lemma pathTo_frame t t' key ck cn :
  pathTo t key ck cn ->
  (forall k, length k <= length ck -> nodeAt t' k = nodeAt t k) ->
  root t' = root t ->
  pathTo t' key ck cn.
Proof.
  intros Hp. induction Hp as [Hr|ck cn e cn' Hp IH Hlt He Hpre Hn]; intros Hsame Hroot.
  - rewrite <- Hroot. constructor. rewrite Hsame by (simpl; lia). by rewrite Hroot.
  - pose proof (length_Take_grows key (length ck)
                  (length ck + 1 + length (compressedKey e)) Hlt) as Hgrow.
    econstructor; eauto.
    + apply IH; [|done]. intros k Hk. apply Hsame. lia.
    + rewrite Hsame by lia. done.
Qed.

(** A path whose last node was written to. *)
Lemma pathTo_update_last t t' key ck cn cn' :
  pathTo t key ck cn ->
  (forall k, length k < length ck -> nodeAt t' k = nodeAt t k) ->
  (ck <> emptyKey -> root t' = root t) ->
  nodeAt t' ck = Some cn' ->
  (ck = emptyKey -> root t' = cn') ->
  pathTo t' key ck cn'.
Proof.
  intros Hp Hsame Hroot Hn Hr.
  inversion Hp as [Hr0 Hk|ck0 cn0 e cn1 Hp0 Hlt He Hpre Hn0 Hk]; subst.
  - rewrite <- (Hr eq_refl). constructor. by rewrite (Hr eq_refl).
  - pose proof (length_Take_grows key (length ck0)
                  (length ck0 + 1 + length (compressedKey e)) Hlt) as Hgrow.
    econstructor; eauto.
    apply (pathTo_frame t); [done| |].
    + intros k Hk. apply Hsame. lia.
    + apply Hroot. intros Hnil. rewrite Hnil in Hgrow. simpl in Hgrow. lia.
Qed.

Lemma pathTo_step' t key ck cn e cn' k' :
  pathTo t key ck cn ->
  length ck < length key ->
  children cn !! Token key (length ck) = Some e ->
  iteratedHasPrefix key (compressedKey e) (length ck + 1) = true ->
  k' = Take key (length ck + 1 + length (compressedKey e)) ->
  nodeAt t k' = Some cn' ->
  pathTo t key k' cn'.
Proof. intros Hp Hlt He Hpre -> Hn. by econstructor. Qed.

(** The walk of [insert] on a view that holds the path already: it goes
    down the path and leaves the view as it is. *)
Lemma visitLoop_recorded_step key fuel ck cn e cn' acc t :
  nodesAlreadyCalculated t = false ->
  length ck < length key ->
  children cn !! Token key (length ck) = Some e ->
  iteratedHasPrefix key (compressedKey e) (length ck + 1) = true ->
  nodeAt t (Take key (length ck + 1 + length (compressedKey e))) = Some cn' ->
  visitLoop key insert_visit (S fuel) ck cn acc t
  = visitLoop key insert_visit fuel
      (Take key (length ck + 1 + length (compressedKey e))) cn'
      (Take key (length ck + 1 + length (compressedKey e)), cn') t.
Proof.
  intros Hflag Hlt He Hpre Hn. simpl.
  destruct (Nat.ltb_spec (length ck) (length key)); [|lia].
  rewrite He, Hpre. simpl. unfold bind at 1.
  rewrite (getNode_recorded _ _ _ _ Hn).
  unfold bind at 1. unfold insert_visit. unfold bind at 1.
  by rewrite recordNodeChange_same.
Qed.

Lemma visitLoop_pathTo_retrace key ck cn t :
  pathTo t key ck cn -> nodesAlreadyCalculated t = false ->
  visitLoop key insert_visit (length key) emptyKey (root t) (emptyKey, root t) t
  = visitLoop key insert_visit (length key - length ck) ck cn (ck, cn) t.
Proof.
  intros Hp Hflag. induction Hp as [Hr|ck cn e cn' Hp IH Hlt He Hpre Hn].
  - simpl. by rewrite Nat.sub_0_r.
  - rewrite IH.
    pose proof (length_Take_grows key (length ck)
                  (length ck + 1 + length (compressedKey e)) Hlt) as Hgrow.
    destruct (length key - length ck) as [|m] eqn:Hm; [lia|].
    rewrite (visitLoop_recorded_step key m ck cn e cn') by done.
    apply visitLoop_fuel; lia.
Qed.

Lemma visitPathToKey_pathTo_retrace key ck cn acc t :
  pathTo t key ck cn -> nodesAlreadyCalculated t = false ->
  length key <= length ck ->
  visitPathToKey key insert_visit acc t = (Ok (ck, cn), t).
Proof.
  intros Hp Hflag Hlen. unfold visitPathToKey. unfold bind at 1. unfold get at 1.
  unfold bind at 1. unfold insert_visit at 1. unfold bind at 1.
  destruct (pathTo_nodeAt _ _ _ _ Hp) as (_ & _ & Hr & _).
  rewrite recordNodeChange_same by done. unfold ret at 1.
  rewrite (visitLoop_pathTo_retrace key ck cn t Hp Hflag).
  destruct (length key - length ck); simpl;
    destruct (Nat.ltb_spec (length ck) (length key)); (lia || done).
Qed.

(** What the writes of the view do to its nodes. *)
Lemma callParent_same {A} (f : TrieView -> result A * bool) t :
  changes (callParent f t).2 = changes t /\ root (callParent f t).2 = root t /\
  nodesAlreadyCalculated (callParent f t).2 = nodesAlreadyCalculated t.
Proof. unfold callParent. by destruct (f (parentTrie t)). Qed.

Lemma getNode_same key hv t :
  changes (getNode key hv t).2 = changes t /\ root (getNode key hv t).2 = root t.
Proof.
  unfold getNode. unfold_monad. destruct (nodes (changes t) !! key) as [c|].
  - by destruct (after c).
  - unfold parent_getEditableNode. unfold callParent. by destruct (tv_getEditableNode _ _ _).
Qed.

Lemma recordKeyChange_Ok_nodeAt key n newNode t t' :
  recordKeyChange key (Some n) newNode t = (Ok tt, t') ->
  nodeAt t' key = Some n /\
  (forall k, k <> key -> nodeAt t' k = nodeAt t k) /\
  root t' = root t.
Proof.
  intros Hrec. pose proof (recordKeyChange_Ok _ _ _ _ _ Hrec) as [(c & Hc & Ha) Hother].
  split; [apply nodeAt_Some; eauto|]. split.
  - intros k Hk. unfold nodeAt. by rewrite Hother.
  - assert (Hpres : preserves (fun t0 => root t0 = root t)
                      (recordKeyChange key (Some n) newNode)).
    { apply (preserves_recordKeyChange _ (fun _ _ => True)); done. }
    specialize (Hpres t eq_refl). by rewrite Hrec in Hpres.
Qed.

Lemma storeNode_nodeAt key n old t :
  nodeAt t key = Some old ->
  nodeAt (storeNode key n t).2 key = Some n /\
  (forall k, k <> key -> nodeAt (storeNode key n t).2 k = nodeAt t k) /\
  (key = emptyKey -> root (storeNode key n t).2 = n) /\
  (key <> emptyKey -> root (storeNode key n t).2 = root t).
Proof.
  intros (c & Hc & Hold)%nodeAt_Some.
  split; [|split; [|split]].
  - unfold storeNode, modify, nodeAt. cbv zeta. simpl.
    destruct (decide (key = emptyKey)); simpl; rewrite Hc, Hold; simpl;
      by rewrite lookup_insert_eq.
  - intros k Hk. unfold nodeAt. by rewrite storeNode_other.
  - intros Hk. unfold storeNode, modify. cbv zeta. simpl.
    destruct (decide (key = emptyKey)); [|done]. simpl. rewrite Hc, Hold. done.
  - intros Hk. unfold storeNode, modify. cbv zeta. simpl.
    destruct (decide (key = emptyKey)); [done|]. rewrite Hc, Hold. done.
Qed.

(** The walk of [insert] leaves the path it went in the change set. *)
Lemma visitLoop_insert_pathTo key fuel ck cn t r t' :
  visitLoop key insert_visit fuel ck cn (ck, cn) t = (Ok r, t') ->
  pathTo t key ck cn ->
  pathTo t' key r.1 r.2.
Proof.
  revert ck cn t. induction fuel as [|fuel IH]; intros ck cn t; simpl.
  - destruct (_ <? _); by intros [= <- <-].
  - destruct (Nat.ltb_spec (length ck) (length key)) as [Hlt|]; [|by intros [= <- <-]].
    destruct (children cn !! Token key (length ck)) as [e|] eqn:He; [|by intros [= <- <-]].
    destruct (iteratedHasPrefix key (compressedKey e) (length ck + 1)) eqn:Hpre;
      [|by intros [= <- <-]].
    simpl. intros Hrun Hp.
    apply bind_Ok_inv in Hrun as (n' & t1 & Hget & Hrun).
    apply bind_Ok_inv in Hrun as (acc' & t2 & Hvisit & Hrun).
    pose proof (insert_visit_Ok _ _ _ _ _ _ Hvisit) as ->.
    unfold insert_visit in Hvisit.
    apply bind_Ok_inv in Hvisit as ([] & t2' & Hrec & Hret). injection Hret as <-.
    apply recordKeyChange_Ok_nodeAt in Hrec as (Hn' & Hother & Hroot).
    pose proof (getNode_same (Take key (length ck + 1 + length (compressedKey e)))
                  (c_hasValue e) t) as [Hch Hrt].
    rewrite Hget in Hch, Hrt. simpl in Hch, Hrt.
    pose proof (length_Take_grows key (length ck)
                  (length ck + 1 + length (compressedKey e)) Hlt) as Hgrow.
    apply (IH _ _ _ Hrun).
    econstructor; eauto.
    apply (pathTo_frame t); [done| |congruence].
    intros k Hk. rewrite Hother.
    + unfold nodeAt. by rewrite Hch.
    + intros ->. lia.
Qed.

Lemma visitPathToKey_insert_pathTo key acc t r t' :
  visitPathToKey key insert_visit acc t = (Ok r, t') ->
  pathTo t' key r.1 r.2.
Proof.
  unfold visitPathToKey. intros Hrun.
  apply bind_Ok_inv in Hrun as (t0 & t0' & Hget & Hrun). injection Hget as <- <-.
  apply bind_Ok_inv in Hrun as (acc' & t1 & Hvisit & Hrun).
  pose proof (insert_visit_Ok _ _ _ _ _ _ Hvisit) as ->.
  unfold insert_visit in Hvisit.
  apply bind_Ok_inv in Hvisit as ([] & t1' & Hrec & Hret). injection Hret as <-.
  apply recordKeyChange_Ok_nodeAt in Hrec as (Hn & _ & Hroot).
  apply (visitLoop_insert_pathTo _ _ _ _ _ _ _ Hrun).
  rewrite <- Hroot. constructor. by rewrite Hroot.
Qed.

(** The walk and what follows it leave the value changes alone. *)
Lemma insert_walk_keeps_values key acc t :
  values (changes (visitPathToKey key insert_visit acc t).2) = values (changes t) /\
  nodesAlreadyCalculated (visitPathToKey key insert_visit acc t).2
  = nodesAlreadyCalculated t.
Proof.
  set (I := fun t' : trieView => values (changes t') = values (changes t) /\
                                 nodesAlreadyCalculated t' = nodesAlreadyCalculated t).
  assert (Hpres : preserves I (visitPathToKey key insert_visit acc)).
  { apply preserves_visitPathToKey.
    - intros k hv. by apply preserves_getNode.
    - intros k n a. unfold insert_visit.
      apply preserves_bind; [|intros; apply preserves_ret].
      by apply (preserves_recordKeyChange _ (fun _ _ => True)). }
  by apply Hpres.
Qed.

Lemma insertAt_keeps_values key val ck cn t :
  values (changes (insertAt key val ck cn t).2) = values (changes t) /\
  nodesAlreadyCalculated (insertAt key val ck cn t).2 = nodesAlreadyCalculated t.
Proof.
  set (I := fun t' : trieView => values (changes t') = values (changes t) /\
                                 nodesAlreadyCalculated t' = nodesAlreadyCalculated t).
  assert (Hpres : preserves I (insertAt key val ck cn)).
  { by apply (preserves_insertAt _ (fun _ _ => True)). }
  by apply Hpres.
Qed.

Lemma recordValueChange_Ok key val t t' :
  recordValueChange key val t = (Ok tt, t') ->
  nodesAlreadyCalculated t' = false /\
  exists c, values (changes t') !! key = Some c /\ after c = val.
Proof.
  unfold recordValueChange. unfold bind at 1. unfold get at 1.
  destruct (nodesAlreadyCalculated t) eqn:Hflag; [discriminate|].
  destruct (values (changes t) !! key) as [existing|].
  - intros [= <-]. split; [done|]. simpl. eexists. by rewrite lookup_insert_eq.
  - unfold bind, parent_getValue, callParent, modify.
    destruct (tv_getValue (parentTrie t) key) as [[bef|e] raced]; [|discriminate].
    intros [= <-]. split; [done|]. simpl. eexists. by rewrite lookup_insert_eq.
Qed.

Lemma Token_Take (k : Key) n i : i < n -> Token (Take k n) i = Token k i.
Proof. intros Hi. unfold Token, Take. by rewrite !nth_lookup, lookup_take_lt. Qed.

Lemma Token_Skip (k : Key) m i : Token (Skip k m) i = Token k (m + i).
Proof. unfold Token, Skip. by rewrite !nth_lookup, lookup_drop. Qed.

Lemma Skip_Take (k : Key) m c : Skip (Take k (m + c)) m = take c (Skip k m).
Proof. unfold Skip, Take. by rewrite take_drop_commute. Qed.

Lemma commonPrefixLen_le_r a b : commonPrefixLen a b <= length b.
Proof.
  revert b. induction a as [|x a IH]; intros [|y b]; simpl; try lia.
  destruct (N.eqb x y); [specialize (IH b)|]; lia.
Qed.

(** Past their common prefix two keys differ. *)
Lemma commonPrefixLen_mismatch a b :
  commonPrefixLen a b < length a -> commonPrefixLen a b < length b ->
  Token a (commonPrefixLen a b) <> Token b (commonPrefixLen a b).
Proof.
  unfold Token. revert b. induction a as [|x a IH]; intros [|y b]; simpl; try lia.
  destruct (N.eqb_spec x y) as [->|Hne]; simpl.
  - intros Ha Hb. apply IH; lia.
  - done.
Qed.

Lemma walkStopped_short key ck cn :
  walkStopped key ck cn -> ck <> key -> length ck < length key.
Proof.
  intros [Hpre _] Hne. destruct (Nat.lt_ge_cases (length ck) (length key)); [done|].
  exfalso. apply Hne. rewrite Hpre. by apply take_ge.
Qed.

Lemma Take_to_end (key : Key) m :
  m <= length key -> Take key (m + length (Skip key m)) = key.
Proof.
  intros Hm. unfold Take, Skip. rewrite length_drop. apply take_ge. lia.
Qed.

Lemma iteratedHasPrefix_Skip (key : Key) m :
  iteratedHasPrefix key (Skip key m) m = true.
Proof. unfold iteratedHasPrefix, Skip. apply hasPrefixb_refl. Qed.

Lemma setValue_value val n : value n = val -> setValue val n = n.
Proof. intros <-. by destruct n. Qed.

Lemma storeNode_Ok_nodeAt key n old t t' :
  storeNode key n t = (Ok tt, t') ->
  nodeAt t key = Some old ->
  nodeAt t' key = Some n /\
  (forall k, k <> key -> nodeAt t' k = nodeAt t k) /\
  (key = emptyKey -> root t' = n) /\
  (key <> emptyKey -> root t' = root t).
Proof.
  intros Hst Hold. assert (t' = (storeNode key n t).2) as -> by (by rewrite Hst).
  by eapply storeNode_nodeAt.
Qed.

(** After the walk, [insertAt] leaves a path down to a node with the key
    and the value inserted. *)
Lemma insertAt_pathTo key val ck cn t n t1 :
  pathTo t key ck cn -> walkStopped key ck cn ->
  insertAt key val ck cn t = (Ok n, t1) ->
  pathTo t1 key key n /\ value n = val.
Proof.
  intros Hp Hstop. destruct (pathTo_nodeAt _ _ _ _ Hp) as (Hnck & _ & _ & _).
  unfold insertAt. destruct (decide (ck = key)) as [->|Hne].
  { intros Hrun. apply bind_Ok_inv in Hrun as ([] & t' & Hst & Hret).
    injection Hret as <- <-.
    destruct (storeNode_Ok_nodeAt _ _ _ _ _ Hst Hnck) as (H1 & H2 & H3 & H4).
    split; [|done]. eapply pathTo_update_last; eauto.
    intros k Hk. apply H2. intros ->. lia. }
  pose proof (walkStopped_short _ _ _ Hstop Hne) as Hlt.
  destruct (children cn !! Token key (length ck)) as [e0|] eqn:He.
  2: { (* a new leaf under the closest node *)
    intros Hrun. apply bind_Ok_inv in Hrun as ([] & ta & Hst & Hrun).
    apply bind_Ok_inv in Hrun as ([] & tb & Hrec & Hret). injection Hret as <- <-.
    destruct (storeNode_Ok_nodeAt _ _ _ _ _ Hst Hnck) as (H1 & H2 & H3 & H4).
    apply recordKeyChange_Ok_nodeAt in Hrec as (Hk & Hother & Hroot).
    split; [|done].
    eapply pathTo_step'; [| exact Hlt | | | | exact Hk].
    - apply (pathTo_frame ta).
      + eapply pathTo_update_last; eauto. intros k Hlen. apply H2. intros ->. lia.
      + intros k Hlen. apply Hother. intros ->. lia.
      + done.
    - simpl. apply lookup_insert_eq.
    - simpl. apply iteratedHasPrefix_Skip.
    - simpl. rewrite <- Nat.add_assoc. symmetry.
      rewrite Nat.add_assoc. apply Take_to_end. lia. }
  (* a branch node between the closest node and its child *)
  rewrite getLengthOfCommonPrefix_spec.
  set (m := length ck + 1).
  set (cpl := commonPrefixLen (compressedKey e0) (Skip key m)).
  destruct (Nat.leb_spec (length (compressedKey e0)) cpl) as [|Hgt]; [discriminate|].
  assert (Hcplr : cpl <= length key - m).
  { pose proof (commonPrefixLen_le_r (compressedKey e0) (Skip key m)) as Hle.
    unfold Skip in Hle. rewrite length_drop in Hle. done. }
  set (bk := Take key (m + cpl)).
  assert (Hbklen : length bk = m + cpl).
  { unfold bk, Take. rewrite length_take. lia. }
  assert (Htok : Token bk (length ck) = Token key (length ck)).
  { apply Token_Take. lia. }
  assert (Hskip : Skip bk m = take cpl (Skip key m)) by apply Skip_Take.
  assert (Hcklen : length (Skip bk m) = cpl).
  { rewrite Hskip, length_take. unfold Skip. rewrite length_drop. lia. }
  assert (Hpfx : iteratedHasPrefix key (Skip bk m) m = true).
  { rewrite Hskip. unfold iteratedHasPrefix, Skip. apply hasPrefixb_take. }
  intros Hrun. apply bind_Ok_inv in Hrun as ([] & ta & Hst & Hrun).
  destruct (storeNode_Ok_nodeAt _ _ _ _ _ Hst Hnck) as (H1 & H2 & H3 & H4).
  match type of H1 with nodeAt ta ck = Some ?x => set (cn2 := x) in * end.
  assert (Hpa : pathTo ta key ck cn2).
  { eapply pathTo_update_last; eauto. intros k Hlen. apply H2. intros ->. lia. }
  assert (Hchild : children cn2 !! Token key (length ck)
                   = Some {| compressedKey := Skip bk m; c_id := ids_Empty;
                             c_hasValue := false |}).
  { unfold cn2. simpl. rewrite Htok. apply lookup_insert_eq. }
  destruct (decide (length key = length bk)) as [Heq|Hneq].
  - (* the branch node has the key *)
    apply bind_Ok_inv in Hrun as ([] & tb & Hrec & Hret). injection Hret as <- <-.
    apply recordKeyChange_Ok_nodeAt in Hrec as (Hk & Hother & Hroot).
    assert (Hbk : bk = key).
    { unfold bk, Take. apply take_ge. lia. }
    split; [|done].
    eapply pathTo_step'; [| exact Hlt | exact Hchild | exact Hpfx | |].
    + apply (pathTo_frame ta); [done| |done].
      intros k Hlen. apply Hother. intros ->. lia.
    + simpl. fold m. rewrite Hcklen. by fold bk.
    + by rewrite <- Hbk at 1.
  - (* the key is a child of the branch node *)
    apply bind_Ok_inv in Hrun as ([] & tb & Hrec1 & Hrun).
    apply bind_Ok_inv in Hrun as ([] & tc & Hrec2 & Hret). injection Hret as <- <-.
    apply recordKeyChange_Ok_nodeAt in Hrec1 as (Hk1 & Hother1 & Hroot1).
    apply recordKeyChange_Ok_nodeAt in Hrec2 as (Hk2 & Hother2 & Hroot2).
    assert (Hbklt : length bk < length key) by lia.
    assert (Hne2 : key <> bk) by (intros Habs; rewrite <- Habs in Hneq; done).
    split; [|done].
    eapply pathTo_step'; [| exact Hbklt | | | |].
    + eapply pathTo_step'; [| exact Hlt | exact Hchild | exact Hpfx | | exact Hk2].
      * apply (pathTo_frame ta); [done| |congruence].
        intros k Hlen. rewrite Hother2 by (intros ->; lia).
        apply Hother1. intros ->. lia.
      * simpl. fold m. rewrite Hcklen. by fold bk.
    + simpl. rewrite lookup_insert_ne.
      * apply lookup_insert_eq.
      * rewrite Hbklen. rewrite <- (Token_Skip key m cpl).
        apply commonPrefixLen_mismatch; [done|].
        change (cpl < length (Skip key m)).
        unfold Skip. rewrite length_drop. lia.
    + simpl. apply iteratedHasPrefix_Skip.
    + simpl. symmetry. apply Take_to_end. lia.
    + rewrite Hother2 by done. exact Hk1.
Qed.

(** Inserting a pair a second time does nothing: the view is left as the
    first insertion left it, and the same node is returned. *)
Lemma insert_twice key val t n t1 :
  insert key val t = (Ok n, t1) -> insert key val t1 = (Ok n, t1).
Proof.
  unfold insert at 1. intros Hrun.
  apply bind_Ok_inv in Hrun as (t0 & t0' & Hget & Hrun). injection Hget as <- <-.
  destruct (nodesAlreadyCalculated t) eqn:Hflag; [discriminate|].
  apply bind_Ok_inv in Hrun as ([] & ta & Hrv & Hrun).
  apply bind_Ok_inv in Hrun as (closest & tb & Hwalk & Hat).
  apply recordValueChange_Ok in Hrv as (Hfa & c & Hc & Hval).
  pose proof (insert_walk_keeps_values key (emptyKey, newNode) ta) as [Hvb Hfb].
  rewrite Hwalk in Hvb, Hfb. simpl in Hvb, Hfb.
  pose proof (insertAt_keeps_values key val closest.1 closest.2 tb) as [Hv1 Hf1].
  rewrite Hat in Hv1, Hf1. simpl in Hv1, Hf1.
  pose proof (visitPathToKey_insert_pathTo _ _ _ _ _ Hwalk) as Hp.
  pose proof (visitPathToKey_insert_stops _ _ _ _ _ Hwalk) as Hstop.
  destruct (insertAt_pathTo _ _ _ _ _ _ _ Hp Hstop Hat) as [Hp1 Hvn].
  assert (Hflag1 : nodesAlreadyCalculated t1 = false) by congruence.
  destruct (pathTo_nodeAt _ _ _ _ Hp1) as (Hnk & Hrk & _ & _).
  unfold insert. unfold bind at 1. unfold get at 1. rewrite Hflag1.
  unfold bind at 1.
  rewrite (recordValueChange_same key val t1 c) by congruence.
  unfold bind at 1.
  rewrite (visitPathToKey_pathTo_retrace key key n) by (done || lia).
  simpl. unfold insertAt. rewrite decide_True by done.
  rewrite (setValue_value val n Hvn). unfold bind.
  rewrite storeNode_same; [done | done |]. intros Hk. symmetry. by apply Hrk.
Qed.

(** Removing a key that has no value in the parent leaves the trie of the
    view alone. *)
Lemma remove_without_parent_value key t :
  (forall c, values (changes t) !! key = Some c -> before c = None) ->
  (values (changes t) !! key = None -> (tv_getValue (parentTrie t) key).1 = Ok None) ->
  nodes (changes (remove key t).2) = nodes (changes t) /\ root (remove key t).2 = root t.
Proof.
  intros Hbefore Hparent.
  destruct (remove key t) as [r t'] eqn:Hrun. simpl.
  unfold remove in Hrun. unfold bind at 1 in Hrun. unfold get at 1 in Hrun.
  destruct (nodesAlreadyCalculated t) eqn:Hflag; [by injection Hrun as _ <-|].
  unfold bind at 1 in Hrun. unfold recordValueChange in Hrun.
  unfold bind at 1 in Hrun. unfold get at 1 in Hrun. rewrite Hflag in Hrun.
  destruct (values (changes t) !! key) as [c|] eqn:Hc.
  - unfold modify in Hrun. unfold bind at 1 in Hrun. unfold get at 1 in Hrun.
    simpl in Hrun. rewrite lookup_insert_eq in Hrun. simpl in Hrun.
    rewrite (Hbefore c eq_refl) in Hrun. simpl in Hrun. by injection Hrun as _ <-.
  - unfold bind at 1 in Hrun. unfold parent_getValue, callParent in Hrun.
    specialize (Hparent eq_refl).
    destruct (tv_getValue (parentTrie t) key) as [r' raced]. simpl in Hparent. subst r'.
    unfold modify in Hrun. unfold bind at 1 in Hrun. unfold get at 1 in Hrun.
    simpl in Hrun. rewrite lookup_insert_eq in Hrun. simpl in Hrun.
    by injection Hrun as _ <-.
Qed.

(** C8: inserting the same pair twice leaves the view, and so its root, as
    the first insertion left it, and removing a key that has no value in
    the parent leaves the trie of the view alone.  But removing a key that
    is absent from the view can change the trie: in the view that deletes
    [abc] and [ab], once [abc] has been removed the key [ab] has no value in
    the view and no node in its trie; [remove] for [ab] nevertheless walks
    to the node [a] and clears its value, so that the hash input of [a],
    and with it the ID of the root, is another one. *)
Theorem insert_twice_same_remove_of_absent_key_changes_root :
  (forall key val t n t1,
     insert key val t = (Ok n, t1) -> insert key val t1 = (Ok n, t1)) /\
  (forall key t,
     (forall c, values (changes t) !! key = Some c -> before c = None) ->
     (values (changes t) !! key = None ->
      (tv_getValue (parentTrie t) key).1 = Ok None) ->
     nodes (changes (remove key t).2) = nodes (changes t) /\
     root (remove key t).2 = root t) /\
  forall (ComputeHash256 : bytes -> bytes)
         (encodeHashValues : Key -> node -> Maybe bytes -> bytes),
    let abc : Key := [1; 2; 3]%N in
    let ab : Key := [1; 2]%N in
    let a : Key := [1%N] in
    let nodeA (v : Maybe bytes) : node :=
      {| value := v; children := {[ 2%N := entry [4%N] true ]} |} in
    let rootWith (idA : ID) (hv : bool) : node :=
      {| value := None;
         children := {[ 1%N := {| compressedKey := []; c_id := idA; c_hasValue := hv |} ]} |} in
    let rootIDOf (t : trieView) : result ID :=
      (calculateNodeIDsHelper ComputeHash256 encodeHashValues
         (S (size (nodes (changes t)))) emptyKey (root t) (value (root t)) t).1 in
    exists t0 : trieView,
      newTrieView byteTokens (dbTrie exampleTrie) deleteTwo = Ok t0 /\
      let t1 := (remove abc t0).2 in
      let t2 := (remove ab t1).2 in
      (remove abc t0).1 = Ok tt /\
      (getValue ab t1).1 = Ok None /\
      (after <$> nodes (changes t1) !! ab) = Some None /\
      (remove ab t1).1 = Ok tt /\
      nodeAt t1 a = Some (nodeA (Some [x0a])) /\
      nodeAt t2 a = Some (nodeA None) /\
      (getValue a t2).1 = Ok (Some [x0a]) /\
      rootIDOf t1
      = Ok (ComputeHash256 (encodeHashValues emptyKey
              (rootWith (ComputeHash256
                           (encodeHashValues a (nodeA (Some [x0a])) (Some [x0a]))) true)
              None)) /\
      rootIDOf t2
      = Ok (ComputeHash256 (encodeHashValues emptyKey
              (rootWith (ComputeHash256 (encodeHashValues a (nodeA None) None)) false)
              None)).
Proof.
  split; [exact insert_twice|]. split; [exact remove_without_parent_value|].
  intros H enc abc ab a nodeA rootWith rootIDOf.
  destruct (newTrieView byteTokens (dbTrie exampleTrie) deleteTwo) as [t0|e] eqn:Hnew;
    [|by vm_compute in Hnew].
  vm_compute in Hnew. injection Hnew as <-.
  eexists.
  split; [reflexivity|].
  split; [by vm_compute|].
  split; [by vm_compute|].
  split; [by vm_compute|].
  split; [by vm_compute|].
  split; [by vm_compute|].
  split; [by vm_compute|].
  split; [by vm_compute|].
  split; by vm_compute.
Qed.

Lemma insert_twice_same_remove_of_absent_key_changes_root_witness :
  let t := freshView (dbTrie exampleTrie) exampleRoot in
  let once := insert [1; 2; 5]%N (Some [x01]) t in
  insert [1; 2; 5]%N (Some [x01]) once.2 = once.
Proof.
  intros t once.
  destruct once as [[n|e] t1] eqn:Hrun; [|by vm_compute in Hrun].
  simpl. exact (proj1 insert_twice_same_remove_of_absent_key_changes_root _ _ _ _ _ Hrun).
Defined.

(** ** Removal in the order Go happens to choose *)

(** Where [compressNodePath] does not compress it only reads. *)
Lemma compressNodePath_nothing parent parentKey node_ nodeKey val t t1 :
  nodesAlreadyCalculated t = false ->
  getValue nodeKey t = (Ok val, t1) ->
  parent = None \/ size (children node_) <> 1 \/ val <> None ->
  compressNodePath parent parentKey node_ nodeKey t = (Ok tt, t1).
Proof.
  intros Hflag Hval Hcase. unfold compressNodePath.
  unfold bind at 1. unfold get at 1. rewrite Hflag.
  unfold bind at 1. rewrite Hval.
  destruct parent as [p|]; [|done].
  pose proof (length_map_to_list (children node_)) as Hsize.
  destruct (map_to_list (children node_)) as [|[index e] [|]]; try done.
  destruct val; [done|]. simpl in Hsize. destruct Hcase as [|[|]]; done.
Qed.

(** C1: [compressNodePath], given a parent and a node with exactly one
    child for whose key the view has no value, deletes the node and rewires
    the parent's child entry to the grandchild, and otherwise does nothing.
    The invariant itself is broken by [remove].  A view deletes [abc] and
    [ab] from the trie with the keys [a], [ab], [abc], [abd].  When
    [calculateNodeIDs] meets [abc] first, removing it compresses the node
    [ab] away (its value change is already recorded); [remove] for [ab] then
    walks to the node [a], does not see that it has not reached [ab], and
    clears the value of [a]: the node [a] is left in the trie without a
    value and with one child.  Met in the other order the two removals
    keep the invariant. *)
Theorem compressNodePath_step_but_remove_breaks_compression :
  (forall parent parentKey node_ nodeKey index e t t1 t',
     nodesAlreadyCalculated t = false ->
     getValue nodeKey t = (Ok None, t1) ->
     map_to_list (children node_) = [(index, e)] ->
     compressNodePath (Some parent) parentKey node_ nodeKey t = (Ok tt, t') ->
     (exists parent',
        nodeAt t' parentKey = Some parent' /\
        children parent'
        = <[(compressedEdge parentKey (Extend nodeKey index (compressedKey e))).1 :=
              {| compressedKey :=
                   (compressedEdge parentKey (Extend nodeKey index (compressedKey e))).2;
                 c_id := c_id e; c_hasValue := c_hasValue e |}]> (children parent)) /\
     (length nodeKey <> 0 -> nodeKey <> parentKey ->
      (after <$> nodes (changes t') !! nodeKey) = Some None)) /\
  (forall parent parentKey node_ nodeKey val t t1,
     nodesAlreadyCalculated t = false ->
     getValue nodeKey t = (Ok val, t1) ->
     parent = None \/ size (children node_) <> 1 \/ val <> None ->
     compressNodePath parent parentKey node_ nodeKey t = (Ok tt, t1)) /\
  forall (ComputeHash256 : bytes -> bytes)
         (encodeHashValues : Key -> node -> Maybe bytes -> bytes),
    let abc : Key := [1; 2; 3]%N in
    let ab : Key := [1; 2]%N in
    let a : Key := [1%N] in
    exists t0 : trieView,
      map_Forall (fun (key : Key) n => key <> emptyKey -> compressed n) exampleTrie /\
      newTrieView byteTokens (dbTrie exampleTrie) deleteTwo = Ok t0 /\
      compressionInvariant t0 /\
      let bad := calculateNodeIDs ComputeHash256 encodeHashValues [abc; ab] t0 in
      let good := calculateNodeIDs ComputeHash256 encodeHashValues [ab; abc] t0 in
      bad.1 = Ok tt /\
      ~ compressionInvariant bad.2 /\
      (exists n, nodeAt bad.2 a = Some n /\ value n = None /\
                 size (children n) = 1 /\
                 compressedKey <$> children (root bad.2) !! 1%N = Some []) /\
      (getValue a bad.2).1 = Ok (Some [x0a]) /\
      good.1 = Ok tt /\
      compressionInvariant good.2 /\
      (value <$> nodeAt good.2 a) = Some (Some [x0a]).
Proof.
  split; [intros; by eapply compressNodePath_step|].
  split; [exact compressNodePath_nothing|].
  intros H enc abc ab a.
  destruct (newTrieView byteTokens (dbTrie exampleTrie) deleteTwo) as [t0|e] eqn:Hnew;
    [|by vm_compute in Hnew].
  vm_compute in Hnew. injection Hnew as <-.
  eexists. split; [refine (bool_decide_eq_true_1 _ _); by vm_compute|].
  split; [reflexivity|].
  split; [refine (bool_decide_eq_true_1 _ _); by vm_compute|].
  split; [by vm_compute|].
  split; [refine (bool_decide_eq_false_1 _ _); by vm_compute|].
  split.
  { eexists. split; [by vm_compute|]. by vm_compute. }
  split; [by vm_compute|].
  split; [by vm_compute|].
  split; [refine (bool_decide_eq_true_1 _ _); by vm_compute|].
  by vm_compute.
Qed.


Lemma compressNodePath_step_but_remove_breaks_compression_witness :
  let t := freshView (dbTrie branchTrie) branchRoot in
  let ab : Key := [1; 2]%N in
  (exists parent',
     nodeAt (compressNodePath (Some branchRoot) [] branchAB ab t).2 [] = Some parent' /\
     children parent' = <[1%N := entry [2; 4]%N true]> (children branchRoot)) /\
  compressNodePath None [] branchRoot [] t = (Ok tt, (getValue [] t).2).
Proof.
  intros t ab.
  destruct compressNodePath_step_but_remove_breaks_compression as (Hstep & Hnothing & _).
  split.
  - apply (Hstep branchRoot [] branchAB ab 4%N (entry [] true) t (getValue ab t).2).
    + reflexivity.
    + apply injective_projections; [by vm_compute | reflexivity].
    + by vm_compute.
    + apply injective_projections; [by vm_compute | reflexivity].
  - apply (Hnothing None [] branchRoot [] None t).
    + reflexivity.
    + apply injective_projections; [by vm_compute | reflexivity].
    + by left.
Defined.

(** * Further properties of the view *)

(** ** The methods that read *)

Lemma sameButInvalidated_refl t : sameButInvalidated t t.
Proof. by repeat split. Qed.

Lemma sameButInvalidated_step t t' b :
  sameButInvalidated t t' ->
  sameButInvalidated t (set_invalidated (invalidated t' || b) t').
Proof.
  intros (Hc & Hr & Hp & Hn & Ho & Hi). repeat split; simpl; try done.
  intros H. by rewrite (Hi H).
Qed.

Lemma sameButInvalidated_valid t t' :
  sameButInvalidated t t' -> invalidated t' = false -> t' = t.
Proof.
  destruct t as [a b c d e f], t' as [a' b' c' d' e' f'].
  unfold sameButInvalidated. simpl.
  intros (-> & -> & -> & -> & -> & Hi) ->. f_equal.
  destruct c; [by rewrite Hi | done].
Qed.

Lemma sameButInvalidated_trans t1 t2 t3 :
  sameButInvalidated t1 t2 -> sameButInvalidated t2 t3 -> sameButInvalidated t1 t3.
Proof.
  intros (Hc & Hr & Hp & Hn & Ho & Hi) (Hc' & Hr' & Hp' & Hn' & Ho' & Hi').
  repeat split; try congruence. auto.
Qed.

Lemma getValueCopy_eq key : getValueCopy key = (val <- getValue key ;; ret val).
Proof. reflexivity. Qed.

Lemma getValueCopy_getValue key t : getValueCopy key t = getValue key t.
Proof.
  unfold getValueCopy, bind, ret. by destruct (getValue key t) as [[v|e] t'].
Qed.

Lemma getValue_sameButInvalidated key t : sameButInvalidated t (getValue key t).2.
Proof.
  apply (preserves_getValue (sameButInvalidated t)); [|apply sameButInvalidated_refl].
  intros t' b. apply sameButInvalidated_step.
Qed.

Lemma GetValues_sameButInvalidated ToKey keys t :
  sameButInvalidated t (GetValues ToKey keys t).2.
Proof.
  revert t. induction keys as [|key keys IH]; intros t; simpl.
  - apply sameButInvalidated_refl.
  - rewrite getValueCopy_getValue.
    pose proof (getValue_sameButInvalidated (ToKey key) t) as H1.
    destruct (getValue (ToKey key) t) as [r t1]. simpl in H1.
    specialize (IH t1). destruct (GetValues ToKey keys t1) as [[res errs] t2].
    simpl in IH.
    assert (sameButInvalidated t t2) by by eapply sameButInvalidated_trans.
    by destruct r as [[v|]|e].
Qed.

(** X1: the methods of a view that read ([getValue], [getNode],
    [getEditableNode], [GetValue], [GetValues], [getProof]) write nothing:
    whatever they return, the change set, the root, the parent and the
    flags of the calculation are as before; the only field that can differ
    is [invalidated], which a call into the parent may have set and which is
    never reset. *)
Theorem reads_never_write :
  forall (ComputeHash256 : bytes -> bytes) (ToKey : bytes -> Key) (t : trieView),
    (forall key, sameButInvalidated t (getValue key t).2) /\
    (forall key hv, sameButInvalidated t (getNode key hv t).2) /\
    (forall key hv, sameButInvalidated t (getEditableNode key hv t).2) /\
    (forall key, sameButInvalidated t (GetValue ToKey key t).2) /\
    (forall keys, sameButInvalidated t (GetValues ToKey keys t).2) /\
    (forall key, sameButInvalidated t (getProof ComputeHash256 ToKey key t).2).
Proof.
  intros H ToKey t.
  assert (Hstep : forall t' b, sameButInvalidated t t' ->
                    sameButInvalidated t (set_invalidated (invalidated t' || b) t'))
    by (intros; by apply sameButInvalidated_step).
  pose proof (sameButInvalidated_refl t) as Hrefl.
  repeat split_and.
  - intros key. apply getValue_sameButInvalidated.
  - intros key hv. by apply (preserves_getNode (sameButInvalidated t)).
  - intros key hv. revert Hrefl. generalize t at 2 4. fold (preserves (sameButInvalidated t) (getEditableNode key hv)).
    unfold getEditableNode.
    apply preserves_bind; [apply preserves_isInvalid|intros inv].
    destruct inv; [apply preserves_fail|].
    apply preserves_bind; [by apply preserves_getNode|intros n].
    apply preserves_bind; [apply preserves_isInvalid|intros inv].
    destruct inv; [apply preserves_fail|apply preserves_ret].
  - intros key. revert Hrefl. generalize t at 2 4.
    fold (preserves (sameButInvalidated t) (GetValue ToKey key)).
    unfold GetValue, getValueCopy.
    apply preserves_bind; [|intros [v|]; [apply preserves_ret|apply preserves_fail]].
    apply preserves_bind; [by apply preserves_getValue|intros; apply preserves_ret].
  - intros keys. apply GetValues_sameButInvalidated.
  - intros key. by apply (preserves_getProof (sameButInvalidated t)).
Qed.

Lemma getValue_invalid key t :
  invalidated t = true -> getValue key t = (Err ErrInvalid, t).
Proof. intros H. unfold getValue, bind, isInvalid. by rewrite H. Qed.

Lemma GetValue_getValue ToKey key t :
  GetValue ToKey key t
  = match getValue (ToKey key) t with
    | (Ok (Some v), t') => (Ok v, t')
    | (Ok None, t') => (Err ErrNotFound, t')
    | (Err e, t') => (Err e, t')
    end.
Proof.
  unfold GetValue. unfold bind at 1. rewrite getValueCopy_getValue.
  by destruct (getValue (ToKey key) t) as [[[v|]|e] t'].
Qed.

(** X2: [GetValues] answers every key, in the order of the keys, and an
    error for one key does not stop the others: both slices it returns are
    as long as [keys]; on an invalidated view every slot holds [ErrInvalid]
    and no value; and when the view is still valid as the call returns, slot
    [i] holds what [GetValue] returns for [keys[i]] (the value and no error,
    or no value and the error, [ErrNotFound] for a key without a value),
    and the view is as it was. *)
Theorem GetValues_slot_per_key :
  forall (ToKey : bytes -> Key) (keys : list bytes) (t : trieView),
    let r := GetValues ToKey keys t in
    length r.1.1 = length keys /\ length r.1.2 = length keys /\
    (invalidated t = true ->
       r.1.1 = replicate (length keys) [] /\
       r.1.2 = replicate (length keys) (Some ErrInvalid)) /\
    (invalidated r.2 = false ->
       r.2 = t /\
       forall i key, keys !! i = Some key ->
         match (GetValue ToKey key t).1 with
         | Ok v => r.1.1 !! i = Some v /\ r.1.2 !! i = Some None
         | Err e => r.1.1 !! i = Some [] /\ r.1.2 !! i = Some (Some e)
         end).
Proof.
  intros ToKey keys. induction keys as [|key keys IH]; intros t; cbv zeta.
  { simpl. repeat split; try done. }
  simpl. rewrite getValueCopy_getValue.
  pose proof (getValue_sameButInvalidated (ToKey key) t) as H1.
  pose proof (getValue_invalid (ToKey key) t) as Hinv.
  pose proof (GetValue_getValue ToKey key t) as HGV.
  destruct (getValue (ToKey key) t) as [r t1]. simpl in H1.
  specialize (IH t1). cbv zeta in IH.
  pose proof (GetValues_sameButInvalidated ToKey keys t1) as H2.
  destruct (GetValues ToKey keys t1) as [[res errs] t2]. simpl in IH, H2.
  destruct IH as (Hl1 & Hl2 & Hall & Hvalid).
  assert (Hrest : invalidated t2 = false -> t2 = t /\ t1 = t /\
            forall i key', keys !! i = Some key' ->
              match (GetValue ToKey key' t).1 with
              | Ok v => res !! i = Some v /\ errs !! i = Some None
              | Err e => res !! i = Some [] /\ errs !! i = Some (Some e)
              end).
  { intros Hv. destruct (Hvalid Hv) as [-> Hslots].
    pose proof (sameButInvalidated_valid _ _ H1 Hv) as ->. done. }
  destruct r as [[v|]|e]; simpl.
  - split; [by rewrite Hl1|]. split; [by rewrite Hl2|]. split.
    + intros Ht. by specialize (Hinv Ht).
    + intros Hv. destruct (Hrest Hv) as (-> & -> & Hslots). split; [done|].
      intros [|i] key' Hk; simpl in Hk.
      * injection Hk as <-. by rewrite HGV.
      * by apply Hslots.
  - split; [by rewrite Hl1|]. split; [by rewrite Hl2|]. split.
    + intros Ht. by specialize (Hinv Ht).
    + intros Hv. destruct (Hrest Hv) as (-> & -> & Hslots). split; [done|].
      intros [|i] key' Hk; simpl in Hk.
      * injection Hk as <-. by rewrite HGV.
      * by apply Hslots.
  - split; [by rewrite Hl1|]. split; [by rewrite Hl2|]. split.
    + intros Ht. specialize (Hinv Ht). injection Hinv as -> ->.
      destruct (Hall Ht) as [-> ->]. done.
    + intros Hv. destruct (Hrest Hv) as (-> & -> & Hslots). split; [done|].
      intros [|i] key' Hk; simpl in Hk.
      * injection Hk as <-. by rewrite HGV.
      * by apply Hslots.
Qed.

(** ** The value changes *)

Lemma bind_snd_values {A B} (m : M A) (k : A -> M B) t :
  (forall a t1, values (changes (k a t1).2) = values (changes t1)) ->
  values (changes (bind m k t).2) = values (changes (m t).2).
Proof.
  intros Hk. unfold bind. destruct (m t) as [[a|e] t1]; simpl; [apply Hk|done].
Qed.

Lemma keeps_values_of_preserves {A} (m : M A) :
  (forall V, preserves (fun t => values (changes t) = V) m) ->
  forall t, values (changes (m t).2) = values (changes t).
Proof. intros H t. by apply (H (values (changes t)) t). Qed.

(** What [remove] and [insert] do once the value change is recorded
    leaves the value changes alone. *)
Lemma remove_values key t :
  values (changes (remove key t).2)
  = values (changes (recordValueChange key None t).2).
Proof.
  unfold remove. unfold bind at 1. unfold get at 1.
  destruct (nodesAlreadyCalculated t) eqn:Hflag.
  { by rewrite recordValueChange_NodesAlreadyCalculated. }
  apply bind_snd_values. intros [] t1. revert t1.
  apply keeps_values_of_preserves. intros V.
  set (I := fun t : trieView => values (changes t) = V).
  assert (I_invalidated : forall t b, I t -> I (set_invalidated (invalidated t || b) t))
    by done.
  assert (I_root : forall t n, I t -> I (set_root n t)) by done.
  assert (I_nodes : forall t (key : Key) (c : change (option node)), I t -> True ->
            I (set_nodes (<[key := c]> (nodes (changes t))) t)) by done.
  apply preserves_bind; [apply preserves_get|intros t'].
  destruct (_ !! _) as [val|]; [|apply preserves_ret].
  destruct (_ || _); [apply preserves_ret|].
  apply preserves_bind.
  { apply preserves_visitPathToKey; [by apply preserves_getNode|].
    intros k n acc. unfold remove_visit.
    apply preserves_bind;
      [by apply (preserves_recordNodeChange I (fun _ _ => True))|intros _].
    apply preserves_ret. }
  intros v. destruct (nodeToDelete v) as [nd|]; [|apply preserves_ret].
  apply preserves_bind; [by apply (preserves_storeNode I (fun _ _ => True))|intros _].
  destruct (negb _); [by apply (preserves_compressNodePath I (fun _ _ => True))|].
  apply preserves_bind;
    [by apply (preserves_recordNodeDeleted I (fun _ _ => True))|intros _].
  destruct (parent v); [|apply preserves_ret].
  apply preserves_bind; [by apply (preserves_storeNode I (fun _ _ => True))|intros _].
  by apply (preserves_compressNodePath I (fun _ _ => True)).
Qed.

Lemma insert_values key val t :
  values (changes (insert key val t).2)
  = values (changes (recordValueChange key val t).2).
Proof.
  unfold insert. unfold bind at 1. unfold get at 1.
  destruct (nodesAlreadyCalculated t) eqn:Hflag.
  { by rewrite recordValueChange_NodesAlreadyCalculated. }
  apply bind_snd_values. intros [] t1.
  unfold bind.
  pose proof (insert_walk_keeps_values key (emptyKey, newNode) t1) as [Hw _].
  destruct (visitPathToKey key insert_visit (emptyKey, newNode) t1) as [[closest|e] t2];
    simpl in *; [|done].
  rewrite <- Hw. apply insertAt_keeps_values.
Qed.

(** [recordValueChange] writes the entry of its key and no other; an
    entry that is there keeps its [before]. *)
Lemma recordValueChange_values key val t :
  (forall k, k <> key ->
     values (changes (recordValueChange key val t).2) !! k = values (changes t) !! k) /\
  (forall c, values (changes t) !! key = Some c ->
     exists c', values (changes (recordValueChange key val t).2) !! key = Some c'
                /\ before c' = before c
                /\ (nodesAlreadyCalculated t = false -> after c' = val)).
Proof.
  unfold recordValueChange. unfold bind at 1 3. unfold get at 1 2.
  destruct (nodesAlreadyCalculated t) eqn:Hflag.
  { split; [done|]. intros c Hc. by exists c. }
  destruct (values (changes t) !! key) as [existing|] eqn:Hex.
  - unfold modify. simpl. split.
    + intros k Hk. by rewrite lookup_insert_ne.
    + intros c [= <-]. eexists. by rewrite lookup_insert_eq.
  - split; [|done]. intros k Hk.
    unfold bind, parent_getValue, callParent, modify.
    destruct (tv_getValue (parentTrie t) key) as [[bef|e] raced]; simpl; [|done].
    by rewrite lookup_insert_ne.
Qed.

Lemma recordValueChange_first key val t b raced :
  nodesAlreadyCalculated t = false ->
  values (changes t) !! key = None ->
  tv_getValue (parentTrie t) key = (Ok b, raced) ->
  recordValueChange key val t
  = (Ok tt, set_values (<[key := mkChange b val]> (values (changes t)))
              (set_invalidated (invalidated t || raced) t)).
Proof.
  intros Hflag Hnone Hparent.
  unfold recordValueChange. unfold bind at 1. unfold get at 1. rewrite Hflag, Hnone.
  unfold bind, parent_getValue, callParent, modify. by rewrite Hparent.
Qed.

Lemma applyOp_values o t :
  exists key val,
    values (changes (applyOp o t).2) = values (changes (recordValueChange key val t).2).
Proof.
  destruct o as [key val|key]; simpl.
  - exists key, (Some val). rewrite <- insert_values.
    unfold bind. by destruct (insert key (Some val) t) as [[n|e] t'].
  - exists key, None. apply remove_values.
Qed.

(** X3: the [before] of a value change is the value the parent had when
    the key was first touched, and nothing that follows changes it or drops
    the entry.  First conjunct: recording a change for a key the view has no
    entry for stores the parent's value as [before].  Second conjunct: an
    entry that is there is still there, with the same [before], after any
    sequence of insertions and removals, whether they succeed or fail. *)
Theorem value_change_keeps_first_before :
  (forall (key : Key) (val b : Maybe bytes) (raced : bool) (t : trieView),
     nodesAlreadyCalculated t = false ->
     values (changes t) !! key = None ->
     tv_getValue (parentTrie t) key = (Ok b, raced) ->
     (recordValueChange key val t).1 = Ok tt /\
     values (changes (recordValueChange key val t).2) !! key = Some (mkChange b val)) /\
  (forall (ops : list op) (t : trieView) (key : Key) (c : change (Maybe bytes)),
     values (changes t) !! key = Some c ->
     exists c', values (changes (applyOps ops t)) !! key = Some c' /\
                before c' = before c).
Proof.
  split.
  - intros key val b raced t Hflag Hnone Hparent.
    rewrite (recordValueChange_first key val t b raced) by done.
    simpl. by rewrite lookup_insert_eq.
  - intros ops. induction ops as [|o ops IH]; intros t key c Hc; simpl.
    { by exists c. }
    destruct (applyOp_values o t) as (k & v & Hval).
    destruct (recordValueChange_values k v t) as [Hother Hsame].
    destruct (decide (key = k)) as [->|Hne].
    + destruct (Hsame c Hc) as (c1 & Hc1 & Hb1 & _).
      rewrite <- Hval in Hc1.
      destruct (IH _ _ _ Hc1) as (c' & Hc' & Hb'). exists c'. split; [done|congruence].
    + specialize (Hother key Hne). rewrite <- Hval, Hc in Hother.
      by apply IH.
Qed.

Lemma getValue_local key c t :
  invalidated t = false -> values (changes t) !! key = Some c ->
  getValue key t = (Ok (after c), t).
Proof.
  intros Hv Hc. unfold getValue, bind, isInvalid, get. rewrite Hv. simpl.
  by rewrite Hc.
Qed.

Lemma getValue_fst_congr key t t' :
  invalidated t' = invalidated t ->
  values (changes t') !! key = values (changes t) !! key ->
  parentTrie t' = parentTrie t ->
  (getValue key t').1 = (getValue key t).1.
Proof.
  intros Hi Hv Hp. unfold getValue, bind, isInvalid, get. rewrite Hi. simpl.
  destruct (invalidated t) eqn:Hinv; [done|]. simpl. rewrite Hv.
  destruct (values (changes t) !! key); [done|].
  unfold parent_getValue, callParent. rewrite Hp.
  destruct (tv_getValue (parentTrie t) key) as [[v|e] raced]; simpl; [|done].
  rewrite Hi, Hinv. simpl. by destruct raced.
Qed.

(** [insert] and [remove] keep the parent and do not make an invalidated
    view valid again. *)
Lemma insert_remove_frame key val t t' :
  t' = (insert key val t).2 \/ t' = (remove key t).2 ->
  parentTrie t' = parentTrie t /\ (invalidated t = true -> invalidated t' = true).
Proof.
  set (I := fun t' : trieView =>
              parentTrie t' = parentTrie t /\ (invalidated t = true -> invalidated t' = true)).
  assert (I_invalidated : forall t b, I t -> I (set_invalidated (invalidated t || b) t)).
  { intros t0 b [Hp Hi]. split; [done|]. simpl. intros H. by rewrite (Hi H). }
  assert (I_values : forall t v, I t -> I (set_values v t)) by done.
  assert (I_root : forall t n, I t -> I (set_root n t)) by done.
  assert (I_nodes : forall t (key : Key) (c : change (option node)), I t -> True ->
            I (set_nodes (<[key := c]> (nodes (changes t))) t)) by done.
  assert (I t) by done.
  intros [-> | ->].
  - by apply (preserves_insert I (fun _ _ => True)).
  - by apply (preserves_remove I (fun _ _ => True)).
Qed.

(** X4: what a view writes it reads back, and a write for one key does
    not show in the reads of another: after a successful [insert(key, val)]
    on a view that is still valid, [getValue(key)] is [val]; after a
    successful [remove(key)] it is Nothing; and for any other key [k] the
    entry of the value changes is untouched by either, and [getValue(k)]
    returns what it returned before. *)
Theorem writes_are_read_back :
  forall (key : Key) (val : Maybe bytes) (t : trieView),
    (forall n t', insert key val t = (Ok n, t') -> invalidated t' = false ->
       getValue key t' = (Ok val, t')) /\
    (forall t', remove key t = (Ok tt, t') -> invalidated t' = false ->
       getValue key t' = (Ok None, t')) /\
    (forall k t', k <> key ->
       t' = (insert key val t).2 \/ t' = (remove key t).2 ->
       values (changes t') !! k = values (changes t) !! k /\
       (invalidated t' = false -> (getValue k t').1 = (getValue k t).1)).
Proof.
  intros key val t. split_and!.
  - intros n t' Hrun Hvalid.
    pose proof (insert_values key val t) as Hv. rewrite Hrun in Hv. simpl in Hv.
    unfold insert in Hrun.
    apply bind_Ok_inv in Hrun as (t0 & t0' & Hget & Hrun). injection Hget as <- <-.
    destruct (nodesAlreadyCalculated t); [discriminate|].
    apply bind_Ok_inv in Hrun as ([] & ta & Hrv & _).
    rewrite Hrv in Hv. simpl in Hv.
    apply recordValueChange_Ok in Hrv as (_ & c & Hc & <-).
    apply getValue_local; [done | by rewrite Hv].
  - intros t' Hrun Hvalid.
    pose proof (remove_values key t) as Hv. rewrite Hrun in Hv. simpl in Hv.
    unfold remove in Hrun.
    apply bind_Ok_inv in Hrun as (t0 & t0' & Hget & Hrun). injection Hget as <- <-.
    destruct (nodesAlreadyCalculated t); [discriminate|].
    apply bind_Ok_inv in Hrun as ([] & ta & Hrv & _).
    rewrite Hrv in Hv. simpl in Hv.
    apply recordValueChange_Ok in Hrv as (_ & c & Hc & Hnone).
    rewrite <- Hnone. apply getValue_local; [done | by rewrite Hv].
  - intros k t' Hne Hcase.
    destruct (insert_remove_frame key val t t' Hcase) as [Hp Hi].
    assert (Hv : values (changes t') !! k = values (changes t) !! k).
    { destruct Hcase as [-> | ->].
      - rewrite insert_values. by apply recordValueChange_values.
      - rewrite remove_values. by apply recordValueChange_values. }
    split; [done|]. intros Hvalid. apply getValue_fst_congr; [|done|done].
    rewrite Hvalid. destruct (invalidated t); [by rewrite Hi in Hvalid | done].
Qed.

(** ** The calculation of the node IDs *)

Section HelperInvariant.
Variable I : trieView -> Prop.
Variable ComputeHash256 : bytes -> bytes.
Variable encodeHashValues : Key -> node -> Maybe bytes -> bytes.
Hypothesis I_invalidated :
  forall t b, I t -> I (set_invalidated (invalidated t || b) t).
Hypothesis I_root : forall t n, I t -> I (set_root n t).
Hypothesis I_nodes :
  forall t (key : Key) (c : change (option node)), I t -> True ->
    I (set_nodes (<[key := c]> (nodes (changes t))) t).

Lemma preserves_calculateNodeIDsHelper fuel key n val :
  preserves I (calculateNodeIDsHelper ComputeHash256 encodeHashValues fuel key n val).
Proof.
  revert key n val. induction fuel as [|fuel IH]; intros key n val; simpl.
  { apply preserves_fail. }
  apply preserves_bind.
  { apply preserves_foldM. intros acc [ci c].
    apply preserves_bind; [apply preserves_get|intros t].
    destruct (_ !! _) as [cc|]; [|apply preserves_ret].
    apply preserves_bind; [by apply preserves_getValue|intros _].
    destruct (after cc); [|apply preserves_fail].
    apply preserves_bind; [apply IH|intros id]. apply preserves_ret. }
  intros updated.
  apply preserves_bind; [|intros; apply preserves_ret].
  by apply (preserves_storeNode I (fun _ _ => True)).
Qed.

Hypothesis I_rootID : forall t i, I t -> I (set_rootID i t).

Lemma preserves_assignRootID (m : M ID) : preserves I m -> preserves I (assignRootID m).
Proof.
  intros Hm t Ht. unfold assignRootID. specialize (Hm t Ht).
  destruct (m t) as [[id|e] t']; simpl in *; by apply I_rootID.
Qed.
End HelperInvariant.

Lemma recordValueChange_same_values key val c t :
  values (changes t) !! key = Some c -> after c = val ->
  values (changes (recordValueChange key val t).2) = values (changes t).
Proof.
  intros Hc <-. unfold recordValueChange. unfold bind at 1. unfold get at 1.
  destruct (nodesAlreadyCalculated t); [done|]. rewrite Hc. unfold modify. simpl.
  destruct c as [b a]. simpl. by apply insert_id.
Qed.

(** X5: calculating the node IDs applies the value changes to the trie
    but does not alter them: whatever the order in which the keys are met
    and whether the calculation succeeds or fails, the value changes of the
    view are afterwards what they were. *)
Theorem calculateNodeIDs_keeps_value_changes :
  forall (ComputeHash256 : bytes -> bytes)
         (encodeHashValues : Key -> node -> Maybe bytes -> bytes)
         (order : list Key) (t : trieView),
    values (changes (calculateNodeIDs ComputeHash256 encodeHashValues order t).2)
    = values (changes t).
Proof.
  intros H enc order t. unfold calculateNodeIDs.
  unfold bind at 1. unfold get at 1.
  destruct (calculateNodesOnce t); [done|].
  unfold bind at 1. unfold modify at 1. cbv beta iota.
  destruct (invalidated t) eqn:Hinv; [done|].
  set (t0 := set_calculateNodesOnce true t).
  change (values (changes t)) with (values (changes t0)). clearbody t0.
  set (I := fun t' : trieView => values (changes t') = values (changes t0)).
  assert (I_invalidated : forall t b, I t -> I (set_invalidated (invalidated t || b) t))
    by done.
  assert (I_root : forall t n, I t -> I (set_root n t)) by done.
  assert (I_nodes : forall t (key : Key) (c : change (option node)), I t -> True ->
            I (set_nodes (<[key := c]> (nodes (changes t))) t)) by done.
  assert (I_rootID : forall t i, I t -> I (set_rootID i t)) by done.
  match goal with
  | |- values (changes (let '(r, t') := ?body t0 in _).2) = _ =>
      assert (Hbody : preserves I body); [|specialize (Hbody t0 eq_refl);
        destruct (body t0) as [r t']; exact Hbody]
  end.
  apply preserves_bind.
  { apply preserves_foldM. intros [] key t' Ht'.
    unfold bind at 1. unfold get at 1.
    destruct (values (changes t') !! key) as [c|] eqn:Hc; [|done].
    destruct (after c) as [v|] eqn:Hafter.
    - unfold bind. pose proof (insert_values key (Some v) t') as Hv.
      rewrite (recordValueChange_same_values key (Some v) c t') in Hv by done.
      destruct (insert key (Some v) t') as [[n|e] t1]; simpl in *; red; congruence.
    - red. rewrite remove_values.
      rewrite (recordValueChange_same_values key None c t') by done. exact Ht'. }
  intros _. apply preserves_bind; [by apply preserves_getValue|intros _].
  apply preserves_bind; [apply preserves_get|intros t1].
  apply preserves_bind.
  { apply preserves_assignRootID; [done|]. by apply preserves_calculateNodeIDsHelper. }
  intros _. apply preserves_bind; [apply preserves_isInvalid|intros inv].
  destruct inv; [apply preserves_fail|apply preserves_ret].
Qed.

Lemma storeNode_root n t : root (storeNode emptyKey n t).2 = n.
Proof.
  unfold storeNode, modify. simpl.
  destruct (nodes (changes t) !! emptyKey) as [c|]; [|done]. by destruct (after c).
Qed.

Lemma calculateNodeIDsHelper_root H enc fuel n val t id t' :
  calculateNodeIDsHelper H enc fuel emptyKey n val t = (Ok id, t') ->
  id = calculateID H enc (root t') emptyKey (value (root t')).
Proof.
  destruct fuel as [|fuel]; [discriminate|]. intros Hrun.
  cbn [calculateNodeIDsHelper] in Hrun.
  apply bind_Ok_inv in Hrun as (updated & ta & _ & Hrun).
  apply bind_Ok_inv in Hrun as ([] & tb & Hstore & Hret).
  injection Hret as <- <-.
  match type of Hstore with
  | storeNode _ ?n' _ = _ =>
      pose proof (storeNode_root n' ta) as Hroot; rewrite Hstore in Hroot
  end.
  simpl in Hroot. by rewrite Hroot.
Qed.

Lemma calculateNodeIDs_once_set H enc order t :
  calculateNodesOnce (calculateNodeIDs H enc order t).2 = true.
Proof.
  unfold calculateNodeIDs. unfold bind at 1. unfold get at 1.
  destruct (calculateNodesOnce t) eqn:Honce; [done|].
  unfold bind at 1. unfold modify at 1. cbv beta iota.
  destruct (invalidated t) eqn:Hinv; [done|].
  set (t0 := set_calculateNodesOnce true t).
  assert (Ht0 : calculateNodesOnce t0 = true) by done. clearbody t0.
  set (I := fun t' : trieView => calculateNodesOnce t' = true).
  assert (I_invalidated : forall t b, I t -> I (set_invalidated (invalidated t || b) t))
    by done.
  assert (I_values : forall t v, I t -> I (set_values v t)) by done.
  assert (I_root : forall t n, I t -> I (set_root n t)) by done.
  assert (I_nodes : forall t (key : Key) (c : change (option node)), I t -> True ->
            I (set_nodes (<[key := c]> (nodes (changes t))) t)) by done.
  assert (I_rootID : forall t i, I t -> I (set_rootID i t)) by done.
  match goal with
  | |- calculateNodesOnce (let '(r, t') := ?body t0 in _).2 = _ =>
      assert (Hbody : preserves I body); [|specialize (Hbody t0 Ht0);
        destruct (body t0) as [r t']; exact Hbody]
  end.
  apply preserves_bind.
  { apply preserves_foldM. intros [] key.
    apply preserves_bind; [apply preserves_get|intros t1].
    destruct (_ !! _) as [c|]; [|apply preserves_ret].
    destruct (after c).
    - apply preserves_bind; [|intros; apply preserves_ret].
      by apply (preserves_insert I (fun _ _ => True)).
    - by apply (preserves_remove I (fun _ _ => True)). }
  intros _. apply preserves_bind; [by apply preserves_getValue|intros _].
  apply preserves_bind; [apply preserves_get|intros t1].
  apply preserves_bind.
  { apply preserves_assignRootID; [done|]. by apply preserves_calculateNodeIDsHelper. }
  intros _. apply preserves_bind; [apply preserves_isInvalid|intros inv].
  destruct inv; [apply preserves_fail|apply preserves_ret].
Qed.

Lemma calculateNodeIDs_again H enc order t :
  calculateNodesOnce t = true -> calculateNodeIDs H enc order t = (Ok tt, t).
Proof. intros Honce. unfold calculateNodeIDs, bind, get. by rewrite Honce. Qed.

(** X6: the node IDs are calculated once per view.  After a call of
    [calculateNodeIDs], whatever it returned, a further call does nothing
    and returns no error, and [GetMerkleRoot] returns the stored root ID
    with no error.  In particular the first call on an invalidated view
    fails with [ErrInvalid] and leaves the change set as it is (the root ID
    is not assigned and the trie stays open to changes), and the calls that
    follow no longer report the error. *)
Theorem calculateNodeIDs_runs_once :
  forall (ComputeHash256 : bytes -> bytes)
         (encodeHashValues : Key -> node -> Maybe bytes -> bytes)
         (order order' : list Key) (t : trieView),
    let calc := calculateNodeIDs ComputeHash256 encodeHashValues in
    let t1 := (calc order t).2 in
    calc order' t1 = (Ok tt, t1) /\
    GetMerkleRoot ComputeHash256 encodeHashValues order' t1
    = (Ok (rootID (changes t1)), t1) /\
    (calculateNodesOnce t = false -> invalidated t = true ->
       calc order t = (Err ErrInvalid, set_calculateNodesOnce true t) /\
       changes t1 = changes t /\ nodesAlreadyCalculated t1 = nodesAlreadyCalculated t).
Proof.
  intros H enc order order' t calc t1.
  assert (Honce : calculateNodesOnce t1 = true) by apply calculateNodeIDs_once_set.
  split_and!.
  - by apply calculateNodeIDs_again.
  - unfold GetMerkleRoot. unfold bind at 1.
    rewrite calculateNodeIDs_again by done. done.
  - intros Hfirst Hinv.
    assert (Hrun : calc order t = (Err ErrInvalid, set_calculateNodesOnce true t)).
    { unfold calc, calculateNodeIDs. unfold bind at 1. unfold get at 1. rewrite Hfirst.
      unfold bind at 1. unfold modify at 1. cbv beta iota. by rewrite Hinv. }
    split; [done|]. unfold t1. by rewrite Hrun.
Qed.

(** X7: the root ID a successful calculation stores is the hash of the
    root node as the calculation left it: when the first [calculateNodeIDs]
    of a view succeeds, [changes.rootID] is [calculateID] of [t.root] under
    the empty key with the root's value, the view is still valid and closed
    to further changes, and [GetMerkleRoot] returns that ID. *)
Theorem calculateNodeIDs_rootID_is_hash_of_root :
  forall (ComputeHash256 : bytes -> bytes)
         (encodeHashValues : Key -> node -> Maybe bytes -> bytes)
         (order : list Key) (t t' : trieView),
    calculateNodesOnce t = false ->
    calculateNodeIDs ComputeHash256 encodeHashValues order t = (Ok tt, t') ->
    rootID (changes t')
    = calculateID ComputeHash256 encodeHashValues (root t') emptyKey (value (root t')) /\
    nodesAlreadyCalculated t' = true /\ invalidated t' = false /\
    GetMerkleRoot ComputeHash256 encodeHashValues order t
    = (Ok (calculateID ComputeHash256 encodeHashValues (root t') emptyKey (value (root t'))),
       t').
Proof.
  intros H enc order t t' Honce Hrun.
  assert (Hmain : rootID (changes t')
            = calculateID H enc (root t') emptyKey (value (root t')) /\
            nodesAlreadyCalculated t' = true /\ invalidated t' = false).
  { unfold calculateNodeIDs in Hrun. unfold bind at 1 in Hrun. unfold get at 1 in Hrun.
    rewrite Honce in Hrun. unfold bind at 1 in Hrun. unfold modify at 1 in Hrun.
    cbv beta iota in Hrun. destruct (invalidated t); [discriminate|].
    match type of Hrun with
    | (let '(r, t') := ?body ?t0 in _) = _ => destruct (body t0) as [r tb] eqn:Hbody
    end.
    injection Hrun as -> <-.
    apply bind_Ok_inv in Hbody as (u & ta & _ & Hbody).
    apply bind_Ok_inv in Hbody as (v & ta' & _ & Hbody).
    apply bind_Ok_inv in Hbody as (t1 & t1' & Hget & Hbody). injection Hget as <- <-.
    apply bind_Ok_inv in Hbody as ([] & tc & Hassign & Hbody).
    apply bind_Ok_inv in Hbody as (inv & td & Hinv & Hbody).
    unfold isInvalid in Hinv. injection Hinv as <- <-.
    destruct (invalidated tc) eqn:Hvalid; [discriminate|]. injection Hbody as <-.
    unfold assignRootID in Hassign.
    destruct (calculateNodeIDsHelper _ _ _ _ _ _ _) as [[id|e] tm] eqn:Hhelper;
      [|discriminate].
    apply calculateNodeIDsHelper_root in Hhelper.
    injection Hassign as <-. simpl. done. }
  destruct Hmain as (Hid & Hnac & Hvalid). split_and!; try done.
  unfold GetMerkleRoot, bind. rewrite Hrun. unfold get, ret. by rewrite Hid.
Qed.

Lemma calculateNodeIDs_rootID_is_hash_of_root_witness :
  let H : bytes -> bytes := fun b => x2a :: b in
  let enc : Key -> node -> Maybe bytes -> bytes :=
    fun k n v => default [] v ++ concat (c_id <$> (map_to_list (children n)).*2) in
  let t := (recordValueChange [1; 2; 5]%N (Some [x01])
              (freshView (dbTrie exampleTrie) exampleRoot)).2 in
  let t' := (calculateNodeIDs H enc [[1; 2; 5]%N] t).2 in
  rootID (changes t') = calculateID H enc (root t') emptyKey (value (root t')) /\
  nodesAlreadyCalculated t' = true /\ invalidated t' = false /\
  GetMerkleRoot H enc [[1; 2; 5]%N] t
  = (Ok (calculateID H enc (root t') emptyKey (value (root t'))), t').
Proof.
  intros H enc t t'.
  assert (Hr : (calculateNodeIDs H enc [[1; 2; 5]%N] t).1 = Ok tt) by by vm_compute.
  apply (calculateNodeIDs_rootID_is_hash_of_root H enc [[1; 2; 5]%N] t t').
  - reflexivity.
  - unfold t'. destruct (calculateNodeIDs H enc [[1; 2; 5]%N] t) as [r t''].
    simpl in Hr. by rewrite Hr.
Defined.

(** ** Common prefixes *)

Lemma commonPrefixLen_agree a b i :
  i < commonPrefixLen a b -> Token a i = Token b i.
Proof.
  revert b i. induction a as [|x a IH]; intros [|y b] i; simpl; try lia.
  destruct (N.eqb_spec x y) as [->|]; [|lia].
  destruct i as [|i]; [done|]. intros Hi. unfold Token in *. simpl.
  apply IH. lia.
Qed.

Lemma commonPrefixLen_take a b :
  take (commonPrefixLen a b) a = take (commonPrefixLen a b) b.
Proof.
  revert b. induction a as [|x a IH]; intros [|y b]; simpl; try done.
  destruct (N.eqb_spec x y) as [->|]; [|done]. simpl. by rewrite IH.
Qed.

(** X8: [getLengthOfCommonPrefix(first, second, secondOffset)] is the
    length of the longest common prefix of [first] and of [second] past its
    first [secondOffset] tokens: it exceeds neither length, the tokens
    below it agree, and where both keys go on the next tokens differ. *)
Theorem getLengthOfCommonPrefix_longest :
  forall (first second : Key) (secondOffset : nat),
    let n := getLengthOfCommonPrefix first second secondOffset in
    n <= length first /\ n <= length second - secondOffset /\
    Take first n = Take (Skip second secondOffset) n /\
    (forall i, i < n -> Token first i = Token second (secondOffset + i)) /\
    (n < length first -> secondOffset + n < length second ->
       Token first n <> Token second (secondOffset + n)).
Proof.
  intros first second off n. unfold n. rewrite getLengthOfCommonPrefix_spec.
  split_and!.
  - apply commonPrefixLen_le.
  - pose proof (commonPrefixLen_le_r first (Skip second off)) as H.
    unfold Skip in H. by rewrite length_drop in H.
  - apply commonPrefixLen_take.
  - intros i Hi. rewrite <- Token_Skip. by apply commonPrefixLen_agree.
  - intros H1 H2. rewrite <- Token_Skip. apply commonPrefixLen_mismatch; [done|].
    unfold Skip in *. rewrite length_drop. lia.
Qed.

(** ** The path of a proof *)

Lemma isPrefix_Take (key : Key) m : isPrefix (Take key m) key.
Proof. apply Take_is_prefix. Qed.

Lemma StronglySorted_snoc {A} (R : relation A) (l : list A) (x : A) :
  StronglySorted R l -> Forall (fun y => R y x) l -> StronglySorted R (l ++ [x]).
Proof.
  induction 1 as [|y l Hl IH Hy]; intros Hall; simpl.
  - by repeat constructor.
  - apply Forall_cons in Hall as [Hyx Hall]. constructor; [by apply IH|].
    apply Forall_app. split; [done | by constructor].
Qed.

Lemma visitLoop_getProof_shape H key fuel ck cn path t r t' :
  length key - length ck <= fuel ->
  proofWalk key ck path ->
  visitLoop key (getProof_visit H) fuel ck cn (ck, cn, path) t = (Ok r, t') ->
  proofWalk key r.1.1 r.2 /\ walkStopped key r.1.1 r.1.2 /\ path `prefix_of` r.2.
Proof.
  revert ck cn path t.
  induction fuel as [|fuel IH]; intros ck cn path t Hfuel Hinv; simpl.
  - destruct (Nat.ltb_spec (length ck) (length key)); [lia|].
    intros [= <- _]. simpl. split; [done|]. split; [|done].
    split; [apply Hinv | by left].
  - destruct (Nat.ltb_spec (length ck) (length key)) as [Hlt|Hge].
    2: { intros [= <- _]. simpl. split; [done|]. split; [|done].
         split; [apply Hinv | by left]. }
    destruct (children cn !! Token key (length ck)) as [e|] eqn:He.
    2: { intros [= <- _]. simpl. split; [done|]. split; [|done].
         split; [apply Hinv | right; by left]. }
    destruct (iteratedHasPrefix key (compressedKey e) (length ck + 1)) eqn:Hpfx; simpl.
    2: { intros [= <- _]. simpl. split; [done|]. split; [|done].
         split; [apply Hinv | right; right; eauto]. }
    intros Hrun.
    apply bind_Ok_inv in Hrun as (n' & t1 & _ & Hrun).
    apply bind_Ok_inv in Hrun as (acc' & t2 & Hvisit & Hrun).
    unfold getProof_visit in Hvisit.
    apply bind_Ok_inv in Hvisit as (_ & t3 & _ & Hvisit). injection Hvisit as <- <-.
    simpl in Hrun.
    set (ck' := Take key (length ck + 1 + length (compressedKey e))) in *.
    assert (Hgrow : length ck < length ck').
    { apply length_Take_grows; [done | lia]. }
    apply IH in Hrun.
    + destruct Hrun as (Hw & Hs & Hpre). split; [done|]. split; [done|].
      etrans; [|exact Hpre]. by apply prefix_app_r.
    + lia.
    + destruct Hinv as (Hck & _ & Hall & Hsorted). split_and!.
      * apply isPrefix_Take.
      * eexists. by rewrite last_snoc.
      * apply Forall_app. split.
        -- eapply Forall_impl; [exact Hall|]. intros pn [? ?]. split; [done | lia].
        -- constructor; [|done]. simpl. split; [apply isPrefix_Take | done].
      * apply StronglySorted_snoc; [done|].
        eapply Forall_impl; [exact Hall|]. intros pn [_ ?]. unfold deeper. simpl. lia.
Qed.

Lemma not_isPrefix_child (key ck : Key) (e : child) :
  iteratedHasPrefix key (compressedKey e) (length ck + 1) = false ->
  ~ isPrefix (Extend ck (Token key (length ck)) (compressedKey e)) key.
Proof.
  intros Hpfx Hpre. unfold isPrefix, Extend in Hpre.
  assert (Hlen : length (ck ++ Token key (length ck) :: compressedKey e)
                 = length ck + 1 + length (compressedKey e))
    by (rewrite length_app; simpl; lia).
  rewrite Hlen in Hpre.
  assert (Hleft : Skip (ck ++ Token key (length ck) :: compressedKey e) (length ck + 1)
                  = compressedKey e).
  { unfold Skip. rewrite (cons_middle _ ck), app_assoc.
    apply drop_app_length'. rewrite length_app. simpl. lia. }
  assert (Hce : compressedKey e
                = take (length (compressedKey e)) (Skip key (length ck + 1))).
  { rewrite <- Skip_Take. unfold Take. by rewrite <- Hpre. }
  unfold iteratedHasPrefix in Hpfx. unfold Skip in Hce. rewrite Hce in Hpfx.
  by rewrite hasPrefixb_take in Hpfx.
Qed.

(** X9: the path of a proof leads from the root towards the key.  When
    [getProof] succeeds, the proof is for [ToKey(key)] and carries the value
    [getValue] returned for it; the path starts with the root (the node with
    the empty key) and every node lies deeper than the one before; it
    consists of nodes whose keys are prefixes of the key, followed at most by
    one more node: the child that sits where the key would go on, whose key
    is not a prefix of the key. *)
Theorem getProof_path_shape :
  forall (ComputeHash256 : bytes -> bytes) (ToKey : bytes -> Key)
         (key : bytes) (t : trieView) (p : Proof) (t' : trieView),
    getProof ComputeHash256 ToKey key t = (Ok p, t') ->
    pf_Key p = ToKey key /\
    (getValue (ToKey key) t).1 = Ok (pf_Value p) /\
    (exists r rest, pf_Path p = r :: rest /\ pn_Key r = emptyKey) /\
    StronglySorted deeper (pf_Path p) /\
    exists path tail,
      pf_Path p = path ++ tail /\ path <> [] /\
      Forall (fun pn => isPrefix (pn_Key pn) (ToKey key)) path /\
      (tail = [] \/
       exists pn q, tail = [pn] /\ ~ isPrefix (pn_Key pn) (ToKey key) /\
                    last path = Some q /\ isPrefix (pn_Key q) (pn_Key pn)).
Proof.
  intros H ToKey key t p t'. unfold getProof. intros Hrun.
  apply bind_Ok_inv in Hrun as (val & t1 & Hval & Hrun).
  apply bind_Ok_inv in Hrun as ([[ck cn] path] & t2 & Hwalk & Hrun).
  assert (Hshape : proofWalk (ToKey key) ck path /\ walkStopped (ToKey key) ck cn /\
                   exists r rest, path = r :: rest /\ pn_Key r = emptyKey).
  { unfold visitPathToKey in Hwalk.
    apply bind_Ok_inv in Hwalk as (t0 & t3 & Hget & Hwalk). injection Hget as <- <-.
    apply bind_Ok_inv in Hwalk as (acc' & t4 & Hv & Hwalk).
    unfold getProof_visit in Hv.
    apply bind_Ok_inv in Hv as (_ & t5 & _ & Hv). injection Hv as <- <-.
    simpl in Hwalk.
    apply visitLoop_getProof_shape in Hwalk.
    - destruct Hwalk as (Hw & Hs & [rest Hpre]). simpl in *.
      split; [done|]. split; [done|]. eexists _, rest. by split.
    - simpl. lia.
    - split_and!; simpl.
      + done.
      + by eexists.
      + by repeat constructor.
      + by repeat constructor. }
  destruct Hshape as ((Hck & (q & Hlast & Hq) & Hall & Hsorted) & Hstop & r & rest & Hpath & Hr).
  assert (Hne : path <> []) by by rewrite Hpath.
  assert (Hprefixes : Forall (fun pn => isPrefix (pn_Key pn) (ToKey key)) path).
  { eapply Forall_impl; [exact Hall|]. by intros pn [? _]. }
  assert (Hfst : (getValue (ToKey key) t).1 = Ok val) by by rewrite Hval.
  assert (Hplain : forall p0 t0,
            (Ok {| pf_Key := ToKey key; pf_Value := val; pf_Path := path |}, t2)
            = (Ok p0, t0) ->
            pf_Key p0 = ToKey key /\
            (getValue (ToKey key) t).1 = Ok (pf_Value p0) /\
            (exists r rest, pf_Path p0 = r :: rest /\ pn_Key r = emptyKey) /\
            StronglySorted deeper (pf_Path p0) /\
            exists path tail,
              pf_Path p0 = path ++ tail /\ path <> [] /\
              Forall (fun pn => isPrefix (pn_Key pn) (ToKey key)) path /\
              (tail = [] \/
               exists pn q, tail = [pn] /\ ~ isPrefix (pn_Key pn) (ToKey key) /\
                            last path = Some q /\ isPrefix (pn_Key q) (pn_Key pn))).
  { intros p0 t0 [= <- _]. simpl. split_and!; try done.
    - by exists r, rest.
    - exists path, []. rewrite app_nil_r. split_and!; try done. by left. }
  destruct (decide (ck = ToKey key)) as [Heq|Hneq]; [exact (Hplain p t' Hrun)|].
  destruct (children cn !! Token (ToKey key) (length ck)) as [c|] eqn:Hchild;
    [|exact (Hplain p t' Hrun)].
  clear Hplain.
  apply bind_Ok_inv in Hrun as (childNode & t3 & _ & Hrun).
  apply bind_Ok_inv in Hrun as (_ & t4 & _ & Hrun).
  apply bind_Ok_inv in Hrun as (inv & t5 & _ & Hrun).
  destruct inv; [discriminate|]. injection Hrun as <- _. simpl.
  assert (Hshort : length ck < length (ToKey key)) by by eapply walkStopped_short.
  assert (Hnot : iteratedHasPrefix (ToKey key) (compressedKey c) (length ck + 1) = false).
  { destruct Hstop as [_ [Hlen | [Hnone | (e & He & Hpfx)]]]; [lia | congruence |].
    rewrite Hchild in He. by injection He as <-. }
  split_and!; try done.
  - exists r, (rest ++ [asProofNode H childNode
                          (Extend ck (Token (ToKey key) (length ck)) (compressedKey c))
                          (value childNode)]).
    split; [by rewrite Hpath | done].
  - apply StronglySorted_snoc; [done|].
    eapply Forall_impl; [exact Hall|]. intros pn [_ Hle]. unfold deeper, Extend. simpl.
    rewrite length_app. simpl. lia.
  - eexists path, [_]. split_and!; try done. right.
    eexists _, q. split_and!; try done.
    + simpl. by apply not_isPrefix_child.
    + simpl. rewrite Hq. unfold isPrefix, Extend. by rewrite take_app_length.
Qed.

Lemma getProof_path_shape_witness :
  let t := freshView (dbTrie exampleTrie) exampleRoot in
  let r := getProof (fun b => b) byteTokens [x01; x02; x05] t in
  exists p,
    r = (Ok p, r.2) /\
    (pn_Key <$> pf_Path p) = [[]; [1]; [1; 2]]%N /\
    StronglySorted deeper (pf_Path p) /\
    pf_Value p = None.
Proof.
  intros t r.
  assert (Hrun : r = (Ok (default (mkProof [] None [])
                            (match r.1 with Ok p => Some p | Err _ => None end)), r.2)).
  { apply injective_projections; [by vm_compute | reflexivity]. }
  eexists. split; [exact Hrun|].
  destruct (getProof_path_shape _ _ _ _ _ _ Hrun) as (_ & _ & _ & Hsorted & _).
  split; [by vm_compute|]. split; [exact Hsorted | by vm_compute].
Defined.

(** ** Creating a view *)

Lemma foldM_app {S A B} (f : B -> A -> StateM S B) l1 l2 b t :
  foldM f (l1 ++ l2) b t = bind (foldM f l1 b) (foldM f l2) t.
Proof.
  revert b t. induction l1 as [|a l1 IH]; intros b t; simpl.
  - reflexivity.
  - unfold bind. destruct (f b a t) as [[b'|e] t1]; [|done]. by rewrite IH.
Qed.

Lemma recordAll_writes toKey changes t :
  bind (foldM (fun (_ : unit) op =>
                 let newVal := if bo_Delete op then None else Some (bo_Value op) in
                 recordValueChange (toKey (bo_Key op)) newVal) (BatchOps changes) tt)
       (fun _ => foldM (fun (_ : unit) '(key, val) =>
                          recordValueChange (toKey key) val) (MapOps changes) tt) t
  = recordAll toKey (viewWrites changes) t.
Proof.
  unfold recordAll, viewWrites. rewrite foldM_app. unfold bind.
  assert (H1 : forall ops t,
            foldM (fun (_ : unit) op =>
                     let newVal := if bo_Delete op then None else Some (bo_Value op) in
                     recordValueChange (toKey (bo_Key op)) newVal) ops tt t
            = foldM (fun (_ : unit) w => recordValueChange (toKey w.1) w.2)
                ((fun op => (bo_Key op, if bo_Delete op then None else Some (bo_Value op)))
                   <$> ops) tt t).
  { intros ops. induction ops as [|op ops IH]; intros t0; simpl; [done|].
    unfold bind. destruct (recordValueChange _ _ t0) as [[[]|e] t1]; [apply IH|done]. }
  assert (H2 : forall ws t,
            foldM (fun (_ : unit) '(key, val) => recordValueChange (toKey key) val) ws tt t
            = foldM (fun (_ : unit) w => recordValueChange (toKey w.1) w.2) ws tt t).
  { intros ws. induction ws as [|[k v] ws IH]; intros t0; simpl; [done|].
    unfold bind. destruct (recordValueChange _ _ t0) as [[[]|e] t1]; [apply IH|done]. }
  rewrite H1. destruct (foldM _ (_ <$> BatchOps changes) tt t) as [[[]|e] t1]; [|done].
  apply H2.
Qed.

(** What recording one value change after the other leaves: the nodes, the
    root and the flags as they were, and for every key the value of the last
    write to it, with the [before] the entry had or else the parent's
    value. *)
Lemma recordAll_spec toKey writes t t' :
  recordAll toKey writes t = (Ok tt, t') ->
  nodes (changes t') = nodes (changes t) /\ rootID (changes t') = rootID (changes t) /\
  root t' = root t /\ parentTrie t' = parentTrie t /\
  nodesAlreadyCalculated t' = nodesAlreadyCalculated t /\
  calculateNodesOnce t' = calculateNodesOnce t /\
  forall k,
    match lastWriteFrom toKey k None writes with
    | Some v =>
        exists b, values (changes t') !! k = Some (mkChange b v) /\
                  match values (changes t) !! k with
                  | Some c => b = before c
                  | None => (tv_getValue (parentTrie t) k).1 = Ok b
                  end
    | None => values (changes t') !! k = values (changes t) !! k
    end.
Proof.
  unfold recordAll. revert t t'.
  induction writes as [|[key v] writes IH] using rev_ind; intros t t'.
  { simpl. intros [= <-]. by repeat split. }
  rewrite foldM_app. intros Hrun.
  apply bind_Ok_inv in Hrun as ([] & t1 & Hfirst & Hlast).
  simpl in Hlast. apply bind_Ok_inv in Hlast as ([] & t2 & Hrec & Hret).
  injection Hret as <-.
  destruct (IH _ _ Hfirst) as (Hn & Hid & Hr & Hp & Hc & Ho & Hvals). clear IH.
  assert (Hframe : nodes (changes t2) = nodes (changes t1) /\
                   rootID (changes t2) = rootID (changes t1) /\
                   root t2 = root t1 /\ parentTrie t2 = parentTrie t1 /\
                   nodesAlreadyCalculated t2 = nodesAlreadyCalculated t1 /\
                   calculateNodesOnce t2 = calculateNodesOnce t1 /\
                   forall k,
                     if decide (toKey key = k)
                     then exists b, values (changes t2) !! k = Some (mkChange b v) /\
                            match values (changes t1) !! k with
                            | Some c => b = before c
                            | None => (tv_getValue (parentTrie t1) k).1 = Ok b
                            end
                     else values (changes t2) !! k = values (changes t1) !! k).
  { revert Hrec. unfold recordValueChange. unfold bind at 1. unfold get at 1. simpl.
    destruct (nodesAlreadyCalculated t1) eqn:Hflag; [discriminate|].
    destruct (values (changes t1) !! toKey key) as [existing|] eqn:Hex.
    - unfold modify. intros [= <-]. simpl. repeat split; try done.
      intros k. destruct (decide (toKey key = k)) as [<-|Hne].
      + rewrite lookup_insert_eq, Hex. by eexists.
      + by rewrite lookup_insert_ne.
    - unfold bind, parent_getValue, callParent, modify.
      destruct (tv_getValue (parentTrie t1) (toKey key)) as [[bef|e] raced] eqn:Hpar;
        [|discriminate].
      intros [= <-]. simpl. repeat split; try done.
      intros k. destruct (decide (toKey key = k)) as [<-|Hne].
      + rewrite lookup_insert_eq, Hex, Hpar. by eexists.
      + by rewrite lookup_insert_ne. }
  destruct Hframe as (Hn' & Hid' & Hr' & Hp' & Hc' & Ho' & Hvals').
  split_and!; try congruence.
  intros k. unfold lastWriteFrom. rewrite foldl_app. simpl.
  fold (lastWriteFrom toKey k None writes).
  specialize (Hvals k). specialize (Hvals' k).
  destruct (decide (toKey key = k)) as [Hk|Hk].
  - destruct Hvals' as (b & Hb & Hbefore). exists b. split; [done|].
    destruct (lastWriteFrom toKey k None writes) as [v0|].
    + destruct Hvals as (b0 & Hb0 & Hbefore0). rewrite Hb0 in Hbefore. simpl in Hbefore.
      by subst b.
    + rewrite Hvals in Hbefore. by rewrite Hp in Hbefore.
  - rewrite Hvals'. exact Hvals.
Qed.

Lemma newTrieView_spec toKey parent vc t :
  newTrieView toKey parent vc = Ok t ->
  (tv_getEditableNode parent emptyKey false).1 = Ok (root t) /\
  nodes (changes t) = ∅ /\ rootID (changes t) = ids_Empty /\
  parentTrie t = parent /\
  nodesAlreadyCalculated t = false /\ calculateNodesOnce t = false /\
  forall k,
    match lastWrite toKey (viewWrites vc) k with
    | Some v => exists b, values (changes t) !! k = Some (mkChange b v) /\
                          (tv_getValue parent k).1 = Ok b
    | None => values (changes t) !! k = None
    end.
Proof.
  unfold newTrieView.
  destruct (tv_getEditableNode parent emptyKey false).1 as [r|e] eqn:Hroot.
  2: { by destruct (decide _). }
  match goal with
  | |- context [bind ?m ?k ?t0] =>
      change (bind m k t0) with
        (bind (foldM (fun (_ : unit) op =>
                 let newVal := if bo_Delete op then None else Some (bo_Value op) in
                 recordValueChange (toKey (bo_Key op)) newVal) (BatchOps vc) tt)
              (fun _ => foldM (fun (_ : unit) '(key, val) =>
                          recordValueChange (toKey key) val) (MapOps vc) tt) t0)
  end.
  rewrite recordAll_writes.
  destruct (recordAll toKey (viewWrites vc) _) as [[[]|e] t1] eqn:Hrec; [|discriminate].
  intros [= <-].
  apply recordAll_spec in Hrec as (Hn & Hid & Hr & Hp & Hc & Ho & Hvals). simpl in *.
  split_and!; try done; by rewrite Hr.
Qed.

(** X10: a new view holds the writes it was created with and nothing
    else.  [newTrieView] fails with [ErrNoValidRoot] when the parent has no
    root node and passes any other error of the parent on.  When it
    succeeds, the root of the view is the parent's root node, no node change
    is recorded yet (the trie is only built when the node IDs are
    calculated), no ID is calculated, and the value changes are exactly the
    writes: for every key the entry holds the value of the last write to
    that key (batch operations first, then the map), with the parent's value
    as [before], and a key that is not written has no entry. *)
Theorem newTrieView_holds_the_writes :
  forall (toKey : bytes -> Key) (parent : TrieView) (vc : ViewChanges),
    ((tv_getEditableNode parent emptyKey false).1 = Err ErrNotFound ->
       newTrieView toKey parent vc = Err ErrNoValidRoot) /\
    (forall e, (tv_getEditableNode parent emptyKey false).1 = Err e -> e <> ErrNotFound ->
       newTrieView toKey parent vc = Err e) /\
    (forall t, newTrieView toKey parent vc = Ok t ->
       (tv_getEditableNode parent emptyKey false).1 = Ok (root t) /\
       nodes (changes t) = ∅ /\ rootID (changes t) = ids_Empty /\
       parentTrie t = parent /\
       nodesAlreadyCalculated t = false /\ calculateNodesOnce t = false /\
       forall k,
         match lastWrite toKey (viewWrites vc) k with
         | Some v => exists b, values (changes t) !! k = Some (mkChange b v) /\
                               (tv_getValue parent k).1 = Ok b
         | None => values (changes t) !! k = None
         end).
Proof.
  intros toKey parent vc. split_and!.
  - intros Hroot. unfold newTrieView. rewrite Hroot. by destruct (decide _).
  - intros e Hroot Hne. unfold newTrieView. rewrite Hroot. by destruct (decide _).
  - intros t. apply newTrieView_spec.
Qed.

Lemma replayedValue_nil cs k init : replayedValue cs [] k init = init.
Proof.
  unfold replayedValue.
  destruct (decide (k ∈ [])) as [Hin|_]; [by apply elem_of_nil in Hin | done].
Qed.

Lemma replayedValue_cons_same cs order k c init :
  values cs !! k = Some c ->
  replayedValue cs (k :: order) k init = replayedValue cs order k (Some (after c)).
Proof.
  intros Hc. unfold replayedValue.
  destruct (decide (k ∈ k :: order)) as [_|Hnin]; [|by destruct Hnin; left].
  rewrite Hc. by destruct (decide (k ∈ order)).
Qed.

Lemma replayedValue_cons_other cs order k0 k init :
  k0 <> k \/ values cs !! k0 = None ->
  replayedValue cs (k0 :: order) k init = replayedValue cs order k init.
Proof.
  intros Hcase. unfold replayedValue.
  destruct (decide (k ∈ order)) as [Hin|Hnin].
  - destruct (decide (k ∈ k0 :: order)) as [_|Hnin]; [done | by destruct Hnin; right].
  - destruct (decide (k ∈ k0 :: order)) as [[->|?]%elem_of_cons|]; [|done|done].
    destruct Hcase as [?|Hnone]; [done | by rewrite Hnone].
Qed.

Lemma omap_cons_Some {A B} (f : A -> option B) x l y :
  f x = Some y -> omap f (x :: l) = y :: omap f l.
Proof. intros H. simpl. by rewrite H. Qed.

Lemma omap_cons_None {A B} (f : A -> option B) x l :
  f x = None -> omap f (x :: l) = omap f l.
Proof. intros H. simpl. by rewrite H. Qed.

(** The writes of a historical view: the last write to a key is the
    [after] of its value change. *)
Lemma replayOp_Some keyBytes cs k c :
  values cs !! k = Some c ->
  replayOp keyBytes cs k
  = Some {| bo_Key := keyBytes k; bo_Value := default [] (after c);
            bo_Delete := bool_decide (after c = None) |}.
Proof.
  intros Hc. unfold replayOp. by rewrite Hc.
Qed.

Lemma replayOp_None keyBytes cs k :
  values cs !! k = None -> replayOp keyBytes cs k = None.
Proof.
  intros Hc. unfold replayOp. destruct (_ !! _) as [c'|] eqn:E; [|done].
  discriminate Hc.
Qed.

Lemma lastWriteFrom_replay toKey keyBytes (cs : changeSummary) order k init :
  (forall k', k' ∈ order -> toKey (keyBytes k') = k') ->
  lastWriteFrom toKey k init
    (viewWrites {| BatchOps := omap (replayOp keyBytes cs) order; MapOps := [] |})
  = replayedValue cs order k init.
Proof.
  unfold viewWrites. cbn [BatchOps MapOps]. rewrite app_nil_r. revert init.
  induction order as [|k0 order IH]; intros init Hround.
  { by rewrite replayedValue_nil. }
  assert (Hround' : forall k', k' ∈ order -> toKey (keyBytes k') = k').
  { intros k' Hk'. apply Hround. by right. }
  assert (Hk0 : toKey (keyBytes k0) = k0) by (apply Hround; by left).
  pose proof (fun init => IH init Hround') as IH'. clear IH.
  destruct (values cs !! k0) as [c0|] eqn:Hc0.
  - assert (Hstep : forall i,
              replayedValue cs (k0 :: order) k i
              = replayedValue cs order k
                  (if decide (toKey (keyBytes k0) = k) then Some (after c0) else i)).
    { intros i. rewrite Hk0. destruct (decide (k0 = k)) as [->|Hne].
      - by apply replayedValue_cons_same.
      - apply replayedValue_cons_other. by left. }
    rewrite Hstep, <- IH'.
    rewrite (omap_cons_Some _ k0 order _ (replayOp_Some keyBytes cs k0 c0 Hc0)).
    rewrite fmap_cons. unfold lastWriteFrom.
    cbn [foldl fst snd bo_Key bo_Delete bo_Value].
    f_equal. destruct (decide _); [|done]. f_equal.
    destruct c0 as [b a]. simpl. by destruct a.
  - rewrite replayedValue_cons_other by by right. rewrite <- IH'.
    by rewrite (omap_cons_None _ k0 order (replayOp_None keyBytes cs k0 Hc0)).
Qed.

(** X11: a historical view replays a change summary: when the keys
    survive the way through their bytes and back, [newHistoricalTrieView]
    yields a view on the database whose value changes are, key by key, the
    [after] values of the summary (a deletion for Nothing), with the value
    of the database as [before]; keys the summary does not change have no
    entry. *)
Theorem newHistoricalTrieView_replays_changes :
  forall (toKey : bytes -> Key) (keyBytes : Key -> bytes) (db : TrieView)
         (order : list Key) (cs : changeSummary) (t : trieView),
    (forall k, k ∈ order -> toKey (keyBytes k) = k) ->
    newHistoricalTrieView toKey keyBytes db order cs = Ok t ->
    parentTrie t = db /\ nodes (changes t) = ∅ /\
    forall k,
      (k ∈ order -> forall c, values cs !! k = Some c ->
         exists b, values (changes t) !! k = Some (mkChange b (after c)) /\
                   (tv_getValue db k).1 = Ok b) /\
      (k ∉ order \/ values cs !! k = None -> values (changes t) !! k = None).
Proof.
  intros toKey keyBytes db order cs t Hround Hrun.
  unfold newHistoricalTrieView in Hrun.
  apply newTrieView_spec in Hrun as (_ & Hn & _ & Hp & _ & _ & Hvals).
  split; [done|]. split; [done|]. intros k. specialize (Hvals k).
  unfold lastWrite in Hvals. rewrite (lastWriteFrom_replay toKey keyBytes) in Hvals by done.
  unfold replayedValue in Hvals. split.
  - intros Hin c Hc. destruct (decide (k ∈ order)); [|done]. by rewrite Hc in Hvals.
  - intros [Hnin|Hnone].
    + by destruct (decide (k ∈ order)).
    + destruct (decide (k ∈ order)); [by rewrite Hnone in Hvals | done].
Qed.

Lemma newHistoricalTrieView_replays_changes_witness :
  let keyBytes : Key -> bytes := fun k => (fun n => default x00 (Byte.of_N n)) <$> k in
  let cs := {| values := <[ [1; 2]%N := mkChange (Some [x0b]) None ]>
                           {[ [9%N] := mkChange None (Some [x09]) ]};
               nodes := ∅; rootID := ids_Empty |} in
  exists t,
    newHistoricalTrieView byteTokens keyBytes (dbTrie exampleTrie) [[9%N]; [1; 2]%N] cs = Ok t /\
    values (changes t) !! [1; 2]%N = Some (mkChange (Some [x0b]) None) /\
    values (changes t) !! [9%N] = Some (mkChange None (Some [x09])) /\
    values (changes t) !! [1%N] = None.
Proof.
  intros keyBytes cs.
  destruct (newHistoricalTrieView byteTokens keyBytes (dbTrie exampleTrie)
              [[9%N]; [1; 2]%N] cs) as [t|e] eqn:Hrun.
  2: { exfalso.
       assert (Hok : match newHistoricalTrieView byteTokens keyBytes (dbTrie exampleTrie)
                             [[9%N]; [1; 2]%N] cs with
                     | Ok _ => true | Err _ => false end = true) by by vm_compute.
       by rewrite Hrun in Hok. }
  exists t. split; [done|].
  assert (Hround : forall k, k ∈ [[9%N]; [1; 2]%N] -> byteTokens (keyBytes k) = k).
  { intros k Hk. rewrite !elem_of_cons, elem_of_nil in Hk.
    destruct Hk as [->|[->|[]]]; by vm_compute. }
  destruct (newHistoricalTrieView_replays_changes _ _ _ _ _ _ Hround Hrun) as (_ & _ & Hk).
  split_and!.
  - destruct (Hk [1; 2]%N) as [Hin _].
    destruct (Hin ltac:(by right; left) (mkChange (Some [x0b]) None) eq_refl)
      as (b & Hv & Hb).
    vm_compute in Hb. injection Hb as <-. exact Hv.
  - destruct (Hk [9%N]) as [Hin _].
    destruct (Hin ltac:(by left) (mkChange None (Some [x09])) eq_refl) as (b & Hv & Hb).
    vm_compute in Hb. injection Hb as <-. exact Hv.
  - destruct (Hk [1%N]) as [_ Hout]. apply Hout. left.
    rewrite !elem_of_cons, elem_of_nil. by intros [[=]|[[=]|[]]].
Defined.

(** ** Nodes written and read *)

Lemma clone_id n : clone n = n.
Proof. by destruct n. Qed.

Lemma getNode_deleted key hv c t :
  nodes (changes t) !! key = Some c -> after c = None ->
  getNode key hv t = (Err ErrNotFound, t).
Proof. intros Hc Ha. unfold getNode, bind, get. by rewrite Hc, Ha. Qed.

Lemma getEditableNode_valid key hv t :
  invalidated t = false ->
  forall r, getNode key hv t = (r, t) ->
  getEditableNode key hv t = (r, t).
Proof.
  intros Hvalid r Hget. unfold getEditableNode, bind, isInvalid. rewrite Hvalid. simpl.
  rewrite Hget. destruct r as [n|e]; [|done]. rewrite Hvalid. simpl.
  unfold ret. by rewrite clone_id.
Qed.

(** X12: a node the view has recorded is the node it reads, and a node
    it has deleted is not found, without the parent being asked: after a
    successful [recordNodeChange] or [recordNewNode] for a key, [getNode]
    (and [getEditableNode] on a valid view) returns that node and leaves the
    view alone; after a successful [recordNodeDeleted] for a key other than
    the root's they fail with [ErrNotFound]; and deleting the root records
    it as changed instead, so that it is still read. *)
Theorem recorded_nodes_are_read_back :
  forall (key : Key) (n : node) (hv : bool) (t t' : trieView),
    (recordNodeChange key n t = (Ok tt, t') \/ recordNewNode key n t = (Ok tt, t') ->
       getNode key hv t' = (Ok n, t') /\
       (invalidated t' = false -> getEditableNode key hv t' = (Ok n, t'))) /\
    (key <> emptyKey -> recordNodeDeleted key n t = (Ok tt, t') ->
       getNode key hv t' = (Err ErrNotFound, t') /\
       (invalidated t' = false -> getEditableNode key hv t' = (Err ErrNotFound, t'))) /\
    (key = emptyKey -> recordNodeDeleted key n t = (Ok tt, t') ->
       getNode key hv t' = (Ok n, t')).
Proof.
  intros key n hv t t'. split_and!.
  - intros Hrec.
    assert (Hn : nodeAt t' key = Some n).
    { destruct Hrec as [Hrec|Hrec]; by apply recordKeyChange_Ok_nodeAt in Hrec as [? _]. }
    pose proof (getNode_recorded key hv n t' Hn) as Hget.
    split; [done|]. intros Hvalid. by apply getEditableNode_valid.
  - intros Hne Hrec. unfold recordNodeDeleted in Hrec.
    destruct (decide (length key = 0)) as [Hlen|_].
    { by destruct key. }
    apply recordKeyChange_Ok in Hrec as [(c & Hc & Ha) _].
    pose proof (getNode_deleted key hv c t' Hc Ha) as Hget.
    split; [done|]. intros Hvalid. by apply getEditableNode_valid.
  - intros -> Hrec. unfold recordNodeDeleted in Hrec. simpl in Hrec.
    apply recordKeyChange_Ok_nodeAt in Hrec as [Hn _].
    by apply getNode_recorded.
Qed.

Lemma recorded_nodes_are_read_back_witness :
  let t := freshView (dbTrie exampleTrie) exampleRoot in
  let t1 := (recordNodeChange [1%N] (leaf [x07]) t).2 in
  let t2 := (recordNodeDeleted [1%N] (leaf [x07]) t).2 in
  getNode [1%N] true t1 = (Ok (leaf [x07]), t1) /\
  getNode [1%N] true t2 = (Err ErrNotFound, t2) /\
  (getNode [1%N] true t).1 = Ok {| value := Some [x0a]; children := {[ 2%N := entry [] true ]} |}.
Proof.
  intros t t1 t2.
  assert (H1 : recordNodeChange [1%N] (leaf [x07]) t = (Ok tt, t1))
    by (apply injective_projections; [by vm_compute | reflexivity]).
  assert (H2 : recordNodeDeleted [1%N] (leaf [x07]) t = (Ok tt, t2))
    by (apply injective_projections; [by vm_compute | reflexivity]).
  destruct (recorded_nodes_are_read_back [1%N] (leaf [x07]) true t t1) as (Hrec & _ & _).
  destruct (recorded_nodes_are_read_back [1%N] (leaf [x07]) true t t2) as (_ & Hdel & _).
  split_and!.
  - exact (proj1 (Hrec (or_introl H1))).
  - refine (proj1 (Hdel _ H2)). done.
  - by vm_compute.
Defined.

(** X13: the node [insert] returns is in the trie, under its key, with
    the value: after a successful [insert(key, val)] the node returned has
    the value [val], the change set holds it under [key], it is linked from
    the root through the child entries along [key], [getNode] returns it and
    a walk to [key] ends at it. *)
Theorem insert_node_is_reachable :
  forall (key : Key) (val : Maybe bytes) (t : trieView) (n : node) (t' : trieView),
    insert key val t = (Ok n, t') ->
    value n = val /\ nodeAt t' key = Some n /\ pathTo t' key key n /\
    (forall hv, getNode key hv t' = (Ok n, t')) /\
    (forall acc, visitPathToKey key insert_visit acc t' = (Ok (key, n), t')).
Proof.
  intros key val t n t' Hrun. unfold insert in Hrun.
  apply bind_Ok_inv in Hrun as (t0 & t0' & Hget & Hrun). injection Hget as <- <-.
  destruct (nodesAlreadyCalculated t) eqn:Hflag; [discriminate|].
  apply bind_Ok_inv in Hrun as ([] & ta & Hrv & Hrun).
  apply bind_Ok_inv in Hrun as (closest & tb & Hwalk & Hat).
  apply recordValueChange_Ok in Hrv as (Hfa & _).
  pose proof (insert_walk_keeps_values key (emptyKey, newNode) ta) as [_ Hfb].
  rewrite Hwalk in Hfb. simpl in Hfb.
  pose proof (insertAt_keeps_values key val closest.1 closest.2 tb) as [_ Hf1].
  rewrite Hat in Hf1. simpl in Hf1.
  pose proof (visitPathToKey_insert_pathTo _ _ _ _ _ Hwalk) as Hp.
  pose proof (visitPathToKey_insert_stops _ _ _ _ _ Hwalk) as Hstop.
  destruct (insertAt_pathTo _ _ _ _ _ _ _ Hp Hstop Hat) as [Hp1 Hvn].
  destruct (pathTo_nodeAt _ _ _ _ Hp1) as (Hnk & _).
  split_and!; try done.
  - intros hv. by apply getNode_recorded.
  - intros acc. apply (visitPathToKey_pathTo_retrace key key n); [done | congruence | lia].
Qed.

Lemma insert_node_is_reachable_witness :
  let r := insert [1; 2; 5]%N (Some [x01]) (freshView (dbTrie exampleTrie) exampleRoot) in
  exists n, r.1 = Ok n /\ value n = Some [x01] /\ nodeAt r.2 [1; 2; 5]%N = Some n /\
            pathTo r.2 [1; 2; 5]%N [1; 2; 5]%N n.
Proof.
  intros r.
  assert (Hok : match r.1 with Ok _ => true | Err _ => false end = true) by by vm_compute.
  destruct r as [[n|e] t'] eqn:Hrun; [|discriminate Hok].
  exists n. split; [done|].
  destruct (insert_node_is_reachable _ _ _ _ _ Hrun) as (Hv & Hn & Hp & _). done.
Defined.

(** ** What insertion and removal write *)

Lemma isPrefix_nil (key : Key) : isPrefix [] key.
Proof. done. Qed.

Lemma isPrefix_refl (key : Key) : isPrefix key key.
Proof. unfold isPrefix. by rewrite take_ge. Qed.

(** The walk to [key] with an invariant of the view and a property of the
    variables its callback sets: the callback is only ever called with keys
    that are prefixes of [key]. *)
Lemma visitLoop_hoare {L} (I : trieView -> Prop) (P : L -> Prop) key
    (visitNode : Key -> node -> L -> M L) :
  (forall k hv, preserves I (getNode k hv)) ->
  (forall ck n acc, isPrefix ck key -> P acc ->
     hoare I (visitNode ck n acc) (fun r t => I t /\ forall a, r = Ok a -> P a)) ->
  forall fuel ck cn acc, P acc ->
    hoare I (visitLoop key visitNode fuel ck cn acc)
          (fun r t => I t /\ forall a, r = Ok a -> P a).
Proof.
  intros Hget Hvisit fuel.
  induction fuel as [|fuel IH]; intros ck cn acc Hacc t Ht; simpl.
  - destruct (_ <? _); simpl; (split; [done|]); by intros a [= <-].
  - destruct (_ <? _); [|simpl; (split; [done|]); by intros a [= <-]].
    destruct (_ !! _) as [e|]; [|simpl; (split; [done|]); by intros a [= <-]].
    destruct (negb _); [simpl; (split; [done|]); by intros a [= <-]|].
    unfold bind.
    pose proof (Hget (Take key (length ck + 1 + length (compressedKey e)))
                  (c_hasValue e) t Ht) as Hg.
    destruct (getNode _ _ t) as [[n'|err] t1]; simpl in Hg; [|by split].
    pose proof (Hvisit (Take key (length ck + 1 + length (compressedKey e))) n' acc
                  (isPrefix_Take _ _) Hacc t1 Hg) as Hv.
    destruct (visitNode _ n' acc t1) as [[acc'|err] t2]; simpl in Hv; [|by split; [apply Hv|]].
    destruct Hv as [Ht2 Hacc']. apply IH; [by apply Hacc' | done].
Qed.

Lemma visitPathToKey_hoare {L} (I : trieView -> Prop) (P : L -> Prop) key
    (visitNode : Key -> node -> L -> M L) acc :
  (forall k hv, preserves I (getNode k hv)) ->
  (forall ck n acc, isPrefix ck key -> P acc ->
     hoare I (visitNode ck n acc) (fun r t => I t /\ forall a, r = Ok a -> P a)) ->
  P acc ->
  hoare I (visitPathToKey key visitNode acc) (fun r t => I t /\ forall a, r = Ok a -> P a).
Proof.
  intros Hget Hvisit Hacc t Ht.
  destruct (visitPathToKey key visitNode acc t) as [r t'] eqn:Hrun. simpl.
  unfold visitPathToKey in Hrun. unfold bind at 1 in Hrun. unfold get at 1 in Hrun.
  unfold bind in Hrun.
  pose proof (Hvisit emptyKey (root t) acc (isPrefix_nil key) Hacc t Ht) as Hv.
  destruct (visitNode emptyKey (root t) acc t) as [[acc'|err] t1]; simpl in Hv.
  - destruct Hv as [Ht1 Hacc'].
    pose proof (visitLoop_hoare I P key visitNode Hget Hvisit (length key) emptyKey
                  (root t) acc' (Hacc' _ eq_refl) t1 Ht1) as Hloop.
    by rewrite Hrun in Hloop.
  - by injection Hrun as <- <-.
Qed.

Section OffThePath.
(** A key [k] that does not lie on the way to [key]. *)
Variables key k : Key.
Hypothesis off : ~ isPrefix k key.
Variable entry0 : option (change (option node)).

Let I (t : trieView) : Prop := nodes (changes t) !! k = entry0.

Lemma off_invalidated t b : I t -> I (set_invalidated (invalidated t || b) t).
Proof. done. Qed.

Lemma off_getValue key' : preserves I (getValue key').
Proof. apply preserves_getValue. apply off_invalidated. Qed.

Lemma off_getNode key' hv : preserves I (getNode key' hv).
Proof. apply preserves_getNode. apply off_invalidated. Qed.

Lemma off_recordValueChange key' val : preserves I (recordValueChange key' val).
Proof.
  unfold recordValueChange.
  apply preserves_bind; [apply preserves_get|intros t].
  destruct (nodesAlreadyCalculated t); [apply preserves_fail|].
  destruct (_ !! _); [by apply preserves_modify|].
  apply preserves_bind; [apply preserves_callParent, off_invalidated|intros v].
  by apply preserves_modify.
Qed.

Lemma off_recordKeyChange ck aft newNode :
  isPrefix ck key -> preserves I (recordKeyChange ck aft newNode).
Proof.
  intros Hck t Ht. red. unfold I. rewrite recordKeyChange_other; [done|].
  by intros ->.
Qed.

Lemma off_recordNodeDeleted ck n : isPrefix ck key -> preserves I (recordNodeDeleted ck n).
Proof.
  intros Hck. unfold recordNodeDeleted. destruct (decide _); by apply off_recordKeyChange.
Qed.

Lemma off_storeNode ck n : isPrefix ck key -> preserves I (storeNode ck n).
Proof.
  intros Hck t Ht. red. unfold I. rewrite storeNode_other; [done|]. by intros ->.
Qed.

Lemma off_compressNodePath parent parentKey node_ nodeKey :
  isPrefix parentKey key -> isPrefix nodeKey key ->
  preserves I (compressNodePath parent parentKey node_ nodeKey).
Proof.
  intros Hp Hn t Ht. red. unfold I. rewrite compressNodePath_local; [done| |].
  - by intros ->.
  - by intros ->.
Qed.

Lemma off_insertAt val ck cn :
  isPrefix ck key -> preserves I (insertAt key val ck cn).
Proof.
  intros Hck. unfold insertAt. destruct (decide (ck = key)).
  { apply preserves_bind; [by apply off_storeNode|intros _]. apply preserves_ret. }
  destruct (_ !! _) as [e|].
  2: { apply preserves_bind; [by apply off_storeNode|intros _].
       apply preserves_bind; [apply off_recordKeyChange, isPrefix_refl|intros _].
       apply preserves_ret. }
  destruct (_ <=? _); [apply preserves_fail|].
  apply preserves_bind; [by apply off_storeNode|intros _].
  destruct (decide _).
  - apply preserves_bind; [apply off_recordKeyChange, isPrefix_Take|intros _].
    apply preserves_ret.
  - apply preserves_bind; [apply off_recordKeyChange, isPrefix_refl|intros _].
    apply preserves_bind; [apply off_recordKeyChange, isPrefix_Take|intros _].
    apply preserves_ret.
Qed.

Lemma off_insert val : preserves I (insert key val).
Proof.
  unfold insert.
  apply preserves_bind; [apply preserves_get|intros t].
  destruct (nodesAlreadyCalculated t); [apply preserves_fail|].
  apply preserves_bind; [apply off_recordValueChange|intros _].
  eapply hoare_bind.
  - apply (visitPathToKey_hoare I (fun acc : Key * node => isPrefix acc.1 key)).
    + apply off_getNode.
    + intros ck n acc Hck _. unfold insert_visit.
      eapply hoare_bind; [by apply (off_recordKeyChange ck (Some n) false)| |].
      * by intros e t' Ht'.
      * intros _ t' Ht'. simpl. split; [done|]. by intros a [= <-].
    + apply isPrefix_nil.
  - by intros e t' [Ht' _].
  - intros closest t' [Ht' Hclosest]. by apply off_insertAt; [apply Hclosest|].
Qed.

Lemma off_remove : preserves I (remove key).
Proof.
  unfold remove.
  apply preserves_bind; [apply preserves_get|intros t].
  destruct (nodesAlreadyCalculated t); [apply preserves_fail|].
  apply preserves_bind; [apply off_recordValueChange|intros _].
  apply preserves_bind; [apply preserves_get|intros t'].
  destruct (_ !! _) as [val|]; [|apply preserves_ret].
  destruct (_ || _); [apply preserves_ret|].
  eapply hoare_bind.
  - apply (visitPathToKey_hoare I
             (fun v : removeVars => isPrefix (grandParentKey v) key /\
                                    isPrefix (parentKey v) key /\
                                    isPrefix (nodeToDeleteKey v) key)).
    + apply off_getNode.
    + intros ck n v Hck (Hg & Hp & Hn). unfold remove_visit.
      eapply hoare_bind; [by apply (off_recordKeyChange ck (Some n) false)| |].
      * by intros e t0 Ht0.
      * intros _ t0 Ht0. simpl. split; [done|]. by intros a [= <-].
    + by repeat split.
  - by intros e t0 [Ht0 _].
  - intros v t0 [Ht0 Hv]. destruct (Hv v eq_refl) as (Hg & Hp & Hn).
    revert t0 Ht0. fold (preserves I
      match nodeToDelete v with
      | Some nodeToDelete =>
          let nodeToDelete := setValue None nodeToDelete in
          storeNode (nodeToDeleteKey v) nodeToDelete ;;
          if negb (bool_decide (size (children nodeToDelete) = 0)) then
            compressNodePath (parent v) (parentKey v) nodeToDelete (nodeToDeleteKey v)
          else
            recordNodeDeleted (nodeToDeleteKey v) nodeToDelete ;;
            match parent v with
            | Some parent =>
                let parent :=
                  deleteChildEntry (Token (nodeToDeleteKey v) (length (parentKey v))) parent in
                storeNode (parentKey v) parent ;;
                compressNodePath (grandParent v) (grandParentKey v) parent (parentKey v)
            | None => ret tt
            end
      | None => ret tt
      end).
    destruct (nodeToDelete v) as [nd|]; [|apply preserves_ret].
    apply preserves_bind; [by apply off_storeNode|intros _].
    destruct (negb _); [by apply off_compressNodePath|].
    apply preserves_bind; [by apply off_recordNodeDeleted|intros _].
    destruct (parent v); [|apply preserves_ret].
    apply preserves_bind; [by apply off_storeNode|intros _].
    by apply off_compressNodePath.
Qed.
End OffThePath.

(** X15: insertion and removal only write on the way to the key: for a
    key [k] that is not a prefix of [key], the entry of the node changes
    under [k] (present or absent) is the same before and after
    [insert(key, val)] and [remove(key)], whether they succeed or fail. *)
Theorem writes_stay_on_the_path :
  forall (key k : Key) (val : Maybe bytes) (t : trieView),
    ~ isPrefix k key ->
    nodes (changes (insert key val t).2) !! k = nodes (changes t) !! k /\
    nodes (changes (remove key t).2) !! k = nodes (changes t) !! k.
Proof.
  intros key k val t Hoff. split.
  - by apply (off_insert key k Hoff (nodes (changes t) !! k) val t).
  - by apply (off_remove key k Hoff (nodes (changes t) !! k) t).
Qed.

Lemma writes_stay_on_the_path_witness :
  let t := freshView (dbTrie exampleTrie) exampleRoot in
  nodes (changes (insert [1; 2; 5]%N (Some [x01]) t).2) !! [1; 2; 3]%N = None /\
  nodes (changes (remove [1; 2; 4]%N t).2) !! [1; 2; 3]%N = None /\
  nodes (changes (insert [1; 2; 5]%N (Some [x01]) t).2) !! [1; 2]%N <> None.
Proof.
  intros t.
  assert (Hoff5 : ~ isPrefix [1; 2; 3]%N [1; 2; 5]%N) by (by intros [=]).
  assert (Hoff4 : ~ isPrefix [1; 2; 3]%N [1; 2; 4]%N) by (by intros [=]).
  split_and!.
  - etrans; [exact (proj1 (writes_stay_on_the_path _ _ (Some [x01]) t Hoff5))|]. done.
  - etrans; [exact (proj2 (writes_stay_on_the_path _ _ None t Hoff4))|]. done.
  - by vm_compute.
Defined.

(** ** The entries of the node changes *)

(** An invariant that is kept by a write to the node changes which leaves
    the [before] of an entry that is there as it is, is kept by the methods
    of the view: they write no other way. *)
Section NodeEntryInvariant.
Variable I : trieView -> Prop.
Variable okEntry : Key -> option node -> Prop.

Hypothesis I_invalidated :
  forall t b, I t -> I (set_invalidated (invalidated t || b) t).
Hypothesis I_values : forall t v, I t -> I (set_values v t).
Hypothesis I_root : forall t n, I t -> I (set_root n t).
Hypothesis I_write :
  forall t key c, I t -> okEntry key (after c) ->
    (forall c0, nodes (changes t) !! key = Some c0 -> before c = before c0) ->
    I (set_nodes (<[key := c]> (nodes (changes t))) t).
Hypothesis okEntry_Some : forall key n, okEntry key (Some n).
Hypothesis okEntry_None : forall key, length key <> 0 -> okEntry key None.

Lemma entry_recordValueChange key val : preserves I (recordValueChange key val).
Proof.
  unfold recordValueChange.
  apply preserves_bind; [apply preserves_get|intros t].
  destruct (nodesAlreadyCalculated t); [apply preserves_fail|].
  destruct (_ !! _).
  - apply preserves_modify. intros t' Ht'. by apply I_values.
  - apply preserves_bind; [by apply preserves_callParent|intros v].
    apply preserves_modify. intros t' Ht'. by apply I_values.
Qed.

Lemma entry_recordKeyChange key aft newNode :
  okEntry key aft -> preserves I (recordKeyChange key aft newNode).
Proof.
  intros Hok t Ht. unfold recordKeyChange. unfold bind at 1. unfold get at 1.
  destruct (nodesAlreadyCalculated t); [done|].
  destruct (nodes (changes t) !! key) as [existing|] eqn:Hex.
  { unfold modify. simpl. apply I_write; [done | done |].
    intros c0 Hc0. rewrite Hex in Hc0. by injection Hc0 as <-. }
  destruct newNode.
  { unfold modify. simpl. apply I_write; [done | done |].
    intros c0 Hc0. by rewrite Hex in Hc0. }
  unfold bind.
  pose proof (preserves_callParent I I_invalidated (fun p => tv_getValue p key) t Ht) as Hv.
  pose proof (callParent_same (fun p => tv_getValue p key) t) as (Hc1 & _).
  fold (parent_getValue key) in Hv, Hc1.
  destruct (parent_getValue key t) as [[val|e] t1]; simpl in *; [|done].
  pose proof (preserves_callParent I I_invalidated
                (fun p => tv_getEditableNode p key (bool_decide (val ≠ None))) t1 Hv) as Hn.
  pose proof (callParent_same
                (fun p => tv_getEditableNode p key (bool_decide (val ≠ None))) t1)
    as (Hc2 & _).
  fold (parent_getEditableNode key (bool_decide (val ≠ None))) in Hn, Hc2.
  destruct (parent_getEditableNode key (bool_decide (val ≠ None)) t1) as [[bef|e] t2];
    simpl in *.
  - apply I_write; [done | done |]. rewrite Hc2, Hc1, Hex. by intros c0 [=].
  - destruct (decide (e = ErrNotFound)); simpl; [|done].
    apply I_write; [done | done |]. rewrite Hc2, Hc1, Hex. by intros c0 [=].
Qed.

Lemma entry_recordNodeDeleted key n : preserves I (recordNodeDeleted key n).
Proof.
  unfold recordNodeDeleted. destruct (decide _); apply entry_recordKeyChange; auto.
Qed.

Lemma entry_storeNode key n : preserves I (storeNode key n).
Proof.
  unfold storeNode. apply preserves_modify. intros t Ht. cbv beta zeta.
  set (t1 := if decide (key = emptyKey) then set_root n t else t).
  assert (Ht1 : I t1) by (subst t1; destruct (decide _); auto).
  clearbody t1. destruct (nodes (changes t1) !! key) as [c|] eqn:Hc; [|done].
  destruct (after c); [|done]. apply I_write; [done | apply okEntry_Some |].
  rewrite Hc. by intros c0 [= <-].
Qed.

Lemma entry_compressNodePath parent parentKey node_ nodeKey :
  preserves I (compressNodePath parent parentKey node_ nodeKey).
Proof.
  unfold compressNodePath.
  apply preserves_bind; [apply preserves_get|intros t].
  destruct (nodesAlreadyCalculated t); [apply preserves_fail|].
  apply preserves_bind; [by apply preserves_getValue|intros val].
  destruct parent as [p|]; [|apply preserves_ret].
  destruct (map_to_list (children node_)) as [|[index e] [|]]; try apply preserves_ret.
  destruct val; [apply preserves_ret|].
  apply preserves_bind; [apply entry_recordNodeDeleted|intros _].
  apply preserves_bind; [apply entry_storeNode|intros _].
  by apply entry_recordKeyChange.
Qed.

Lemma entry_remove key : preserves I (remove key).
Proof.
  unfold remove.
  apply preserves_bind; [apply preserves_get|intros t].
  destruct (nodesAlreadyCalculated t); [apply preserves_fail|].
  apply preserves_bind; [apply entry_recordValueChange|intros _].
  apply preserves_bind; [apply preserves_get|intros t'].
  destruct (_ !! _) as [val|]; [|apply preserves_ret].
  destruct (_ || _); [apply preserves_ret|].
  apply preserves_bind.
  { apply preserves_visitPathToKey; [by apply preserves_getNode|].
    intros k n acc. unfold remove_visit.
    apply preserves_bind; [by apply entry_recordKeyChange|intros _].
    apply preserves_ret. }
  intros v. destruct (nodeToDelete v) as [nd|]; [|apply preserves_ret].
  apply preserves_bind; [apply entry_storeNode|intros _].
  destruct (negb _); [apply entry_compressNodePath|].
  apply preserves_bind; [apply entry_recordNodeDeleted|intros _].
  destruct (parent v); [|apply preserves_ret].
  apply preserves_bind; [apply entry_storeNode|intros _].
  apply entry_compressNodePath.
Qed.

Lemma entry_insertAt key val ck cn : preserves I (insertAt key val ck cn).
Proof.
  unfold insertAt. destruct (decide (ck = key)).
  { apply preserves_bind; [apply entry_storeNode|intros _]. apply preserves_ret. }
  destruct (_ !! _) as [e|].
  2: { apply preserves_bind; [apply entry_storeNode|intros _].
       apply preserves_bind; [by apply entry_recordKeyChange|intros _].
       apply preserves_ret. }
  destruct (_ <=? _); [apply preserves_fail|].
  apply preserves_bind; [apply entry_storeNode|intros _].
  destruct (decide _).
  - apply preserves_bind; [by apply entry_recordKeyChange|intros _]. apply preserves_ret.
  - apply preserves_bind; [by apply entry_recordKeyChange|intros _].
    apply preserves_bind; [by apply entry_recordKeyChange|intros _]. apply preserves_ret.
Qed.

Lemma entry_insert key val : preserves I (insert key val).
Proof.
  unfold insert.
  apply preserves_bind; [apply preserves_get|intros t].
  destruct (nodesAlreadyCalculated t); [apply preserves_fail|].
  apply preserves_bind; [apply entry_recordValueChange|intros _].
  apply preserves_bind; [|intros closest; apply entry_insertAt].
  apply preserves_visitPathToKey; [by apply preserves_getNode|].
  intros k n acc. unfold insert_visit.
  apply preserves_bind; [by apply entry_recordKeyChange|intros _].
  apply preserves_ret.
Qed.

Lemma entry_applyOps ops t : I t -> I (applyOps ops t).
Proof.
  revert t. induction ops as [|o ops IH]; intros t Ht; [done|].
  simpl. apply IH. destruct o as [key val|key]; simpl.
  - apply (preserves_bind I (insert key (Some val)) (fun _ => ret tt));
      [apply entry_insert | intros; apply preserves_ret | done].
  - by apply entry_remove.
Qed.
End NodeEntryInvariant.

(** X14: the node changes only grow, and insertion deletes nothing.  An
    entry of the node changes is still there, with the same [before], after
    any sequence of insertions and removals, whether they succeed or fail;
    and a node that is recorded as deleted after an [insert] was recorded as
    deleted before it. *)
Theorem node_changes_only_grow :
  forall (t : trieView) (k : Key),
    (forall (ops : list op) (c : change (option node)),
       nodes (changes t) !! k = Some c ->
       exists c', nodes (changes (applyOps ops t)) !! k = Some c' /\
                  before c' = before c) /\
    (forall (key : Key) (val : Maybe bytes) (c' : change (option node)),
       nodes (changes (insert key val t).2) !! k = Some c' -> after c' = None ->
       exists c, nodes (changes t) !! k = Some c /\ after c = None).
Proof.
  intros t k. split.
  - intros ops c Hc.
    set (I := fun t' : trieView =>
                exists c', nodes (changes t') !! k = Some c' /\ before c' = before c).
    apply (entry_applyOps I (fun _ _ => True)); try done.
    + intros t0 key c1 (c' & Hc' & Hb) _ Hbefore. unfold I. simpl.
      destruct (decide (key = k)) as [->|Hne].
      * rewrite lookup_insert_eq. eexists. split; [done|].
        rewrite (Hbefore _ Hc'). done.
      * rewrite lookup_insert_ne by done. by exists c'.
    + by exists c.
  - intros key val.
    set (I := fun t' : trieView =>
                forall c', nodes (changes t') !! k = Some c' -> after c' = None ->
                  exists c, nodes (changes t) !! k = Some c /\ after c = None).
    assert (Hpres : preserves I (insert key val)).
    { apply (preserves_insert I (fun _ aft => aft <> None)); try done.
      intros t0 key0 c0 Ht0 Hok c' Hc' Hnone. simpl in Hc'.
      destruct (decide (key0 = k)) as [->|Hne].
      - rewrite lookup_insert_eq in Hc'. injection Hc' as <-. done.
      - rewrite lookup_insert_ne in Hc' by done. by apply (Ht0 c'). }
    apply Hpres. intros c' Hc' Hnone. by exists c'.
Qed.
